(** * Greedy and memory-balanced partitioners of the planner

    A shallow embedding of [torchrec/distributed/planner/partitioners.py].

    Python integers are [Z]; Python floats (perf totals, plan ratings, the
    tolerance) are exact rationals [Q], rounding is not modelled.  Device
    objects live in a heap addressed by [nat]; lists of devices are lists of
    addresses, so that the aliasing between [_topology.devices],
    [sorted_devices], the host slices and the trial copies of the co-host
    packer is the one of the source.  The proposal is the list of sharding
    options of the state; a sharding option is referred to by its position. *)

From Stdlib Require Import ZArith QArith Lqa String Bool Lia Permutation Sorted.
From stdpp Require Import base tactics option list sets sorting strings.

Local Open Scope Z_scope.

(** ** Data model *)

(** Modelled from the spec: [Storage] is declared in [planner/types.py], which
    is not part of the sources; it is the two-pool capacity vector with
    componentwise addition and subtraction, the "fits within" predicate, and
    the field-wise (lexicographic) order a sort key needs. *)
Record Storage : Type := mkStorage { hbm : Z; ddr : Z }.

Definition storage_add (a b : Storage) : Storage :=
  mkStorage (hbm a + hbm b) (ddr a + ddr b).

Definition storage_sub (a b : Storage) : Storage :=
  mkStorage (hbm a - hbm b) (ddr a - ddr b).

Definition fits_in (a b : Storage) : bool :=
  (hbm a <=? hbm b) && (ddr a <=? ddr b).

Definition storage_ltb (a b : Storage) : bool :=
  (hbm a <? hbm b) || ((hbm a =? hbm b) && (ddr a <? ddr b)).

Definition storage_zero : Storage := mkStorage 0 0.

(** Modelled from the spec: [Perf] is declared in [planner/types.py]; it is the
    accumulated cost, with an addition and a numeric [total]. *)
Record Perf : Type := mkPerf { total : Q }.

Definition perf_add (a b : Perf) : Perf := mkPerf (total a + total b).

Definition Qltb (a b : Q) : bool := negb (Qle_bool b a).

(** Modelled from the spec: a shard has a capacity footprint, a cost and a
    mutable rank, unset ([None]) until a packer fills it in. *)
Record Shard : Type := mkShard {
  s_storage : Storage;
  s_perf : Perf;
  s_rank : option Z
}.

Definition set_rank (s : Shard) (r : Z) : Shard :=
  mkShard (s_storage s) (s_perf s) (Some r).

Definition clear_rank (s : Shard) : Shard :=
  mkShard (s_storage s) (s_perf s) None.

(** Modelled from the spec: the fields of [ShardingOption] the partitioners
    read.  [num_shards] and [total_storage] are derived from the shards. *)
Record ShardingOption : Type := mkShardingOption {
  name : string;
  fqn : string;
  dependency : option string;
  partition_by : string;
  sharding_type : string;
  shards : list Shard
}.

Definition num_shards (so : ShardingOption) : nat := length (shards so).

Definition sum_storage (l : list Storage) : Storage :=
  foldr storage_add storage_zero l.

Definition total_storage (so : ShardingOption) : Storage :=
  fold_left storage_add (map s_storage (shards so)) storage_zero.

Definition with_shards (so : ShardingOption) (ss : list Shard) : ShardingOption :=
  mkShardingOption (name so) (fqn so) (dependency so) (partition_by so)
    (sharding_type so) ss.

(** Modelled from the spec: a device has a rank, a remaining capacity and an
    accumulated cost. *)
Record DeviceHardware : Type := mkDevice {
  rank : Z;
  storage : Storage;
  perf : Perf
}.

Abbreviation ref := nat.
Abbreviation heap := (list DeviceHardware).

(** Modelled from the spec: a topology is the ordered sequence of its devices
    and the host size; the world size is the device count. *)
Record Topology : Type := mkTopology {
  devices : list ref;
  local_world_size : Z
}.

Definition world_size (t : Topology) : Z := Z.of_nat (length (devices t)).

Record ShardingOptionGroup : Type := mkGroup {
  sharding_options : list nat;
  storage_sum : Storage
}.

Global Instance Storage_inhabited : Inhabited Storage := populate storage_zero.
Global Instance Perf_inhabited : Inhabited Perf := populate (mkPerf 0).
Global Instance Shard_inhabited : Inhabited Shard :=
  populate (mkShard storage_zero (mkPerf 0) None).
Global Instance ShardingOption_inhabited : Inhabited ShardingOption :=
  populate (mkShardingOption EmptyString EmptyString None EmptyString EmptyString []).
Global Instance DeviceHardware_inhabited : Inhabited DeviceHardware :=
  populate (mkDevice 0 storage_zero (mkPerf 0)).

(** The values of [PartitionByType] and [ShardingType] the code compares with. *)
Definition UNIFORM : string := "uniform"%string.
Definition HOST : string := "host"%string.
Definition DEVICE : string := "device"%string.
Definition TABLE_ROW_WISE : string := "table_row_wise"%string.
Definition TABLE_COLUMN_WISE : string := "table_column_wise"%string.

(** ** Exceptions and state *)

(** What a [PlannerError] message interpolates. *)
Inductive planner_message : Type :=
| DevicePartitionFailed (shard : Shard) (table : string) (largest : Storage)
| ShardDoesNotFit (storage_needed cap : Storage)
| NoHostForGroup (group : ShardingOptionGroup).

Inductive runtime_message : Type :=
| ShardCountMismatch (n_shards n_devices : nat)
| UnexpectedGroup (group : ShardingOptionGroup)
| UnexpectedCohostShardingType (ty : string).

Inductive exn : Type :=
| PlannerError (m : planner_message)
| RuntimeError (m : runtime_message)
| AssertionError (n : nat)
| ValueError
| ZeroDivisionError
| IndexError.

Definition is_planner_error (e : exn) : bool :=
  match e with PlannerError _ => true | _ => false end.

(** The mutable objects: the device heap and the proposal. *)
Record world : Type := mkWorld {
  heap_of : heap;
  proposal : list ShardingOption
}.

(** A computation either returns, or raises; both leave a state behind. *)
Inductive outcome (S A : Type) : Type :=
| Ok (a : A) (s : S)
| Raise (e : exn) (s : S).
Arguments Ok {S A} a s.
Arguments Raise {S A} e s.

Definition state_of {S A} (o : outcome S A) : S :=
  match o with Ok _ s => s | Raise _ s => s end.

(** ** Stable sort

    [list.sort] and [sorted] are stable; [lt y x] says that [y] has to come
    strictly before [x]. *)
Section stable_sort.
Context {A : Type} (lt : A -> A -> bool).

Fixpoint insert_stable (x : A) (l : list A) : list A :=
    match l with
    | [] => [x]
    | y :: l' => if lt y x then y :: insert_stable x l' else x :: y :: l'
    end.

Definition stable_sort (l : list A) : list A := foldr insert_stable [] l.

  (** Neither has to come before the other. *)
Definition tied (a x : A) : bool := negb (lt a x) && negb (lt x a).
End stable_sort.

(** ** Device updates *)

(** [device.storage -= shard.storage; device.perf += shard.perf] *)
Definition assign (d : DeviceHardware) (s : Shard) : DeviceHardware :=
  mkDevice (rank d) (storage_sub (storage d) (s_storage s))
    (perf_add (perf d) (s_perf s)).

(** ** [_uniform_partition] *)

(** The loop [for i in range(len(devices))] of one sharding option; the state
    is the shard list of the option and the heap. *)
Fixpoint uniform_shards (ss : list Shard) (devs : list ref) (h : heap)
  : outcome (list Shard * heap) unit :=
  match ss, devs with
  | s :: ss', r :: devs' =>
      let d := h !!! r in
      if fits_in (s_storage s) (storage d) then
        match uniform_shards ss' devs' (<[r := assign d s]> h) with
        | Ok _ (ss'', h') => Ok tt (set_rank s (rank d) :: ss'', h')
        | Raise e (ss'', h') => Raise e (set_rank s (rank d) :: ss'', h')
        end
      else
        Raise (PlannerError (ShardDoesNotFit (s_storage s) (storage d))) (ss, h)
  | _, _ => Ok tt (ss, h)
  end.

Definition put_shards (j : nat) (ss : list Shard) (p : list ShardingOption)
  : list ShardingOption :=
  <[j := with_shards (p !!! j) ss]> p.

Definition uniform_option (j : nat) (devs : list ref) (w : world)
  : outcome world unit :=
  let so := proposal w !!! j in
  if negb (num_shards so =? length devs)%nat then
    Raise (RuntimeError (ShardCountMismatch (num_shards so) (length devs))) w
  else
    match uniform_shards (shards so) devs (heap_of w) with
    | Ok _ (ss, h) => Ok tt (mkWorld h (put_shards j ss (proposal w)))
    | Raise e (ss, h) => Raise e (mkWorld h (put_shards j ss (proposal w)))
    end.

Fixpoint _uniform_partition (sos : list nat) (devs : list ref) (w : world)
  : outcome world unit :=
  match sos with
  | [] => Ok tt w
  | j :: sos' =>
      match uniform_option j devs w with
      | Ok _ w' => _uniform_partition sos' devs w'
      | Raise e w' => Raise e w'
      end
  end.

(** ** [_device_partition] *)

(** The sort key [(device.perf.total, device.rank % local_world_size)] and the
    comparison of two such tuples. *)
Definition device_key (h : heap) (lws : Z) (r : ref) : Q * Z :=
  (total (perf (h !!! r)), rank (h !!! r) mod lws).

Definition key_ltb (a b : Q * Z) : bool :=
  if Qeq_bool (fst a) (fst b) then snd a <? snd b else Qltb (fst a) (fst b).

Definition sort_devices (h : heap) (lws : Z) (devs : list ref) : list ref :=
  stable_sort (fun y x => key_ltb (device_key h lws y) (device_key h lws x)) devs.

Fixpoint first_fit (h : heap) (need : Storage) (devs : list ref) : option ref :=
  match devs with
  | [] => None
  | r :: devs' =>
      if fits_in need (storage (h !!! r)) then Some r else first_fit h need devs'
  end.

(** [max(devices, key=lambda device: device.storage)] keeps the first device of
    largest storage; on an empty list [max] raises, [largest_storage] is
    [None] there. *)
Fixpoint max_by_storage (h : heap) (best : ref) (devs : list ref) : ref :=
  match devs with
  | [] => best
  | r :: devs' =>
      if storage_ltb (storage (h !!! best)) (storage (h !!! r))
      then max_by_storage h r devs' else max_by_storage h best devs'
  end.

Definition largest_storage (h : heap) (devs : list ref) : option Storage :=
  match devs with
  | [] => None
  | r :: devs' => Some (storage (h !!! max_by_storage h r devs'))
  end.

Definition is_nil {A} (l : list A) : bool :=
  match l with [] => true | _ => false end.

Fixpoint device_shards (table : string) (lws : Z) (ss : list Shard)
    (devs : list ref) (h : heap) : outcome (list Shard * heap) (list ref) :=
  match ss with
  | [] => Ok devs ([], h)
  | s :: ss' =>
      if (lws =? 0) && negb (is_nil devs) then Raise ZeroDivisionError (ss, h)
      else
        let devs1 := sort_devices h lws devs in
        match first_fit h (s_storage s) devs1 with
        | Some r =>
            let d := h !!! r in
            match device_shards table lws ss' devs1 (<[r := assign d s]> h) with
            | Ok devs2 (ss'', h') => Ok devs2 (set_rank s (rank d) :: ss'', h')
            | Raise e (ss'', h') => Raise e (set_rank s (rank d) :: ss'', h')
            end
        | None =>
            match largest_storage h devs1 with
            | Some big =>
                Raise (PlannerError (DevicePartitionFailed s table big)) (ss, h)
            | None => Raise ValueError (ss, h)
            end
        end
  end.

Definition _device_partition (j : nat) (devs : list ref) (lws : Z) (w : world)
  : outcome world (list ref) :=
  let so := proposal w !!! j in
  match device_shards (name so) lws (shards so) devs (heap_of w) with
  | Ok devs' (ss, h) => Ok devs' (mkWorld h (put_shards j ss (proposal w)))
  | Raise e (ss, h) => Raise e (mkWorld h (put_shards j ss (proposal w)))
  end.

(** ** Grouping stage *)

(** [_get_uniform_sharding_options]: the positions of the uniform options. *)
Fixpoint uniform_from (j : nat) (sos : list ShardingOption) : list nat :=
  match sos with
  | [] => []
  | so :: sos' =>
      if String.eqb (partition_by so) UNIFORM
      then j :: uniform_from (S j) sos' else uniform_from (S j) sos'
  end.

Definition _get_uniform_sharding_options (p : list ShardingOption) : list nat :=
  uniform_from 0 p.

(** [sharding_option.dependency or sharding_option.fqn]: [None] and the empty
    string are falsy. *)
Definition group_key (so : ShardingOption) : string :=
  match dependency so with
  | Some d => if String.eqb d EmptyString then fqn so else d
  | None => fqn so
  end.

(** The dictionary of groups keeps its keys in insertion order. *)
Abbreviation groups_dict := (list (string * ShardingOptionGroup)).

Fixpoint group_add (key : string) (j : nat) (ts : Storage) (d : groups_dict)
  : groups_dict :=
  match d with
  | [] => [(key, mkGroup [j] ts)]
  | (k, g) :: d' =>
      if String.eqb k key
      then (k, mkGroup (sharding_options g ++ [j]) (storage_add (storage_sum g) ts)) :: d'
      else (k, g) :: group_add key j ts d'
  end.

Fixpoint group_from (j : nat) (sos : list ShardingOption) (d : groups_dict)
  : groups_dict :=
  match sos with
  | [] => d
  | so :: sos' =>
      if String.eqb (partition_by so) UNIFORM then group_from (S j) sos' d
      else group_from (S j) sos' (group_add (group_key so) j (total_storage so) d)
  end.

(** [sort(key=storage_sum, reverse=True)]: a larger sum comes first, equal
    sums keep their order. *)
Definition sort_groups (gs : list ShardingOptionGroup) : list ShardingOptionGroup :=
  stable_sort (fun y x => storage_ltb (storage_sum x) (storage_sum y)) gs.

Definition _group_and_sort_non_uniform_sharding_options (p : list ShardingOption)
  : list ShardingOptionGroup :=
  sort_groups (map snd (group_from 0 p [])).

(** ** [_cohost_partition] *)

Definition _get_perf_sum (h : heap) (device_list : list ref) : Q :=
  fold_left (fun acc r => (acc + total (perf (h !!! r)))%Q) device_list 0%Q.

Definition _sort_devices_by_perf (h : heap) (hosts : list (list ref))
  : list (list ref) :=
  stable_sort (fun y x => Qltb (_get_perf_sum h y) (_get_perf_sum h x)) hosts.

(** [copy.deepcopy] of a list of distinct device objects: fresh objects at the
    end of the heap. *)
Definition deepcopy_devices (devs : list ref) (h : heap) : list ref * heap :=
  (seq (length h) (length devs), h ++ map (fun r => h !!! r) devs).

Definition host_storage_sum (h : heap) (host_devices : list ref) : Storage :=
  fold_left (fun acc r => storage_add acc (storage (h !!! r))) host_devices
    storage_zero.

(** The options of a group on the trial devices; [host_devices] is sorted in
    place by [_device_partition]. *)
Fixpoint cohost_options (sos : list nat) (host_devices : list ref) (w : world)
  : outcome world (list ref) :=
  match sos with
  | [] => Ok host_devices w
  | j :: sos' =>
      let so := proposal w !!! j in
      if String.eqb (sharding_type so) TABLE_ROW_WISE then
        match _uniform_partition [j] host_devices w with
        | Ok _ w' => cohost_options sos' host_devices w'
        | Raise e w' => Raise e w'
        end
      else if String.eqb (sharding_type so) TABLE_COLUMN_WISE then
        match _device_partition j host_devices (Z.of_nat (length host_devices)) w with
        | Ok host_devices' w' => cohost_options sos' host_devices' w'
        | Raise e w' => Raise e w'
        end
      else
        Raise (RuntimeError (UnexpectedCohostShardingType (sharding_type so))) w
  end.

Definition sort_by_rank (h : heap) (devs : list ref) : list ref :=
  stable_sort (fun y x => rank (h !!! y) <? rank (h !!! x)) devs.

(** [for device, device_copy in zip(devices, host_devices)] *)
Fixpoint copy_back (devs host_devices : list ref) (h : heap) : heap :=
  match devs, host_devices with
  | r :: devs', c :: host_devices' =>
      copy_back devs' host_devices'
        (<[r := mkDevice (rank (h !!! r)) (storage (h !!! c)) (perf (h !!! c))]> h)
  | _, _ => h
  end.

(** One iteration of the loop over the sorted hosts: the trial of a host.
    It ends the loop ([Done]: the host was committed, or something else than
    a [PlannerError] was raised) or leaves it to the next host ([NextHost]:
    the group does not fit the host's storage, or a sub-packer raised a
    [PlannerError], which is caught). *)
Inductive trial_result : Type :=
| NextHost (w : world)
| Done (o : outcome world unit).

Definition host_trial (g : ShardingOptionGroup) (devs : list ref) (w : world)
  : trial_result :=
  let '(host_devices, h1) := deepcopy_devices devs (heap_of w) in
  let w1 := mkWorld h1 (proposal w) in
  if negb (fits_in (storage_sum g) (host_storage_sum h1 host_devices))
  then NextHost w1
  else
    match cohost_options (sharding_options g) host_devices w1 with
    | Ok host_devices' w2 =>
        let h2 := heap_of w2 in
        Done (Ok tt (mkWorld (copy_back devs (sort_by_rank h2 host_devices') h2)
                       (proposal w2)))
    | Raise (PlannerError _) w2 => NextHost w2
    | Raise e w2 => Done (Raise e w2)
    end.

Fixpoint cohost_hosts (g : ShardingOptionGroup) (hosts : list (list ref))
    (w : world) : outcome world unit :=
  match hosts with
  | [] => Raise (PlannerError (NoHostForGroup g)) w
  | devs :: hosts' =>
      match host_trial g devs w with
      | NextHost w' => cohost_hosts g hosts' w'
      | Done o => o
      end
  end.

Definition _cohost_partition (g : ShardingOptionGroup)
    (_host_level_devices : list (list ref)) (w : world) : outcome world unit :=
  cohost_hosts g (_sort_devices_by_perf (heap_of w) _host_level_devices) w.

(** ** [GreedyPerfPartitioner.partition] *)

(** [l[a:b]] for the non-negative bounds the loop produces. *)
Definition slice {A} (l : list A) (a b : Z) : list A :=
  take (Z.to_nat b - Z.to_nat a)%nat (drop (Z.to_nat a) l).

Definition _get_host_level_devices (t : Topology) : exn + list (list ref) :=
  let lws := local_world_size t in
  if lws =? 0 then inl ZeroDivisionError
  else
    inr (map (fun i => slice (devices t) (Z.of_nat i * lws) ((Z.of_nat i + 1) * lws))
           (seq 0 (Z.to_nat (world_size t / lws)))).

Fixpoint partition_groups (groups : list ShardingOptionGroup)
    (hosts : list (list ref)) (sorted_devices : list ref) (lws : Z) (w : world)
  : outcome world (list ref) :=
  match groups with
  | [] => Ok sorted_devices w
  | g :: groups' =>
      match sharding_options g with
      | [] => Raise IndexError w
      | j0 :: _ =>
          let so0 := proposal w !!! j0 in
          if String.eqb (partition_by so0) HOST then
            match _cohost_partition g hosts w with
            | Ok _ w' => partition_groups groups' hosts sorted_devices lws w'
            | Raise e w' => Raise e w'
            end
          else if String.eqb (partition_by so0) DEVICE then
            if negb (length (sharding_options g) =? 1)%nat
            then Raise (AssertionError (length (sharding_options g))) w
            else
              match _device_partition j0 sorted_devices lws w with
              | Ok sorted_devices' w' =>
                  partition_groups groups' hosts sorted_devices' lws w'
              | Raise e w' => Raise e w'
              end
          else Raise (RuntimeError (UnexpectedGroup g)) w
      end
  end.

(** The proposal is the one of the state; the result is [self._topology], the
    working copy, and the returned plan is the proposal of the final state. *)
Definition partition (storage_constraint : Topology) (w : world)
  : outcome world Topology :=
  let '(devs, h1) := deepcopy_devices (devices storage_constraint) (heap_of w) in
  let _topology := mkTopology devs (local_world_size storage_constraint) in
  let w1 := mkWorld h1 (proposal w) in
  match _get_host_level_devices _topology with
  | inl e => Raise e w1
  | inr _host_level_devices =>
      match _uniform_partition (_get_uniform_sharding_options (proposal w1))
              (devices _topology) w1 with
      | Raise e w2 => Raise e w2
      | Ok _ w2 =>
          match partition_groups
                  (_group_and_sort_non_uniform_sharding_options (proposal w2))
                  _host_level_devices devs (local_world_size _topology) w2 with
          | Raise e w3 => Raise e w3
          | Ok _ w3 => Ok _topology w3
          end
      end
  end.

(** ** [MemoryBalancedPartitioner.partition] *)

(** Modelled from the spec: [reset_shard_rank] of [planner/utils.py] resets all
    shard ranks to unassigned. *)
Definition reset_option (so : ShardingOption) : ShardingOption :=
  with_shards so (map clear_rank (shards so)).

Definition reset_shard_rank (p : list ShardingOption) : list ShardingOption :=
  map reset_option p.

Fixpoint set_hbm_loop (devs : list ref) (hbm_per_device : Z) (h : heap) : heap :=
  match devs with
  | [] => h
  | r :: devs' =>
      let d := h !!! r in
      set_hbm_loop devs' hbm_per_device
        (<[r := mkDevice (rank d) (mkStorage hbm_per_device (ddr (storage d))) (perf d)]> h)
  end.

Definition set_hbm_per_device (storage_constraint : Topology) (hbm_per_device : Z)
    (h : heap) : heap :=
  set_hbm_loop (devices storage_constraint) hbm_per_device h.

Definition sum_Z (l : list Z) : Z := fold_left Z.add l 0.

(** The sum of [shard.storage.hbm] over the proposal. *)
Definition hbm_requirement (p : list ShardingOption) : Z :=
  sum_Z (flat_map (fun so => map (fun s => hbm (s_storage s)) (shards so)) p).

(** The variables of the search loop. *)
Record search : Type := mkSearch {
  search_count : Z;
  min_hbm_per_device : Z;
  max_hbm_per_device : Z;
  default_plan : list ShardingOption
}.

Section MemoryBalancedPartitioner.
  (** [_perf_model.rate], a pure function of the plan (collaborator, not part
      of the sources), and the two options of the constructor. *)
Variable rate : list ShardingOption -> Q.
Variable _max_search_count : Z.
Variable _tolerance : Q.

Definition loop_guard (s : search) : bool :=
    (search_count s <? _max_search_count)
    && (min_hbm_per_device s + 10 * 1024 ^ 2 <? max_hbm_per_device s).

Definition mid_hbm_per_device (s : search) : Z :=
    (max_hbm_per_device s + min_hbm_per_device s) / 2.

  (** One iteration of the [while] loop. *)
Definition search_body (_topology : Topology) (original_plan_perf : Q)
      (s : search) (w : world) : outcome world search :=
    let w1 := mkWorld (heap_of w) (reset_shard_rank (proposal w)) in
    let mid := mid_hbm_per_device s in
    let w2 := mkWorld (set_hbm_per_device _topology mid (heap_of w1)) (proposal w1) in
    let rejected :=
      mkSearch (search_count s + 1) mid (max_hbm_per_device s) (default_plan s) in
    match partition _topology w2 with
    | Ok _ w3 =>
        let new_plan_perf := rate (proposal w3) in
        if Qltb (original_plan_perf * (1 + _tolerance))%Q new_plan_perf
        then Ok rejected w3
        else Ok (mkSearch (search_count s + 1) (min_hbm_per_device s) mid (proposal w3)) w3
    | Raise (PlannerError _) w3 => Ok rejected w3
    | Raise e w3 => Raise e w3
    end.

  (** The [while] loop; [None] when the fuel runs out before the guard fails. *)
Fixpoint search_loop (fuel : nat) (_topology : Topology) (original_plan_perf : Q)
      (s : search) (w : world) : option (outcome world search) :=
    if loop_guard s then
      match fuel with
      | O => None
      | S fuel' =>
          match search_body _topology original_plan_perf s w with
          | Ok s' w' => search_loop fuel' _topology original_plan_perf s' w'
          | Raise e w' => Some (Raise e w')
          end
      end
    else Some (Ok s w).

  (** [int(hbm_requirement / world_size)] truncates the quotient. *)
Definition MemoryBalanced_partition (fuel : nat) (storage_constraint : Topology)
      (w : world) : option (outcome world (list ShardingOption)) :=
    let '(devs, h1) := deepcopy_devices (devices storage_constraint) (heap_of w) in
    let _topology := mkTopology devs (local_world_size storage_constraint) in
    match partition _topology (mkWorld h1 (proposal w)) with
    | Raise e w2 => Some (Raise e w2)
    | Ok _ w2 =>
        let plan0 := proposal w2 in
        let original_plan_perf := rate plan0 in
        match devices _topology with
        | [] => Some (Raise IndexError w2)
        | r0 :: _ =>
            let max_hbm := hbm (storage (heap_of w2 !!! r0)) in
            let min_hbm := Z.quot (hbm_requirement (proposal w2)) (world_size _topology) in
            match search_loop fuel _topology original_plan_perf
                    (mkSearch 0 min_hbm max_hbm plan0) w2 with
            | None => None
            | Some (Ok s w3) => Some (Ok (default_plan s) w3)
            | Some (Raise e w3) => Some (Raise e w3)
            end
        end
    end.
End MemoryBalancedPartitioner.


(** ** Vocabulary of the statements *)

(** The shards of a list that carry rank [rk]. *)
Definition on_rank (rk : Z) (ss : list Shard) : list Shard :=
  filter (fun s => s_rank s = Some rk) ss.

(** [booked d l d']: device [d'] is [d] after the shards [l] were assigned to
    it one after the other, each fitting in what was left at its turn. *)
Fixpoint booked (d : DeviceHardware) (l : list Shard) (d' : DeviceHardware)
  : Prop :=
  match l with
  | [] => d' = d
  | s :: l' =>
      fits_in (s_storage s) (storage d) = true /\ booked (assign d s) l' d'
  end.

(** The devices at the addresses [D] have pairwise different ranks. *)
Definition rank_inj (h : heap) (D : list ref) : Prop :=
  forall r1 r2, r1 ∈ D -> r2 ∈ D -> rank (h !!! r1) = rank (h !!! r2) -> r1 = r2.

Definition allocated (h : heap) (D : list ref) : Prop :=
  Forall (fun r => (r < length h)%nat) D.

(** The shards of the options at the positions [M] that carry rank [rk], in
    the order of [M]. *)
Definition assigned (rk : Z) (p : list ShardingOption) (M : list nat)
  : list Shard :=
  flat_map (fun j => on_rank rk (shards (p !!! j))) M.

(** What a run from [w] to [w'] may have touched: devices at the addresses
    [devs] (or fresh ones), never a rank of a device, and of the proposal only
    the ranks of the shards of the options at the positions [M]. *)
Definition effect (devs : list ref) (M : list nat) (w w' : world) : Prop :=
  (length (heap_of w) <= length (heap_of w'))%nat /\
  (forall r, (r < length (heap_of w))%nat -> r ∉ devs ->
             heap_of w' !! r = heap_of w !! r) /\
  (forall r, (r < length (heap_of w))%nat ->
             rank (heap_of w' !!! r) = rank (heap_of w !!! r)) /\
  length (proposal w') = length (proposal w) /\
  (forall j, j ∉ M -> proposal w' !! j = proposal w !! j) /\
  reset_shard_rank (proposal w') = reset_shard_rank (proposal w).

(** The run from [w] to [w'] booked, on every device at the addresses [D],
    exactly the shards of the options at [M] that carry its rank. *)
Definition commits (D : list ref) (M : list nat) (w w' : world) : Prop :=
  forall r, r ∈ D ->
    booked (heap_of w !!! r)
      (assigned (rank (heap_of w !!! r)) (proposal w') M) (heap_of w' !!! r).

Definition indices_ok (p : list ShardingOption) (M : list nat) : Prop :=
  Forall (fun j => (j < length p)%nat) M.

(** Every shard of [ss] carries the rank of a device at one of [devs]. *)
Definition ranks_within (h : heap) (devs : list ref) (ss : list Shard) : Prop :=
  Forall (fun s => exists r, r ∈ devs /\ s_rank s = Some (rank (h !!! r))) ss.

Definition ranks_of (h : heap) (devs : list ref) : list Z :=
  (fun r => rank (h !!! r)) <$> devs.

(** The ranks strictly increase along [devs], as in a topology, where the
    device at position [i] has rank [i]. *)
Definition ranked (h : heap) (devs : list ref) : Prop :=
  StronglySorted Z.lt (ranks_of h devs).

(** The positions held by a list of groups. *)
Definition members (gs : list ShardingOptionGroup) : list nat :=
  concat (map sharding_options gs).

(** The positions of the non-uniform options of a proposal. *)
Definition non_uniform (p : list ShardingOption) : list nat :=
  filter (fun j => partition_by (p !!! j) <> UNIFORM) (seq 0 (length p)).

(** Option [j] is not uniform and has grouping key [k]. *)
Definition keyed (p : list ShardingOption) (k : string) (j : nat) : Prop :=
  partition_by (p !!! j) <> UNIFORM /\ group_key (p !!! j) = k.

Definition first_of (g : ShardingOptionGroup) : nat := hd O (sharding_options g).

(** How a group was dispatched in a run from [w] to [w']: to the co-host
    packer, which put all its shards on the devices of one host, or, a single
    option, to the device packer. *)
Definition dispatched (hosts : list (list ref)) (w w' : world)
    (g : ShardingOptionGroup) : Prop :=
  exists j0 rest,
    sharding_options g = j0 :: rest /\
    ((partition_by (proposal w !!! j0) = HOST /\
      exists devs, devs ∈ hosts /\
        forall j, j ∈ sharding_options g ->
                  ranks_within (heap_of w) devs (shards (proposal w' !!! j)))
     \/ (partition_by (proposal w !!! j0) = DEVICE /\ rest = [])).

Definition sum_perf (l : list Shard) : Q :=
  foldr (fun s acc => (total (s_perf s) + acc)%Q) 0%Q l.

Definition storage_nonneg (s : Storage) : Prop := 0 <= hbm s /\ 0 <= ddr s.

(** All the shards of the proposal that carry rank [rk]. *)
Definition shards_on (rk : Z) (p : list ShardingOption) : list Shard :=
  assigned rk p (seq 0 (length p)).

Global Instance keyed_dec p k j : Decision (keyed p k j) :=
  and_dec _ _.

(** The sum of the aggregate storage of the options at the positions [M]. *)
Definition sum_total_storage (p : list ShardingOption) (M : list nat) : Storage :=
  sum_storage ((fun m => total_storage (p !!! m)) <$> M).

(** An entry of the dictionary once the options before position [j] were
    seen: the group holds exactly the non-uniform options of key [k] among
    them, in their order, with the sum of their storage. *)
Definition group_ok (p : list ShardingOption) (j : nat)
    (kg : string * ShardingOptionGroup) : Prop :=
  sharding_options kg.2 = filter (keyed p kg.1) (seq 0 j) /\
  sharding_options kg.2 <> [] /\
  storage_sum kg.2 = sum_total_storage p (sharding_options kg.2).

Definition dict_ok (p : list ShardingOption) (j : nat) (d : groups_dict) : Prop :=
  Forall (group_ok p j) d /\
  NoDup d.*1 /\
  (forall m, (m < j)%nat -> partition_by (p !!! m) <> UNIFORM ->
             group_key (p !!! m) ∈ d.*1) /\
  StronglySorted lt ((fun kg => first_of kg.2) <$> d).




Global Instance Qeq_decision (a b : Q) : Decision (a == b)%Q := Qeq_dec a b.

(** Structural validity, which no capacity enters: what the co-host packer
    asks of a member of a group on hosts of [lws] devices, what the dispatch
    asks of a group, and what [partition] asks of a proposal. *)
Definition member_ok (lws : Z) (so : ShardingOption) : Prop :=
  (sharding_type so = TABLE_ROW_WISE /\ Z.of_nat (num_shards so) = lws) \/
  (sharding_type so <> TABLE_ROW_WISE /\ sharding_type so = TABLE_COLUMN_WISE).

Definition group_valid (lws : Z) (p : list ShardingOption)
    (g : ShardingOptionGroup) : Prop :=
  exists j0 rest,
    sharding_options g = j0 :: rest /\
    ((partition_by (p !!! j0) = HOST /\
      Forall (fun j => member_ok lws (p !!! j)) (sharding_options g)) \/
     (partition_by (p !!! j0) = DEVICE /\ rest = [])).

Definition valid (topo : Topology) (p : list ShardingOption) : Prop :=
  local_world_size topo <> 0 /\
  Forall (fun j => num_shards (p !!! j) = length (devices topo))
    (_get_uniform_sharding_options p) /\
  Forall (group_valid (local_world_size topo) p)
    (_group_and_sort_non_uniform_sharding_options p).

Definition same_shape (p p' : list ShardingOption) : Prop :=
  reset_shard_rank p' = reset_shard_rank p.

(** What a packer working on the devices [devs] with host size [lws] can
    raise besides a [PlannerError] or a [RuntimeError]: [max] of an empty
    device list raises [ValueError], [%] by a host size of 0 raises
    [ZeroDivisionError]. *)
Definition raisable (lws : Z) (devs : list ref) (e : exn) : Prop :=
  match e with
  | PlannerError _ | RuntimeError _ => True
  | ValueError => devs = []
  | ZeroDivisionError => lws = 0 /\ devs <> []
  | AssertionError _ | IndexError => False
  end.

(** What the search loop keeps of the devices of its own topology: they stay
    allocated and keep the rank and the DDR they have in the heap [h1]; and
    the proposal keeps the shape of [p0]. *)
Definition search_inv (h1 : heap) (p0 : list ShardingOption) (topo : Topology)
    (w : world) : Prop :=
  same_shape p0 (proposal w) /\
  forall r, r ∈ devices topo ->
    (r < length (heap_of w))%nat /\
    rank (heap_of w !!! r) = rank (h1 !!! r) /\
    ddr (storage (heap_of w !!! r)) = ddr (storage (h1 !!! r)).

(** Two states that differ at most in the ranks carried by the shards of the
    options outside the positions [P]: the heaps are equal, the proposals
    have the same shape, and the options at the positions [P] are equal. *)
Definition agree (P : list nat) (w w2 : world) : Prop :=
  heap_of w2 = heap_of w /\
  same_shape (proposal w) (proposal w2) /\
  forall j, j ∈ P -> proposal w2 !! j = proposal w !! j.

(** ** Example inputs *)

Definition ex_device (r h : Z) : DeviceHardware :=
  mkDevice r (mkStorage h 100) (mkPerf 0).

Definition ex_shard (hbm_needed : Z) (cost : Q) : Shard :=
  mkShard (mkStorage hbm_needed 0) (mkPerf cost) None.

(** Two hosts of two devices; a uniform table, a device-scoped table, and two
    host-scoped tables that share the dependency key [k]. *)
Definition ex_world : world :=
  mkWorld
    [ex_device 0 20; ex_device 1 20; ex_device 2 20; ex_device 3 20]
    [mkShardingOption "t1" "m.t1" None UNIFORM "row_wise"
       [ex_shard 1 1; ex_shard 1 1; ex_shard 1 1; ex_shard 1 1];
     mkShardingOption "t3" "m.t3" None DEVICE "table_wise"
       [ex_shard 3 3; ex_shard 3 3];
     mkShardingOption "t5" "m.t5" (Some "k") HOST TABLE_ROW_WISE
       [ex_shard 2 1; ex_shard 2 1];
     mkShardingOption "t6" "m.t6" (Some "k") HOST TABLE_COLUMN_WISE
       [ex_shard 1 1; ex_shard 1 1; ex_shard 1 1]].

Definition ex_topology : Topology := mkTopology [0; 1; 2; 3]%nat 2.

Definition ex_working : Topology := mkTopology [4; 5; 6; 7]%nat 2.

Definition ex_final : world :=
  Eval vm_compute in state_of (partition ex_topology ex_world).


(** One host of two devices. *)
Definition ex_host_topology : Topology := mkTopology [0; 1]%nat 2.

Definition ex_host_heap : heap := [ex_device 0 20; ex_device 1 20].

(** Two device-scoped options that share the dependency key [k] ... *)
Definition ex_shared : world :=
  mkWorld ex_host_heap
    [mkShardingOption "b" "m.b" (Some "k") DEVICE "table_wise" [ex_shard 1 1];
     mkShardingOption "c" "m.c" (Some "k") DEVICE "table_wise" [ex_shard 1 1]].

(** ... behind a host-scoped option of the same key ... *)
Definition ex_mixed : world :=
  mkWorld ex_host_heap
    [mkShardingOption "a" "m.a" (Some "k") HOST TABLE_ROW_WISE
       [ex_shard 2 1; ex_shard 2 1];
     mkShardingOption "b" "m.b" (Some "k") DEVICE TABLE_COLUMN_WISE [ex_shard 1 1];
     mkShardingOption "c" "m.c" (Some "k") DEVICE TABLE_COLUMN_WISE [ex_shard 1 1]].

(** ... and behind a uniform option that does not fit. *)
Definition ex_preempted : world :=
  mkWorld ex_host_heap
    [mkShardingOption "u" "m.u" None UNIFORM "row_wise"
       [ex_shard 30 1; ex_shard 1 1];
     mkShardingOption "b" "m.b" (Some "k") DEVICE "table_wise" [ex_shard 1 1];
     mkShardingOption "c" "m.c" (Some "k") DEVICE "table_wise" [ex_shard 1 1]].

(** A host-scoped option of a sharding type the co-host packer does not know,
    too large for any host, and one that fits. *)
Definition ex_bad_type (hbm_needed : Z) : world :=
  mkWorld ex_host_heap
    [mkShardingOption "x" "m.x" (Some "k") HOST "table_wise"
       [ex_shard hbm_needed 1]].

(** An option of an unknown strategy behind a uniform option that does not
    fit. *)
Definition ex_bad_tag : world :=
  mkWorld ex_host_heap
    [mkShardingOption "u" "m.u" None UNIFORM "row_wise"
       [ex_shard 30 1; ex_shard 1 1];
     mkShardingOption "y" "m.y" None "rack" "table_wise" [ex_shard 1 1]].

(** Two devices of 64 MiB of HBM and a device-scoped table of two shards of
    8 MiB; a perf model that rates a plan by the cost placed on rank 0. *)
Definition MiB : Z := 1024 ^ 2.

Definition ex_search_world : world :=
  mkWorld [ex_device 0 (64 * MiB); ex_device 1 (64 * MiB)]
    [mkShardingOption "t" "m.t" None DEVICE "table_wise"
       [ex_shard (8 * MiB) 1; ex_shard (8 * MiB) 1]].

Definition ex_rate (plan : list ShardingOption) : Q :=
  sum_perf (shards_on 0 plan).

Definition ex_baseline : world :=
  Eval vm_compute in
    state_of (partition (mkTopology [2; 3]%nat 2)
                (mkWorld (heap_of ex_search_world ++ heap_of ex_search_world)
                   (proposal ex_search_world))).

Definition ex_search_plan : list ShardingOption :=
  Eval vm_compute in
    match MemoryBalanced_partition ex_rate 10 (2 # 100) 10 ex_host_topology
            ex_search_world with
    | Some (Ok plan _) => plan
    | _ => []
    end.

Definition ex_search_final : world :=
  Eval vm_compute in
    match MemoryBalanced_partition ex_rate 10 (2 # 100) 10 ex_host_topology
            ex_search_world with
    | Some o => state_of o
    | None => ex_search_world
    end.

(** A uniform table on one host whose second shard does not fit. *)
Definition ex_partial : world :=
  mkWorld ex_host_heap
    [mkShardingOption "u" "m.u" None UNIFORM "row_wise"
       [ex_shard 5 1; ex_shard 30 1]].
(** * Properties *)

(** ** The stable sort *)

Section stable_sort_facts.
Context {A : Type} (lt : A -> A -> bool).

Lemma insert_stable_Permutation x l : insert_stable lt x l ≡ₚ x :: l.
  Proof.
    induction l as [|y l IH]; simpl; [done|].
    destruct (lt y x); [|done].
    rewrite IH. apply Permutation_swap.
  Qed.

Lemma stable_sort_Permutation l : stable_sort lt l ≡ₚ l.
  Proof.
    induction l as [|x l IH]; simpl; [done|].
    rewrite insert_stable_Permutation. by rewrite IH.
  Qed.

Lemma stable_sort_length l : length (stable_sort lt l) = length l.
  Proof. apply Permutation_length, stable_sort_Permutation. Qed.

Lemma stable_sort_elem_of x l : x ∈ stable_sort lt l <-> x ∈ l.
  Proof. by rewrite stable_sort_Permutation. Qed.

Lemma stable_sort_nil_inv l : stable_sort lt l = [] -> l = [].
  Proof.
    intros H. apply length_zero_iff_nil.
    rewrite <- stable_sort_length. by rewrite H.
  Qed.

  (** Sortedness, for a comparison that is asymmetric and whose complement is
      transitive (a strict weak order). *)
Hypothesis lt_asym : forall x y, lt x y = true -> lt y x = false.
Hypothesis le_trans :
    forall x y z, lt y x = false -> lt z y = false -> lt z x = false.

Lemma insert_stable_sorted x l :
    StronglySorted (fun a b => lt b a = false) l ->
    StronglySorted (fun a b => lt b a = false) (insert_stable lt x l).
  Proof.
    induction l as [|y l IH]; simpl; intros Hs.
    - repeat constructor.
    - apply StronglySorted_inv in Hs as [Hs Hy].
      destruct (lt y x) eqn:E.
      + constructor; [by apply IH|].
        rewrite insert_stable_Permutation. constructor; [by apply lt_asym|done].
      + constructor; [by constructor|].
        constructor; [done|].
        eapply Forall_impl; [exact Hy|]. intros z Hz. simpl in Hz.
        by apply (le_trans x y z).
  Qed.

Lemma stable_sort_sorted l :
    StronglySorted (fun a b => lt b a = false) (stable_sort lt l).
  Proof.
    induction l as [|x l IH]; simpl; [constructor|].
    by apply insert_stable_sorted.
  Qed.

  (** Stability: the elements tied with any [a] keep their order. *)
Lemma insert_stable_tied a x l :
    filter (fun y => tied lt a y = true) (insert_stable lt x l)
    = filter (fun y => tied lt a y = true) (x :: l).
  Proof.
    induction l as [|y l IH]; simpl; [done|].
    destruct (lt y x) eqn:E; [|done].
    rewrite !filter_cons in *. simpl in IH.
    destruct (decide (tied lt a y = true)) as [Hy|Hy];
      destruct (decide (tied lt a x = true)) as [Hx|Hx]; rewrite IH; try done.
    exfalso. unfold tied in Hx, Hy.
    apply andb_true_iff in Hx as [Hx1 Hx2], Hy as [Hy1 Hy2].
    apply negb_true_iff in Hx1, Hx2, Hy1, Hy2.
    by rewrite (le_trans x a y Hx1 Hy2) in E.
  Qed.

Lemma stable_sort_tied a l :
    filter (fun y => tied lt a y = true) (stable_sort lt l)
    = filter (fun y => tied lt a y = true) l.
  Proof.
    induction l as [|x l IH]; simpl; [done|].
    rewrite insert_stable_tied, !filter_cons. by rewrite IH.
  Qed.
End stable_sort_facts.

(** ** The heap *)

Lemma rank_assign d s : rank (assign d s) = rank d.
Proof. done. Qed.

Lemma assign_set_rank d s rk : assign d (set_rank s rk) = assign d s.
Proof. done. Qed.

Lemma rank_insert_assign (h : heap) r s r' :
  rank (<[r := assign (h !!! r) s]> h !!! r') = rank (h !!! r').
Proof.
  rewrite list_lookup_total_insert. case_decide as H; [|done].
  by destruct H as [-> _].
Qed.

Lemma rank_inj_insert_assign (h : heap) r s D :
  rank_inj h D -> rank_inj (<[r := assign (h !!! r) s]> h) D.
Proof.
  intros H r1 r2 H1 H2. rewrite !rank_insert_assign. by apply H.
Qed.

Lemma allocated_insert (h : heap) r d D :
  allocated h D -> allocated (<[r := d]> h) D.
Proof. unfold allocated. by rewrite length_insert. Qed.

Lemma booked_app d l1 d1 l2 d2 :
  booked d l1 d1 -> booked d1 l2 d2 -> booked d (l1 ++ l2) d2.
Proof.
  revert d. induction l1 as [|s l1 IH]; simpl; intros d.
  - by intros ->.
  - intros [Hf Hb] H2. split; [done|]. by apply IH.
Qed.

Lemma booked_rank d l d' : booked d l d' -> rank d' = rank d.
Proof.
  revert d. induction l as [|s l IH]; simpl; intros d.
  - by intros ->.
  - intros [_ Hb]. by rewrite (IH _ Hb).
Qed.

Lemma on_rank_cons_eq rk s ss :
  s_rank s = Some rk -> on_rank rk (s :: ss) = s :: on_rank rk ss.
Proof. intros H. unfold on_rank. by rewrite filter_cons_True. Qed.

Lemma on_rank_cons_ne rk s ss :
  s_rank s <> Some rk -> on_rank rk (s :: ss) = on_rank rk ss.
Proof. intros H. unfold on_rank. by rewrite filter_cons_False. Qed.

(** ** [_uniform_partition], one option *)

Lemma uniform_shards_frame ss devs h :
  let st := state_of (uniform_shards ss devs h) in
  length st.2 = length h /\
  (forall r, r ∉ devs -> st.2 !! r = h !! r) /\
  (forall r, rank (st.2 !!! r) = rank (h !!! r)) /\
  map clear_rank st.1 = map clear_rank ss.
Proof.
  revert devs h. induction ss as [|s ss IH]; intros [|r devs] h; simpl; try done.
  destruct (fits_in _ _); [|done].
  specialize (IH devs (<[r := assign (h !!! r) s]> h)).
  destruct (uniform_shards ss devs _) as [[] [ss' h']|e [ss' h']]; simpl in *;
    destruct IH as (L & F & R & C); rewrite L, length_insert, C;
    (split_and!; [done| |intros r'; by rewrite R, rank_insert_assign|done]);
    intros r' [Hne Hr']%not_elem_of_cons; rewrite F by done;
    by apply list_lookup_insert_ne.
Qed.

Lemma uniform_shards_raise ss devs h e st :
  uniform_shards ss devs h = Raise e st -> is_planner_error e = true.
Proof.
  revert devs h st. induction ss as [|s ss IH]; intros [|r devs] h st; simpl; try done.
  destruct (fits_in _ _); [|by intros [= <- _]].
  destruct (uniform_shards ss devs _) as [[] [ss' h']|e' [ss' h']] eqn:E; [done|].
  intros [= <- _]. by eapply IH.
Qed.

Lemma uniform_shards_booked D ss devs h ss' h' :
  uniform_shards ss devs h = Ok tt (ss', h') ->
  length ss = length devs ->
  rank_inj h D -> devs ⊆ D -> allocated h D ->
  Forall2 (fun s r => s_rank s = Some (rank (h !!! r))) ss' devs /\
  forall r, r ∈ D -> booked (h !!! r) (on_rank (rank (h !!! r)) ss') (h' !!! r).
Proof.
  revert devs h ss' h'.
  induction ss as [|s ss IH]; intros [|r0 devs] h ss' h'; simpl; try done.
  - intros [= <- <-] _ _ _ _. split; [constructor|done].
  - destruct (fits_in _ _) eqn:Hfit; [|done].
    destruct (uniform_shards ss devs _) as [[] [ss1 h1]|e [ss1 h1]] eqn:E; [|done].
    intros [= <- <-] [= Hlen] Hinj Hsub Hal.
    assert (r0 ∈ D) as Hr0 by (apply Hsub; left).
    assert ((r0 < length h)%nat) as Hr0lt
      by (by eapply Forall_forall in Hal).
    destruct (IH _ _ _ _ E Hlen) as [IH1 IH2].
    { by apply rank_inj_insert_assign. }
    { intros x Hx. apply Hsub. by right. }
    { by apply allocated_insert. }
    split.
    + constructor; [done|].
      eapply Forall2_impl; [exact IH1|]. intros s' r' ->.
      by rewrite rank_insert_assign.
    + intros r Hr. specialize (IH2 r Hr).
      rewrite rank_insert_assign in IH2.
      destruct (decide (r = r0)) as [->|Hne].
      * rewrite on_rank_cons_eq by done. simpl. split; [done|].
        by rewrite list_lookup_total_insert_eq in IH2.
      * rewrite on_rank_cons_ne.
        -- by rewrite list_lookup_total_insert_ne in IH2.
        -- simpl. intros [= Heq]. apply Hne. by apply Hinj.
Qed.

(** ** [_device_partition], one option *)

Lemma sort_devices_Permutation h lws devs : sort_devices h lws devs ≡ₚ devs.
Proof. apply stable_sort_Permutation. Qed.

Lemma sort_devices_elem_of h lws devs r : r ∈ sort_devices h lws devs <-> r ∈ devs.
Proof. apply stable_sort_elem_of. Qed.

Lemma sort_devices_nil_inv h lws devs : sort_devices h lws devs = [] -> devs = [].
Proof. apply stable_sort_nil_inv. Qed.

Lemma first_fit_Some h need devs r :
  first_fit h need devs = Some r ->
  exists pre post,
    devs = pre ++ r :: post /\
    Forall (fun r' => fits_in need (storage (h !!! r')) = false) pre /\
    fits_in need (storage (h !!! r)) = true.
Proof.
  induction devs as [|r0 devs IH]; simpl; [done|].
  destruct (fits_in need (storage (h !!! r0))) eqn:E.
  - intros [= <-]. exists [], devs. by repeat split.
  - intros H. destruct (IH H) as (pre & post & -> & Hpre & Hr).
    exists (r0 :: pre), post. repeat split; [|done]. by constructor.
Qed.


Lemma first_fit_elem_of h need devs r :
  first_fit h need devs = Some r ->
  r ∈ devs /\ fits_in need (storage (h !!! r)) = true.
Proof.
  intros (pre & post & -> & _ & Hr)%first_fit_Some. split; [|done].
  apply elem_of_app. right. left.
Qed.

Lemma device_shards_frame table lws ss devs h :
  let o := device_shards table lws ss devs h in
  length (state_of o).2 = length h /\
  (forall r, r ∉ devs -> (state_of o).2 !! r = h !! r) /\
  (forall r, rank ((state_of o).2 !!! r) = rank (h !!! r)) /\
  map clear_rank (state_of o).1 = map clear_rank ss /\
  (forall devs' st, o = Ok devs' st -> devs' ≡ₚ devs).
Proof.
  revert devs h. induction ss as [|s ss IH]; intros devs h; simpl.
  { split_and!; try done. by intros ?? [= <- _]. }
  destruct (_ && _); [by split_and!|].
  destruct (first_fit _ _ _) as [r|] eqn:Hff.
  2:{ destruct (largest_storage _ _); by split_and!. }
  apply first_fit_elem_of in Hff as [Hr _].
  rewrite sort_devices_elem_of in Hr.
  specialize (IH (sort_devices h lws devs) (<[r := assign (h !!! r) s]> h)).
  destruct (device_shards _ _ ss _ _) as [devs2 [ss' h']|e [ss' h']]; simpl in *;
    destruct IH as (L & F & R & C & P); rewrite L, length_insert, C;
    (split_and!; [done| |intros r'; by rewrite R, rank_insert_assign|done|]).
  - intros r' Hr'. rewrite F.
    + apply list_lookup_insert_ne. intros ->. done.
    + by rewrite sort_devices_elem_of.
  - intros devs' st [= <- _]. rewrite (P _ _ eq_refl).
    apply sort_devices_Permutation.
  - intros r' Hr'. rewrite F.
    + apply list_lookup_insert_ne. intros ->. done.
    + by rewrite sort_devices_elem_of.
  - done.
Qed.

Lemma largest_storage_is_Some h devs : devs <> [] -> is_Some (largest_storage h devs).
Proof. destruct devs; [done|]. by eexists. Qed.

Lemma device_shards_raise table lws ss devs h e st :
  lws <> 0 -> devs <> [] ->
  device_shards table lws ss devs h = Raise e st -> is_planner_error e = true.
Proof.
  intros Hlws. revert devs h st.
  induction ss as [|s ss IH]; intros devs h st Hdevs; simpl; [done|].
  apply Z.eqb_neq in Hlws as Hl. rewrite Hl. simpl.
  assert (sort_devices h lws devs <> []) as Hne.
  { intros H. by apply sort_devices_nil_inv in H. }
  destruct (first_fit _ _ _) as [r|].
  - destruct (device_shards _ _ ss _ _) as [devs2 [ss' h']|e' [ss' h']] eqn:E; [done|].
    intros [= <- _]. by eapply IH.
  - destruct (largest_storage_is_Some h _ Hne) as [big ->]. by intros [= <- _].
Qed.

Lemma device_shards_booked D table lws ss devs h devs' ss' h' :
  device_shards table lws ss devs h = Ok devs' (ss', h') ->
  rank_inj h D -> devs ⊆ D -> allocated h D ->
  Forall (fun s => exists r, r ∈ devs /\ s_rank s = Some (rank (h !!! r))) ss' /\
  forall r, r ∈ D -> booked (h !!! r) (on_rank (rank (h !!! r)) ss') (h' !!! r).
Proof.
  revert devs h devs' ss' h'.
  induction ss as [|s ss IH]; intros devs h devs' ss' h'; simpl.
  { intros [= <- <- <-] _ _ _. split; [constructor|done]. }
  destruct (_ && _); [done|].
  destruct (first_fit _ _ _) as [r0|] eqn:Hff.
  2:{ by destruct (largest_storage _ _). }
  apply first_fit_elem_of in Hff as [Hr0 Hfit].
  rewrite sort_devices_elem_of in Hr0.
  destruct (device_shards _ _ ss _ _) as [devs2 [ss1 h1]|e [ss1 h1]] eqn:E; [|done].
  intros [= <- <- <-] Hinj Hsub Hal.
  assert (r0 ∈ D) as Hr0D by (by apply Hsub).
  assert ((r0 < length h)%nat) as Hr0lt by (by eapply Forall_forall in Hal).
  destruct (IH _ _ _ _ _ E) as [IH1 IH2].
  { by apply rank_inj_insert_assign. }
  { intros x Hx. apply Hsub. by rewrite sort_devices_elem_of in Hx. }
  { by apply allocated_insert. }
  split.
  - constructor; [by exists r0|].
    eapply Forall_impl; [exact IH1|]. intros s' (r' & Hr' & ->).
    exists r'. rewrite sort_devices_elem_of in Hr'.
    by rewrite rank_insert_assign.
  - intros r Hr. specialize (IH2 r Hr).
    rewrite rank_insert_assign in IH2.
    destruct (decide (r = r0)) as [->|Hne].
    + rewrite on_rank_cons_eq by done. simpl. split; [done|].
      by rewrite list_lookup_total_insert_eq in IH2.
    + rewrite on_rank_cons_ne.
      * by rewrite list_lookup_total_insert_ne in IH2.
      * simpl. intros [= Heq]. apply Hne. by apply Hinj.
Qed.

(** ** Effects on the state *)

Lemma map_fmap {A B} (f : A -> B) (l : list A) : map f l = f <$> l.
Proof. done. Qed.

Lemma length_put_shards j ss p : length (put_shards j ss p) = length p.
Proof. apply length_insert. Qed.

Lemma put_shards_lookup_ne j j' ss p : j <> j' -> put_shards j ss p !! j' = p !! j'.
Proof. intros. by apply list_lookup_insert_ne. Qed.

Lemma put_shards_shards j ss p :
  (j < length p)%nat -> shards (put_shards j ss p !!! j) = ss.
Proof. intros. unfold put_shards. by rewrite list_lookup_total_insert_eq. Qed.

Lemma put_shards_reset j ss p :
  map clear_rank ss = map clear_rank (shards (p !!! j)) ->
  reset_shard_rank (put_shards j ss p) = reset_shard_rank p.
Proof.
  intros H. unfold reset_shard_rank, put_shards. rewrite !map_fmap.
  destruct (decide (j < length p)%nat) as [Hlt|Hge].
  - rewrite list_fmap_insert. apply list_insert_id.
    rewrite list_lookup_fmap.
    rewrite (list_lookup_lookup_total_lt p j Hlt). simpl. f_equal.
    unfold reset_option, with_shards. simpl. by rewrite H.
  - by rewrite list_insert_ge by lia.
Qed.

Lemma effect_refl devs M w : effect devs M w w.
Proof. by repeat split. Qed.

Lemma effect_trans devs M w1 w2 w3 :
  effect devs M w1 w2 -> effect devs M w2 w3 -> effect devs M w1 w3.
Proof.
  intros (L1 & F1 & R1 & P1 & Q1 & S1) (L2 & F2 & R2 & P2 & Q2 & S2).
  split_and!.
  - lia.
  - intros r Hr Hn. rewrite F2 by (done || lia). by apply F1.
  - intros r Hr. rewrite R2 by lia. by apply R1.
  - congruence.
  - intros j Hj. rewrite Q2 by done. by apply Q1.
  - congruence.
Qed.

Lemma effect_mono devs devs' M M' w w' :
  (forall r, (r < length (heap_of w))%nat -> r ∈ devs -> r ∈ devs') ->
  M ⊆ M' -> effect devs M w w' -> effect devs' M' w w'.
Proof.
  intros Hd HM (L & F & R & P & Q & S). split_and!; try done.
  - intros r Hr Hn. apply F; [done|]. intros Hin. by apply Hn, Hd.
  - intros j Hj. apply Q. intros Hin. by apply Hj, HM.
Qed.

Lemma effect_rank_inj devs M w w' D :
  effect devs M w w' -> allocated (heap_of w) D ->
  rank_inj (heap_of w) D -> rank_inj (heap_of w') D.
Proof.
  intros (_ & _ & R & _) Hal Hinj r1 r2 H1 H2.
  unfold allocated in Hal. rewrite Forall_forall in Hal.
  rewrite !R by auto. by apply Hinj.
Qed.

Lemma effect_allocated devs M w w' D :
  effect devs M w w' -> allocated (heap_of w) D -> allocated (heap_of w') D.
Proof.
  intros (L & _) Hal. eapply Forall_impl; [exact Hal|]. simpl. lia.
Qed.

Lemma effect_indices_ok devs M w w' N :
  effect devs M w w' -> indices_ok (proposal w) N -> indices_ok (proposal w') N.
Proof. intros (_ & _ & _ & P & _) H. unfold indices_ok. by rewrite P. Qed.

Lemma effect_lookup_total devs M w w' j :
  effect devs M w w' -> j ∉ M -> proposal w' !!! j = proposal w !!! j.
Proof.
  intros (_ & _ & _ & _ & Q & _) Hj.
  by rewrite !list_lookup_total_alt, Q.
Qed.

Lemma effect_heap_lookup_total devs M w w' r :
  effect devs M w w' -> (r < length (heap_of w))%nat -> r ∉ devs ->
  heap_of w' !!! r = heap_of w !!! r.
Proof.
  intros (_ & F & _) Hr Hn. by rewrite !list_lookup_total_alt, F.
Qed.

(** ** [_uniform_partition] and [_device_partition] on the state *)

Lemma uniform_option_effect j devs w :
  effect devs [j] w (state_of (uniform_option j devs w)).
Proof.
  unfold uniform_option. destruct (negb _); [apply effect_refl|].
  pose proof (uniform_shards_frame (shards (proposal w !!! j)) devs (heap_of w))
    as (L & F & R & C).
  destruct (uniform_shards _ _ _) as [[] [ss h]|e [ss h]]; simpl in *;
    (split_and!; simpl;
     [lia|by intros; apply F|by intros; apply R|apply length_put_shards
     |intros j' Hj'; apply put_shards_lookup_ne; set_solver
     |by apply put_shards_reset]).
Qed.

Lemma _uniform_partition_effect sos devs w :
  effect devs sos w (state_of (_uniform_partition sos devs w)).
Proof.
  revert w. induction sos as [|j sos IH]; intros w; simpl; [apply effect_refl|].
  pose proof (uniform_option_effect j devs w) as H.
  destruct (uniform_option j devs w) as [[] w'|e w']; simpl in *.
  - eapply effect_trans.
    + eapply effect_mono; [| |exact H]; [done|].
      intros x ->%list_elem_of_singleton. left.
    + eapply effect_mono; [| |apply IH]; [done|]. intros x Hx. by right.
  - eapply effect_mono; [| |exact H]; [done|].
    intros x ->%list_elem_of_singleton. left.
Qed.

Lemma _device_partition_effect j devs lws w :
  effect devs [j] w (state_of (_device_partition j devs lws w)) /\
  forall devs' w', _device_partition j devs lws w = Ok devs' w' -> devs' ≡ₚ devs.
Proof.
  unfold _device_partition.
  pose proof (device_shards_frame (name (proposal w !!! j)) lws
                (shards (proposal w !!! j)) devs (heap_of w)) as (L & F & R & C & P).
  destruct (device_shards _ _ _ _ _) as [devs2 [ss h]|e [ss h]]; simpl in *.
  - split.
    + split_and!; simpl;
        [lia|by intros; apply F|by intros; apply R|apply length_put_shards
        |intros j' Hj'; apply put_shards_lookup_ne; set_solver
        |by apply put_shards_reset].
    + intros devs' w' [= <- _]. by eapply P.
  - split; [|done].
    split_and!; simpl;
      [lia|by intros; apply F|by intros; apply R|apply length_put_shards
      |intros j' Hj'; apply put_shards_lookup_ne; set_solver
      |by apply put_shards_reset].
Qed.

Lemma assigned_singleton rk p j : assigned rk p [j] = on_rank rk (shards (p !!! j)).
Proof. unfold assigned. simpl. apply app_nil_r. Qed.

Lemma assigned_app rk p M1 M2 :
  assigned rk p (M1 ++ M2) = assigned rk p M1 ++ assigned rk p M2.
Proof. apply flat_map_app. Qed.

Lemma assigned_ext rk p p' M :
  (forall j, j ∈ M -> p' !!! j = p !!! j) -> assigned rk p' M = assigned rk p M.
Proof.
  intros H. unfold assigned. induction M as [|j M IH]; simpl; [done|].
  rewrite H by left. rewrite IH; [done|]. intros j' Hj'. apply H. by right.
Qed.

Lemma commits_rank D M w w' r :
  commits D M w w' -> r ∈ D -> rank (heap_of w' !!! r) = rank (heap_of w !!! r).
Proof. intros H Hr. by eapply booked_rank, H. Qed.

Lemma commits_app D M1 M2 w w1 w2 :
  commits D M1 w w1 -> commits D M2 w1 w2 ->
  (forall j, j ∈ M1 -> proposal w2 !!! j = proposal w1 !!! j) ->
  commits D (M1 ++ M2) w w2.
Proof.
  intros H1 H2 Hp r Hr. rewrite assigned_app.
  apply booked_app with (d1 := heap_of w1 !!! r).
  - rewrite (assigned_ext _ (proposal w1)); [by apply H1|done].
  - rewrite <- (commits_rank _ _ _ _ _ H1 Hr). by apply H2.
Qed.

Lemma commits_skip D M w w1 w2 :
  commits D M w1 w2 ->
  (forall r, r ∈ D -> heap_of w1 !!! r = heap_of w !!! r) ->
  commits D M w w2.
Proof. intros H Hh r Hr. rewrite <- Hh by done. by apply H. Qed.

Lemma Forall2_ranks_within h devs ss :
  Forall2 (fun s r => s_rank s = Some (rank (h !!! r))) ss devs ->
  ranks_within h devs ss.
Proof.
  induction 1 as [|s r ss devs Hs _ IH]; [constructor|].
  constructor.
  - exists r. split; [left|done].
  - eapply Forall_impl; [exact IH|]. intros s' (r' & Hr' & Hs').
    exists r'. split; [by right|done].
Qed.

Lemma uniform_option_commits D j devs w w' :
  uniform_option j devs w = Ok tt w' ->
  (j < length (proposal w))%nat ->
  rank_inj (heap_of w) D -> devs ⊆ D -> allocated (heap_of w) D ->
  commits D [j] w w' /\
  Forall2 (fun s r => s_rank s = Some (rank (heap_of w !!! r)))
    (shards (proposal w' !!! j)) devs.
Proof.
  unfold uniform_option. destruct (negb _) eqn:Hn; [done|].
  apply negb_false_iff, Nat.eqb_eq in Hn.
  destruct (uniform_shards _ _ _) as [[] [ss h]|e [ss h]] eqn:E; [|done].
  intros [= <-] Hj Hinj Hsub Hal. simpl.
  destruct (uniform_shards_booked D _ _ _ _ _ E Hn Hinj Hsub Hal) as [H1 H2].
  rewrite put_shards_shards by done. split; [|done].
  intros r Hr. rewrite assigned_singleton. cbn [heap_of proposal].
  rewrite put_shards_shards by done. by apply H2.
Qed.

Lemma _uniform_partition_commits D sos devs w w' :
  _uniform_partition sos devs w = Ok tt w' ->
  NoDup sos -> indices_ok (proposal w) sos ->
  rank_inj (heap_of w) D -> devs ⊆ D -> allocated (heap_of w) D ->
  commits D sos w w'.
Proof.
  revert w. induction sos as [|j sos IH]; intros w; simpl.
  { intros [= <-] _ _ _ _ _ r Hr. done. }
  pose proof (uniform_option_effect j devs w) as He.
  destruct (uniform_option j devs w) as [[] w1|e w1] eqn:E; [|done].
  simpl in He. intros Hrun [Hj Hnd]%NoDup_cons [Hjlt Hidx]%Forall_cons Hinj Hsub Hal.
  destruct (uniform_option_commits D _ _ _ _ E Hjlt Hinj Hsub Hal) as [Hc _].
  pose proof (_uniform_partition_effect sos devs w1) as He2.
  rewrite Hrun in He2. simpl in He2.
  apply (commits_app D [j] sos w w1 w'); [done| |].
  - apply IH; try done.
    + by eapply effect_indices_ok.
    + by eapply effect_rank_inj.
    + by eapply effect_allocated.
  - intros j' ->%list_elem_of_singleton. by eapply effect_lookup_total.
Qed.

Lemma _device_partition_commits D j devs lws w devs' w' :
  _device_partition j devs lws w = Ok devs' w' ->
  (j < length (proposal w))%nat ->
  rank_inj (heap_of w) D -> devs ⊆ D -> allocated (heap_of w) D ->
  commits D [j] w w' /\
  ranks_within (heap_of w) devs (shards (proposal w' !!! j)).
Proof.
  unfold _device_partition.
  destruct (device_shards _ _ _ _ _) as [devs2 [ss h]|e [ss h]] eqn:E; [|done].
  intros [= <- <-] Hj Hinj Hsub Hal. simpl.
  destruct (device_shards_booked D _ _ _ _ _ _ _ _ E Hinj Hsub Hal) as [H1 H2].
  rewrite put_shards_shards by done. split; [|done].
  intros r Hr. rewrite assigned_singleton. cbn [heap_of proposal].
  rewrite put_shards_shards by done. by apply H2.
Qed.

(** ** [_cohost_partition] *)

Lemma ranked_lookup h devs i1 i2 r1 r2 :
  ranked h devs -> devs !! i1 = Some r1 -> devs !! i2 = Some r2 ->
  (i1 < i2)%nat -> rank (h !!! r1) < rank (h !!! r2).
Proof.
  unfold ranked, ranks_of. revert i1 i2.
  induction devs as [|r devs IH]; intros i1 i2; [done|].
  rewrite fmap_cons. intros [Hs Hall]%StronglySorted_inv H1 H2 Hlt.
  destruct i2 as [|i2]; [lia|]. simpl in H2.
  destruct i1 as [|i1]; simpl in H1.
  - injection H1 as ->. rewrite Forall_forall in Hall. apply Hall.
    apply list_elem_of_fmap. exists r2. split; [done|].
    by eapply list_elem_of_lookup_2.
  - eapply IH; try done. lia.
Qed.

Lemma ranked_rank_inj h devs : ranked h devs -> rank_inj h devs.
Proof.
  intros Hr r1 r2 [i1 H1]%list_elem_of_lookup [i2 H2]%list_elem_of_lookup Heq.
  destruct (Nat.lt_trichotomy i1 i2) as [Hlt|[->|Hlt]].
  - pose proof (ranked_lookup _ _ _ _ _ _ Hr H1 H2 Hlt). lia.
  - congruence.
  - pose proof (ranked_lookup _ _ _ _ _ _ Hr H2 H1 Hlt). lia.
Qed.

Lemma ranked_NoDup h devs : ranked h devs -> NoDup devs.
Proof.
  intros Hr. apply NoDup_alt. intros i1 i2 r H1 H2.
  destruct (Nat.lt_trichotomy i1 i2) as [Hlt|[->|Hlt]]; [|done|].
  - pose proof (ranked_lookup _ _ _ _ _ _ Hr H1 H2 Hlt). lia.
  - pose proof (ranked_lookup _ _ _ _ _ _ Hr H2 H1 Hlt). lia.
Qed.

Lemma ranks_of_ext h h' devs :
  (forall r, r ∈ devs -> rank (h' !!! r) = rank (h !!! r)) ->
  ranks_of h' devs = ranks_of h devs.
Proof.
  intros H. unfold ranks_of. apply list_fmap_ext. intros i r Hr.
  apply H. by eapply list_elem_of_lookup_2.
Qed.

Lemma effect_ranks_of devs M w w' D :
  effect devs M w w' -> allocated (heap_of w) D ->
  ranks_of (heap_of w') D = ranks_of (heap_of w) D.
Proof.
  intros (_ & _ & R & _) Hal. apply ranks_of_ext. intros r Hr.
  apply R. unfold allocated in Hal. rewrite Forall_forall in Hal. auto.
Qed.

Lemma effect_ranked devs M w w' D :
  effect devs M w w' -> allocated (heap_of w) D ->
  ranked (heap_of w) D -> ranked (heap_of w') D.
Proof. intros He Hal. unfold ranked. by rewrite (effect_ranks_of _ _ _ _ _ He Hal). Qed.

(** The copies of a deep copy. *)
Lemma read_copies (h l : list DeviceHardware) :
  (fun r => (h ++ l) !!! r) <$> seq (length h) (length l) = l.
Proof.
  revert h. induction l as [|x l IH]; intros h; [done|].
  simpl. f_equal.
  - by apply list_lookup_total_middle.
  - specialize (IH (h ++ [x])). rewrite <- app_assoc, length_app in IH.
    simpl in IH. by rewrite Nat.add_1_r in IH.
Qed.

Lemma deepcopy_lookup (h : heap) devs i r :
  devs !! i = Some r ->
  (h ++ map (fun r => h !!! r) devs) !!! (length h + i)%nat = h !!! r.
Proof.
  intros Hi. rewrite lookup_total_app_r by lia.
  replace (length h + i - length h)%nat with i by lia.
  rewrite map_fmap. apply list_lookup_total_correct.
  by rewrite list_lookup_fmap, Hi.
Qed.

Lemma deepcopy_ranks_of (h : heap) devs :
  ranks_of (h ++ map (fun r => h !!! r) devs) (seq (length h) (length devs))
  = ranks_of h devs.
Proof.
  unfold ranks_of.
  pose proof (read_copies h (map (fun r => h !!! r) devs)) as H.
  rewrite length_map in H.
  transitivity
    (rank <$> ((fun r => (h ++ map (fun r => h !!! r) devs) !!! r)
                 <$> seq (length h) (length devs))).
  { by rewrite <- list_fmap_compose. }
  rewrite H. symmetry. apply (list_fmap_compose (fun r => h !!! r) rank).
Qed.

Lemma deepcopy_effect devs w :
  effect [] []
    w (mkWorld (heap_of w ++ map (fun r => heap_of w !!! r) devs) (proposal w)).
Proof.
  split_and!; simpl; try done.
  - rewrite length_app. lia.
  - intros r Hr _. by apply lookup_app_l.
  - intros r Hr. by rewrite lookup_total_app_l.
Qed.

Lemma rank_insert_same (h : heap) r d r' :
  rank d = rank (h !!! r) -> rank (<[r := d]> h !!! r') = rank (h !!! r').
Proof.
  intros Hd. rewrite list_lookup_total_insert. case_decide as H; [|done].
  by destruct H as [-> _].
Qed.

Lemma copy_back_frame devs cs (h : heap) :
  length (copy_back devs cs h) = length h /\
  (forall r, r ∉ devs -> copy_back devs cs h !! r = h !! r) /\
  (forall r, rank (copy_back devs cs h !!! r) = rank (h !!! r)).
Proof.
  revert cs h. induction devs as [|r devs IH]; intros [|c cs] h; simpl; try done.
  destruct (IH cs (<[r := mkDevice (rank (h !!! r)) (storage (h !!! c))
                                  (perf (h !!! c))]> h)) as (L & F & R).
  rewrite L, length_insert. split_and!; [done| |].
  - intros r' [Hne Hr']%not_elem_of_cons. rewrite F by done.
    by apply list_lookup_insert_ne.
  - intros r'. rewrite R. by apply rank_insert_same.
Qed.

Lemma copy_back_lookup devs cs (h : heap) i r c :
  NoDup devs -> (forall x, x ∈ devs -> x ∉ cs) -> allocated h devs ->
  devs !! i = Some r -> cs !! i = Some c ->
  copy_back devs cs h !!! r
  = mkDevice (rank (h !!! r)) (storage (h !!! c)) (perf (h !!! c)).
Proof.
  revert cs h i.
  induction devs as [|r0 devs IH]; intros [|c0 cs] h i; simpl; try done.
  intros [Hr0 Hnd]%NoDup_cons Hdisj [Hlt Hal]%Forall_cons Hi Hc.
  destruct i as [|i]; simpl in Hi, Hc.
  - injection Hi as ->. injection Hc as ->.
    destruct (copy_back_frame devs cs
                (<[r := mkDevice (rank (h !!! r)) (storage (h !!! c))
                                 (perf (h !!! c))]> h)) as (_ & F & _).
    rewrite list_lookup_total_alt, F by done.
    by rewrite <- list_lookup_total_alt, list_lookup_total_insert_eq.
  - assert (r <> r0) as Hne.
    { intros ->. apply Hr0. by eapply list_elem_of_lookup_2. }
    assert (c <> r0) as Hne2.
    { intros ->. apply (Hdisj r0); [left|]. right. by eapply list_elem_of_lookup_2. }
    rewrite (IH cs _ i); try done.
    + by rewrite !list_lookup_total_insert_ne.
    + intros x Hx Hin. apply (Hdisj x); by right.
    + by apply allocated_insert.
Qed.

Lemma effect_weaken devs devs' M M' w w' :
  devs ⊆ devs' -> M ⊆ M' -> effect devs M w w' -> effect devs' M' w w'.
Proof. intros Hd. apply effect_mono. intros r _. apply Hd. Qed.

Lemma cohost_options_effect sos hd w :
  effect hd sos w (state_of (cohost_options sos hd w)) /\
  forall hd' w', cohost_options sos hd w = Ok hd' w' -> hd' ≡ₚ hd.
Proof.
  revert hd w. induction sos as [|j sos IH]; intros hd w; cbn [cohost_options].
  { split; [apply effect_refl|]. by intros ?? [= <- _]. }
  assert ([j] ⊆ j :: sos) as Hj by (intros x ->%list_elem_of_singleton; left).
  assert (sos ⊆ j :: sos) as Hs by (intros x Hx; by right).
  destruct (String.eqb _ TABLE_ROW_WISE).
  - pose proof (_uniform_partition_effect [j] hd w) as He.
    destruct (_uniform_partition [j] hd w) as [[] w1|e w1]; simpl in He.
    + destruct (IH hd w1) as [He2 Hp]. split; [|done].
      eapply effect_trans;
        [eapply effect_weaken; [| |exact He]; done
        |eapply effect_weaken; [| |exact He2]; done].
    + split; [|done]. simpl. eapply effect_weaken; [| |exact He]; done.
  - destruct (String.eqb _ TABLE_COLUMN_WISE).
    + pose proof (_device_partition_effect j hd (Z.of_nat (length hd)) w)
        as [He Hp].
      destruct (_device_partition j hd _ w) as [hd1 w1|e w1]; simpl in He.
      * specialize (Hp _ _ eq_refl). destruct (IH hd1 w1) as [He2 Hp2]. split.
        -- eapply effect_trans;
             [eapply effect_weaken; [| |exact He]; done
             |eapply effect_weaken; [| |exact He2]; [|done]].
           intros x Hx. by rewrite <- Hp.
        -- intros hd' w' H. rewrite (Hp2 _ _ H). done.
      * split; [|done]. simpl. eapply effect_weaken; [| |exact He]; done.
    + split; [apply effect_refl|done].
Qed.

Lemma ranks_within_transport h h' devs devs' ss :
  (forall r, r ∈ devs -> r ∈ devs' /\ rank (h' !!! r) = rank (h !!! r)) ->
  ranks_within h devs ss -> ranks_within h' devs' ss.
Proof.
  intros H Hf. eapply Forall_impl; [exact Hf|]. intros s (r & Hr & Hs).
  destruct (H r Hr) as [H1 H2]. exists r. split; [done|]. by rewrite H2.
Qed.

Lemma effect_rank_at devs M w w' D r :
  effect devs M w w' -> allocated (heap_of w) D -> r ∈ D ->
  rank (heap_of w' !!! r) = rank (heap_of w !!! r).
Proof.
  intros (_ & _ & R & _) Hal Hr. apply R.
  unfold allocated in Hal. rewrite Forall_forall in Hal. auto.
Qed.

Lemma allocated_subseteq h D D' : D' ⊆ D -> allocated h D -> allocated h D'.
Proof.
  unfold allocated. rewrite !Forall_forall. intros Hs H r Hr. by apply H, Hs.
Qed.

Lemma cohost_options_commits T sos hd w hd' w' :
  cohost_options sos hd w = Ok hd' w' ->
  NoDup sos -> indices_ok (proposal w) sos ->
  rank_inj (heap_of w) T -> hd ⊆ T -> allocated (heap_of w) T ->
  commits T sos w w' /\
  forall j, j ∈ sos -> ranks_within (heap_of w) hd (shards (proposal w' !!! j)).
Proof.
  revert hd w. induction sos as [|j sos IH]; intros hd w; cbn [cohost_options].
  { intros [= <- <-] _ _ _ _ _. split; [by intros r Hr|]. by intros j Hj%elem_of_nil. }
  intros Hrun [Hj Hnd]%NoDup_cons [Hjlt Hidx]%Forall_cons Hinj Hsub Hal.
  destruct (String.eqb _ TABLE_ROW_WISE).
  - pose proof (_uniform_partition_effect [j] hd w) as He.
    destruct (_uniform_partition [j] hd w) as [[] w1|e w1] eqn:E; [|done].
    simpl in He. simpl in E.
    destruct (uniform_option j hd w) as [[] w1'|e w1'] eqn:E1; [|done].
    injection E as ->.
    destruct (uniform_option_commits T _ _ _ _ E1 Hjlt Hinj Hsub Hal) as [Hc HF].
    pose proof (cohost_options_effect sos hd w1) as [He2 _].
    rewrite Hrun in He2. simpl in He2.
    destruct (IH hd w1 Hrun Hnd) as [Hc2 Hr2]; try done.
    { by eapply effect_indices_ok. }
    { by eapply effect_rank_inj. }
    { by eapply effect_allocated. }
    split.
    + apply (commits_app T [j] sos w w1 w'); [done|done|].
      intros j' ->%list_elem_of_singleton. by eapply effect_lookup_total.
    + intros j' [->|Hj']%elem_of_cons.
      * rewrite (effect_lookup_total _ _ _ _ _ He2 Hj).
        by apply Forall2_ranks_within.
      * eapply ranks_within_transport; [|by apply Hr2].
        intros r Hr. split; [done|]. symmetry.
        eapply effect_rank_at; [exact He|done|by apply Hsub].
  - destruct (String.eqb _ TABLE_COLUMN_WISE); [|done].
    pose proof (_device_partition_effect j hd (Z.of_nat (length hd)) w)
      as [He Hp].
    destruct (_device_partition j hd _ w) as [hd1 w1|e w1] eqn:E; [|done].
    simpl in He. specialize (Hp _ _ eq_refl).
    destruct (_device_partition_commits T _ _ _ _ _ _ E Hjlt Hinj Hsub Hal)
      as [Hc HF].
    pose proof (cohost_options_effect sos hd1 w1) as [He2 _].
    rewrite Hrun in He2. simpl in He2.
    destruct (IH hd1 w1 Hrun Hnd) as [Hc2 Hr2]; try done.
    { by eapply effect_indices_ok. }
    { by eapply effect_rank_inj. }
    { intros x Hx. apply Hsub. by rewrite <- Hp. }
    { by eapply effect_allocated. }
    split.
    + apply (commits_app T [j] sos w w1 w'); [done|done|].
      intros j' ->%list_elem_of_singleton. by eapply effect_lookup_total.
    + intros j' [->|Hj']%elem_of_cons.
      * by rewrite (effect_lookup_total _ _ _ _ _ He2 Hj).
      * eapply ranks_within_transport; [|by apply Hr2].
        intros r Hr. rewrite Hp in Hr. split; [done|]. symmetry.
        eapply effect_rank_at; [exact He|done|by apply Hsub].
Qed.

Lemma effect_fresh T M w w1 w2 :
  effect [] [] w w1 -> effect T M w1 w2 ->
  (forall r, r ∈ T -> (length (heap_of w) <= r)%nat) ->
  effect [] M w w2.
Proof.
  intros H1 H2 Hf.
  eapply (effect_mono T); [|reflexivity|].
  { intros r Hr Hin. apply Hf in Hin. lia. }
  eapply effect_trans; [|exact H2].
  eapply effect_weaken; [| |exact H1]; intros x Hx; by apply elem_of_nil in Hx.
Qed.

Lemma seq_fresh n k r : r ∈ seq n k -> (n <= r)%nat.
Proof. rewrite elem_of_seq. lia. Qed.

Lemma copy_back_effect devs cs w :
  effect devs [] w (mkWorld (copy_back devs cs (heap_of w)) (proposal w)).
Proof.
  destruct (copy_back_frame devs cs (heap_of w)) as (L & F & R).
  split_and!; simpl; try done.
  - lia.
  - intros r _ Hr. by apply F.
Qed.

Lemma cohost_hosts_effect g hosts w :
  effect (concat hosts) (sharding_options g) w (state_of (cohost_hosts g hosts w)).
Proof.
  revert w. induction hosts as [|devs hosts IH]; intros w;
    cbn [cohost_hosts]; [apply effect_refl|].
  unfold host_trial. cbn [deepcopy_devices].
  set (w1 := mkWorld (heap_of w ++ map (fun r => heap_of w !!! r) devs) (proposal w)).
  pose proof (deepcopy_effect devs w) as He1. fold w1 in He1.
  assert (concat hosts ⊆ concat (devs :: hosts)) as Hsub.
  { intros x Hx. simpl. apply elem_of_app. by right. }
  assert (devs ⊆ concat (devs :: hosts)) as Hsub2.
  { intros x Hx. simpl. apply elem_of_app. by left. }
  destruct (negb _).
  { eapply effect_trans; [|eapply effect_weaken; [| |apply IH]; done].
    eapply effect_weaken; [| |exact He1]; intros x Hx; by apply elem_of_nil in Hx. }
  pose proof (cohost_options_effect (sharding_options g)
                (seq (length (heap_of w)) (length devs)) w1) as [He2 _].
  assert (forall w2, effect (seq (length (heap_of w)) (length devs))
                       (sharding_options g) w1 w2 ->
                     effect (concat (devs :: hosts)) (sharding_options g) w w2)
    as Hfresh.
  { intros w2 H. eapply effect_weaken; [| |eapply effect_fresh; [exact He1|exact H|]].
    - intros x Hx; by apply elem_of_nil in Hx.
    - done.
    - apply seq_fresh. }
  destruct (cohost_options _ _ w1) as [hd' w2|e w2]; simpl in He2.
  - simpl. eapply effect_trans; [by apply Hfresh|].
    eapply effect_weaken; [| |apply copy_back_effect]; [done|].
    intros x Hx; by apply elem_of_nil in Hx.
  - destruct e; try (simpl; by apply Hfresh).
    eapply effect_trans; [by apply Hfresh|].
    eapply effect_weaken; [| |apply IH]; done.
Qed.

Lemma ranked_sorted h devs :
  ranked h devs ->
  StronglySorted (fun a b => rank (h !!! a) < rank (h !!! b)) devs.
Proof.
  unfold ranked, ranks_of. induction devs as [|r devs IH]; [constructor|].
  rewrite fmap_cons. intros [Hs Hall]%StronglySorted_inv.
  constructor; [by apply IH|]. by rewrite Forall_fmap in Hall.
Qed.

Lemma StronglySorted_weaken {A} (R1 R2 : A -> A -> Prop) l :
  (forall a b, R1 a b -> R2 a b) -> StronglySorted R1 l -> StronglySorted R2 l.
Proof.
  intros H. induction 1 as [|a l _ IH Ha]; constructor; [done|].
  eapply Forall_impl; [exact Ha|]. apply H.
Qed.

Lemma sort_by_rank_ranked h l T :
  l ≡ₚ T -> ranked h T -> sort_by_rank h l = T.
Proof.
  intros Hp Hr. unfold sort_by_rank.
  apply (StronglySorted_unique_strong
           (fun a b => (rank (h !!! b) <? rank (h !!! a)) = false)).
  - intros x1 x2 Hx1 Hx2 H1%Z.ltb_ge H2%Z.ltb_ge.
    rewrite stable_sort_elem_of, Hp in Hx1.
    apply (ranked_rank_inj _ _ Hr); [done|done|lia].
  - apply stable_sort_sorted.
    + intros x y H%Z.ltb_lt. apply Z.ltb_ge. lia.
    + intros x y z H1%Z.ltb_ge H2%Z.ltb_ge. apply Z.ltb_ge. lia.
  - eapply StronglySorted_weaken; [|by apply ranked_sorted].
    intros a b Hab. simpl in *. apply Z.ltb_ge. lia.
  - by rewrite stable_sort_Permutation.
Qed.

Lemma ranks_within_move h h' devs devs' ss :
  (forall r, r ∈ devs ->
             exists r', r' ∈ devs' /\ rank (h' !!! r') = rank (h !!! r)) ->
  ranks_within h devs ss -> ranks_within h' devs' ss.
Proof.
  intros H Hf. eapply Forall_impl; [exact Hf|]. intros s (r & Hr & Hs).
  destruct (H r Hr) as (r' & H1 & H2). exists r'. split; [done|]. by rewrite H2.
Qed.

Lemma on_rank_nil rk ss :
  Forall (fun s => s_rank s <> Some rk) ss -> on_rank rk ss = [].
Proof.
  induction 1 as [|s ss Hs _ IH]; [done|]. by rewrite on_rank_cons_ne.
Qed.

Lemma assigned_nil h D devs p M r :
  (forall j, j ∈ M -> ranks_within h devs (shards (p !!! j))) ->
  rank_inj h D -> devs ⊆ D -> r ∈ D -> r ∉ devs ->
  assigned (rank (h !!! r)) p M = [].
Proof.
  intros Hw Hinj Hsub Hr Hn. unfold assigned.
  induction M as [|j M IH]; simpl; [done|].
  rewrite IH by (intros j' Hj'; apply Hw; by right).
  rewrite on_rank_nil; [done|].
  eapply Forall_impl; [apply (Hw j); left|].
  intros s (r' & Hr' & Hs). simpl. rewrite Hs. intros [= Heq].
  apply Hn. rewrite (Hinj r r'); auto.
Qed.

Lemma cohost_trial_commits D g devs w hd' w2 :
  cohost_options (sharding_options g) (seq (length (heap_of w)) (length devs))
    (mkWorld (heap_of w ++ map (fun r => heap_of w !!! r) devs) (proposal w))
  = Ok hd' w2 ->
  NoDup (sharding_options g) ->
  indices_ok (proposal w) (sharding_options g) ->
  rank_inj (heap_of w) D -> allocated (heap_of w) D ->
  devs ⊆ D -> ranked (heap_of w) devs ->
  let w' := mkWorld (copy_back devs (sort_by_rank (heap_of w2) hd') (heap_of w2))
              (proposal w2) in
  commits D (sharding_options g) w w' /\
  forall j, j ∈ sharding_options g ->
            ranks_within (heap_of w) devs (shards (proposal w' !!! j)).
Proof.
  set (h := heap_of w). set (T := seq (length h) (length devs)).
  set (h1 := h ++ map (fun r => h !!! r) devs).
  set (w1 := mkWorld h1 (proposal w)).
  intros Hrun Hnd Hidx Hinj Hal Hsub Hrk. cbv zeta.
  assert (ranks_of h1 T = ranks_of h devs) as Hranks by apply deepcopy_ranks_of.
  assert (ranked h1 T) as Hrk1 by (unfold ranked; by rewrite Hranks).
  assert (allocated h1 T) as Hal1.
  { apply Forall_forall. intros r Hr%elem_of_seq. unfold h1.
    rewrite length_app, length_map. lia. }
  assert (allocated h devs) as Hald by (by eapply allocated_subseteq).
  destruct (cohost_options_commits T _ _ _ _ _ Hrun Hnd Hidx
              (ranked_rank_inj _ _ Hrk1)) as [Hc Hw]; [done|done|].
  pose proof (cohost_options_effect (sharding_options g) T w1) as [He Hp].
  rewrite Hrun in He. simpl in He. specialize (Hp _ _ Hrun).
  assert (ranked (heap_of w2) T) as Hrk2 by (by eapply (effect_ranked _ _ w1)).
  rewrite (sort_by_rank_ranked _ _ _ Hp Hrk2).
  set (w' := mkWorld (copy_back devs T (heap_of w2)) (proposal w2)).
  assert (forall i r, devs !! i = Some r ->
            T !! i = Some (length h + i)%nat /\
            h1 !!! (length h + i)%nat = h !!! r /\
            heap_of w' !!! r = heap_of w2 !!! (length h + i)%nat) as Hdev.
  { intros i r Hi.
    assert (T !! i = Some (length h + i)%nat) as HT.
    { apply lookup_seq. split; [done|]. by eapply lookup_lt_Some. }
    assert (h1 !!! (length h + i)%nat = h !!! r) as H1
      by (by apply deepcopy_lookup).
    split_and!; [done|done|]. simpl.
    rewrite (copy_back_lookup devs T (heap_of w2) i r (length h + i)%nat);
      try done.
    - assert (rank (heap_of w2 !!! r) = rank (heap_of w2 !!! (length h + i)%nat))
        as Heq.
      { rewrite (effect_rank_at _ _ _ _ T (length h + i)%nat He Hal1)
          by (by eapply list_elem_of_lookup_2).
        destruct He as (_ & _ & R & _). rewrite R.
        - simpl. rewrite H1. unfold h1. rewrite lookup_total_app_l; [done|].
          unfold allocated in Hald. rewrite Forall_forall in Hald.
          apply Hald. by eapply list_elem_of_lookup_2.
        - simpl. unfold h1. rewrite length_app.
          unfold allocated in Hald. rewrite Forall_forall in Hald.
          assert (r < length h)%nat
            by (apply Hald; by eapply list_elem_of_lookup_2). lia. }
      rewrite Heq. by destruct (heap_of w2 !!! (length h + i)%nat).
    - by eapply ranked_NoDup.
    - intros x Hx Hin%elem_of_seq.
      unfold allocated in Hald. rewrite Forall_forall in Hald.
      specialize (Hald x Hx). lia.
    - eapply allocated_subseteq; [|eapply effect_allocated; [exact He|]]; [done|].
      simpl. eapply Forall_impl; [exact Hal|]. simpl. intros x Hx.
      unfold h1. rewrite length_app. fold h. lia. }
  assert (forall j, j ∈ sharding_options g ->
            ranks_within h devs (shards (proposal w2 !!! j))) as Hw'.
  { intros j Hj. eapply ranks_within_move; [|by apply Hw].
    intros t [i Hi]%list_elem_of_lookup.
    apply lookup_seq in Hi as [-> Hi].
    destruct (lookup_lt_is_Some_2 devs i Hi) as [r Hr].
    exists r. split; [by eapply list_elem_of_lookup_2|].
    destruct (Hdev i r Hr) as (_ & H1 & _). simpl. by rewrite H1. }
  split; [|done].
  intros r Hr. fold h.
  destruct (decide (r ∈ devs)) as [Hin|Hnin].
  - apply list_elem_of_lookup in Hin as [i Hi].
    destruct (Hdev i r Hi) as (HT & H1 & H2).
    rewrite H2, <- H1. apply Hc. by eapply list_elem_of_lookup_2.
  - simpl. rewrite (assigned_nil h D devs); try done.
    simpl. destruct (copy_back_frame devs T (heap_of w2)) as (_ & F & _).
    rewrite list_lookup_total_alt, F by done.
    rewrite <- list_lookup_total_alt.
    assert (r < length h)%nat as Hlt.
    { unfold allocated in Hal. rewrite Forall_forall in Hal. by apply Hal. }
    rewrite (effect_heap_lookup_total _ _ _ _ r He).
    + simpl. unfold h1. by rewrite lookup_total_app_l.
    + simpl. unfold h1. rewrite length_app. lia.
    + intros Hin%elem_of_seq. lia.
Qed.

Lemma cohost_hosts_commits D g hosts w w' :
  cohost_hosts g hosts w = Ok tt w' ->
  NoDup (sharding_options g) ->
  indices_ok (proposal w) (sharding_options g) ->
  rank_inj (heap_of w) D -> allocated (heap_of w) D ->
  Forall (fun devs => devs ⊆ D /\ ranked (heap_of w) devs) hosts ->
  commits D (sharding_options g) w w' /\
  exists devs, devs ∈ hosts /\
    forall j, j ∈ sharding_options g ->
              ranks_within (heap_of w) devs (shards (proposal w' !!! j)).
Proof.
  revert w. induction hosts as [|devs hosts IH]; intros w;
    cbn [cohost_hosts]; [done|].
  unfold host_trial. cbn [deepcopy_devices].
  intros Hrun Hnd Hidx Hinj Hal [[Hsub Hrk] Hhosts]%Forall_cons.
  set (w1 := mkWorld (heap_of w ++ map (fun r => heap_of w !!! r) devs) (proposal w))
    in *.
  pose proof (deepcopy_effect devs w) as He1. fold w1 in He1.
  assert (forall wi, effect [] (sharding_options g) w wi ->
            cohost_hosts g hosts wi = Ok tt w' ->
            commits D (sharding_options g) w w' /\
            exists devs', devs' ∈ devs :: hosts /\
              forall j, j ∈ sharding_options g ->
                ranks_within (heap_of w) devs' (shards (proposal w' !!! j)))
    as Hresume.
  { intros wi He Hi.
    destruct (IH wi Hi Hnd) as [Hc (devs' & Hin & Hw)].
    - by eapply effect_indices_ok.
    - by eapply effect_rank_inj.
    - by eapply effect_allocated.
    - eapply Forall_impl; [exact Hhosts|]. intros l [Hl1 Hl2]. split; [done|].
      eapply effect_ranked; [exact He| |done]. by eapply allocated_subseteq.
    - assert (Forall (fun l => l ⊆ D) hosts) as HsubD.
      { eapply Forall_impl; [exact Hhosts|]. by intros l [? _]. }
      rewrite Forall_forall in HsubD.
      split.
      + eapply commits_skip; [exact Hc|]. intros r Hr.
        eapply effect_heap_lookup_total; [exact He| |by intros ?%elem_of_nil].
        unfold allocated in Hal. rewrite Forall_forall in Hal. by apply Hal.
      + exists devs'. split; [by right|]. intros j Hj.
        eapply ranks_within_transport; [|by apply Hw].
        intros r Hr. split; [done|]. symmetry.
        eapply effect_rank_at; [exact He|exact Hal|]. by apply (HsubD devs'). }
  destruct (negb _).
  { apply (Hresume w1); [|done].
    eapply effect_weaken; [| |exact He1]; [done|].
    intros x Hx; by apply elem_of_nil in Hx. }
  pose proof (cohost_options_effect (sharding_options g)
                (seq (length (heap_of w)) (length devs)) w1) as [He2 _].
  destruct (cohost_options _ _ w1) as [hd' w2|e w2] eqn:E; simpl in He2.
  - injection Hrun as <-.
    destruct (cohost_trial_commits D g devs w hd' w2 E Hnd Hidx Hinj Hal Hsub Hrk)
      as [Hc Hw].
    split; [done|]. exists devs. split; [left|done].
  - destruct e; try done. apply (Hresume w2); [|done].
    eapply effect_fresh; [exact He1|exact He2|apply seq_fresh].
Qed.

(** ** Grouping stage *)

Lemma lookup_total_middle_at (pre : list ShardingOption) so sos :
  (pre ++ so :: sos) !!! length pre = so.
Proof. by apply list_lookup_total_middle. Qed.

Lemma uniform_from_spec p pre sos :
  p = pre ++ sos ->
  uniform_from (length pre) sos
  = filter (fun j => partition_by (p !!! j) = UNIFORM)
      (seq (length pre) (length sos)).
Proof.
  revert pre. induction sos as [|so sos IH]; intros pre Hp; [done|].
  simpl. rewrite filter_cons.
  assert (p !!! length pre = so) as Hso by (subst; apply lookup_total_middle_at).
  specialize (IH (pre ++ [so])). rewrite length_app, Nat.add_1_r in IH.
  rewrite <- IH by (by rewrite <- app_assoc).
  rewrite Hso. destruct (String.eqb_spec (partition_by so) UNIFORM) as [H|H].
  - by rewrite decide_True.
  - by rewrite decide_False.
Qed.

Lemma members_app gs1 gs2 : members (gs1 ++ gs2) = members gs1 ++ members gs2.
Proof. unfold members. by rewrite map_app, concat_app. Qed.

Lemma members_cons g gs : members (g :: gs) = sharding_options g ++ members gs.
Proof. done. Qed.

Lemma members_Permutation gs1 gs2 : gs1 ≡ₚ gs2 -> members gs1 ≡ₚ members gs2.
Proof.
  induction 1 as [|g gs1 gs2 _ IH|g1 g2 gs|gs1 gs2 gs3 _ IH1 _ IH2].
  - done.
  - rewrite !members_cons. by rewrite IH.
  - rewrite !members_cons, !app_assoc. f_equiv. apply Permutation_app_comm.
  - by rewrite IH1.
Qed.

Lemma group_add_members k j ts d :
  members (map snd (group_add k j ts d)) ≡ₚ members (map snd d) ++ [j].
Proof.
  induction d as [|[k' g] d IH]; simpl; [done|].
  destruct (String.eqb k' k); simpl; rewrite !members_cons; simpl.
  - rewrite <- !app_assoc. f_equiv. apply Permutation_app_comm.
  - rewrite IH. by rewrite app_assoc.
Qed.

Lemma group_from_members p pre sos d :
  p = pre ++ sos ->
  members (map snd (group_from (length pre) sos d))
  ≡ₚ members (map snd d)
     ++ filter (fun j => partition_by (p !!! j) <> UNIFORM)
          (seq (length pre) (length sos)).
Proof.
  revert pre d. induction sos as [|so sos IH]; intros pre d Hp.
  { simpl. by rewrite app_nil_r. }
  simpl. rewrite filter_cons.
  assert (p !!! length pre = so) as Hso by (subst; apply lookup_total_middle_at).
  assert (forall d', members (map snd (group_from (S (length pre)) sos d'))
            ≡ₚ members (map snd d')
               ++ filter (fun j => partition_by (p !!! j) <> UNIFORM)
                    (seq (S (length pre)) (length sos))) as IH'.
  { intros d'. specialize (IH (pre ++ [so]) d').
    rewrite length_app, Nat.add_1_r in IH. apply IH. by rewrite <- app_assoc. }
  rewrite Hso. destruct (String.eqb_spec (partition_by so) UNIFORM) as [H|H].
  - rewrite decide_False by (by intros ?). apply IH'.
  - rewrite decide_True by done. rewrite IH', group_add_members.
    by rewrite <- app_assoc.
Qed.

Lemma sort_groups_Permutation gs : sort_groups gs ≡ₚ gs.
Proof. apply stable_sort_Permutation. Qed.

Lemma grouping_members p :
  members (_group_and_sort_non_uniform_sharding_options p) ≡ₚ non_uniform p.
Proof.
  unfold _group_and_sort_non_uniform_sharding_options.
  rewrite (members_Permutation _ _ (sort_groups_Permutation _)).
  by rewrite (group_from_members p [] p []).
Qed.

Lemma grouping_covers p :
  _get_uniform_sharding_options p
    ++ members (_group_and_sort_non_uniform_sharding_options p)
  ≡ₚ seq 0 (length p).
Proof.
  rewrite grouping_members. unfold _get_uniform_sharding_options, non_uniform.
  pose proof (uniform_from_spec p [] p eq_refl) as H. simpl in H. rewrite H.
  apply filter_app_complement.
Qed.

(** *** The dictionary of groups *)

Lemma filter_none {A} (P : A -> Prop) `{!forall x, Decision (P x)} (l : list A) :
  Forall (fun x => ~ P x) l -> filter P l = [].
Proof.
  induction 1 as [|x l Hx _ IH]; [done|]. by rewrite filter_cons_False.
Qed.

Lemma filter_keyed_S p k j :
  filter (keyed p k) (seq 0 (S j))
  = filter (keyed p k) (seq 0 j) ++ (if decide (keyed p k j) then [j] else []).
Proof.
  rewrite seq_S, filter_app. by f_equal.
Qed.

Lemma sum_storage_snoc l x :
  sum_storage (l ++ [x]) = storage_add (sum_storage l) x.
Proof.
  induction l as [|y l IH]; simpl.
  - unfold storage_add. simpl. f_equal; lia.
  - rewrite IH. unfold storage_add. simpl. f_equal; lia.
Qed.

Lemma group_ok_skip p j k g :
  ~ keyed p k j -> group_ok p j (k, g) -> group_ok p (S j) (k, g).
Proof.
  intros Hn (H1 & H2 & H3). split_and!; try done. cbn [fst snd] in *.
  rewrite filter_keyed_S, decide_False by done. by rewrite app_nil_r.
Qed.

Lemma group_ok_extend p j k g :
  keyed p k j -> group_ok p j (k, g) ->
  group_ok p (S j)
    (k, mkGroup (sharding_options g ++ [j])
          (storage_add (storage_sum g) (total_storage (p !!! j)))).
Proof.
  intros Hk (H1 & H2 & H3). cbn [fst snd] in *.
  split_and!; cbn [fst snd sharding_options storage_sum].
  - rewrite filter_keyed_S, decide_True by done. by rewrite H1.
  - by destruct (sharding_options g).
  - unfold sum_total_storage. rewrite fmap_app.
    change ((fun m => total_storage (p !!! m)) <$> [j])
      with [total_storage (p !!! j)].
    rewrite sum_storage_snoc. by rewrite H3.
Qed.

Lemma group_ok_new p j k :
  keyed p k j -> filter (keyed p k) (seq 0 j) = [] ->
  group_ok p (S j) (k, mkGroup [j] (total_storage (p !!! j))).
Proof.
  intros Hk Hnil. split_and!; cbn [fst snd sharding_options storage_sum].
  - by rewrite filter_keyed_S, decide_True, Hnil.
  - done.
  - unfold sum_total_storage, sum_storage, storage_add. simpl.
    destruct (total_storage (p !!! j)). simpl. f_equal; lia.
Qed.

Lemma group_ok_first_lt p j k g : group_ok p j (k, g) -> (first_of g < j)%nat.
Proof.
  intros (H1 & H2 & _). cbn [fst snd] in *. unfold first_of.
  destruct (sharding_options g) as [|m ms] eqn:E; [done|]. simpl.
  assert (m ∈ filter (keyed p k) (seq 0 j)) as Hm by (rewrite <- H1; left).
  apply list_elem_of_filter in Hm as [_ Hm%elem_of_seq]. lia.
Qed.

Lemma group_add_in k j ts (d : groups_dict) :
  k ∈ d.*1 ->
  exists d1 g d2,
    d = d1 ++ (k, g) :: d2 /\ (k ∉ d1.*1) /\
    group_add k j ts d
    = d1 ++ (k, mkGroup (sharding_options g ++ [j])
                  (storage_add (storage_sum g) ts)) :: d2.
Proof.
  induction d as [|[k' g'] d IH]; simpl; [by intros ?%elem_of_nil|].
  destruct (String.eqb_spec k' k) as [->|Hne].
  - intros _. exists [], g', d. split_and!; try done. by intros ?%elem_of_nil.
  - intros [?|Hin]%elem_of_cons; [done|].
    destruct (IH Hin) as (d1 & g & d2 & -> & Hn & ->).
    exists ((k', g') :: d1), g, d2. split_and!; try done.
    simpl. by intros [?|?]%elem_of_cons.
Qed.

Lemma group_add_notin k j ts (d : groups_dict) :
  k ∉ d.*1 -> group_add k j ts d = d ++ [(k, mkGroup [j] ts)].
Proof.
  induction d as [|[k' g'] d IH]; simpl; [done|].
  intros [Hne Hn]%not_elem_of_cons.
  destruct (String.eqb_spec k' k) as [->|_]; [done|]. by rewrite IH.
Qed.

Lemma dict_ok_uniform p j d :
  dict_ok p j d -> partition_by (p !!! j) = UNIFORM -> dict_ok p (S j) d.
Proof.
  intros (Ha & Hb & Hc & Hd) Hu. split_and!; try done.
  - eapply Forall_impl; [exact Ha|]. intros [k g]. apply group_ok_skip.
    by intros [? _].
  - intros m Hm Hnu. apply Hc; [|done].
    destruct (decide (m = j)) as [->|]; [done|lia].
Qed.

Lemma dict_ok_add p j d :
  dict_ok p j d -> partition_by (p !!! j) <> UNIFORM ->
  dict_ok p (S j)
    (group_add (group_key (p !!! j)) j (total_storage (p !!! j)) d).
Proof.
  intros (Ha & Hb & Hc & Hd) Hnu.
  set (k := group_key (p !!! j)).
  assert (keyed p k j) as Hkj by done.
  assert (forall k' g', k' <> k -> group_ok p j (k', g') -> group_ok p (S j) (k', g'))
    as Hother.
  { intros k' g' Hne. apply group_ok_skip. intros [_ ?]. by apply Hne. }
  destruct (decide (k ∈ d.*1)) as [Hin|Hnin].
  - destruct (group_add_in k j (total_storage (p !!! j)) d Hin)
      as (d1 & g & d2 & -> & Hn1 & ->).
    rewrite fmap_app, fmap_cons in Hb. simpl in Hb.
    apply NoDup_app in Hb as (Hb1 & Hb2 & [Hb3 Hb4]%NoDup_cons).
    apply Forall_app in Ha as [Ha1 [Ha2 Ha3]%Forall_cons].
    split_and!.
    + apply Forall_app. split; [|constructor].
      * rewrite Forall_forall in Ha1 |- *. intros [k' g'] Hkg.
        apply Hother; [|by apply Ha1]. intros ->. apply Hn1.
        apply list_elem_of_fmap. by exists (k, g').
      * by apply group_ok_extend.
      * rewrite Forall_forall in Ha3 |- *. intros [k' g'] Hkg.
        apply Hother; [|by apply Ha3]. intros ->. apply Hb3.
        apply list_elem_of_fmap. by exists (k, g').
    + rewrite fmap_app, fmap_cons. simpl. apply NoDup_app. split_and!; try done.
      by apply NoDup_cons.
    + intros m Hm Hm'. rewrite fmap_app, fmap_cons. simpl.
      destruct (decide (m = j)) as [->|Hne].
      * apply elem_of_app. right. left.
      * specialize (Hc m). rewrite fmap_app, fmap_cons in Hc. apply Hc; [lia|done].
    + rewrite fmap_app, fmap_cons in Hd |- *. simpl in *.
      destruct Ha2 as (_ & Hne & _). simpl in Hne.
      unfold first_of in *. simpl. by destruct (sharding_options g).
  - rewrite group_add_notin by done.
    assert (filter (keyed p k) (seq 0 j) = []) as Hnil.
    { apply filter_none. apply Forall_forall.
      intros m Hm%elem_of_seq [Hm1 Hm2]. apply Hnin. rewrite <- Hm2.
      apply Hc; [lia|done]. }
    split_and!.
    + apply Forall_app. split.
      * rewrite Forall_forall in Ha |- *. intros [k' g'] Hkg.
        apply Hother; [|by apply Ha]. intros ->. apply Hnin.
        apply list_elem_of_fmap. by exists (k, g').
      * constructor; [|constructor]. by apply group_ok_new.
    + rewrite fmap_app. simpl. apply NoDup_app. split_and!; try done.
      * intros x Hx ->%list_elem_of_singleton. done.
      * apply NoDup_singleton.
    + intros m Hm Hm'. rewrite fmap_app. simpl.
      destruct (decide (m = j)) as [->|Hne].
      * apply elem_of_app. right. left.
      * apply elem_of_app. left. apply Hc; [lia|done].
    + rewrite fmap_app. simpl. apply StronglySorted_app_2; [|done|].
      * intros x1 x2 Hx1 ->%list_elem_of_singleton. simpl. unfold first_of at 1.
        simpl. apply list_elem_of_fmap in Hx1 as ([k' g'] & -> & Hkg).
        rewrite Forall_forall in Ha. by apply (group_ok_first_lt p j k'), Ha.
      * repeat constructor.
Qed.

Lemma group_from_ok p pre sos d :
  p = pre ++ sos -> dict_ok p (length pre) d ->
  dict_ok p (length p) (group_from (length pre) sos d).
Proof.
  revert pre d. induction sos as [|so sos IH]; intros pre d Hp Hd.
  { simpl. subst. by rewrite app_nil_r in *. }
  simpl.
  assert (p !!! length pre = so) as Hso by (subst; apply lookup_total_middle_at).
  assert (forall d', dict_ok p (S (length pre)) d' ->
            dict_ok p (length p) (group_from (S (length pre)) sos d')) as IH'.
  { intros d' Hd'. specialize (IH (pre ++ [so]) d').
    rewrite length_app, Nat.add_1_r in IH. apply IH; [|done].
    by rewrite <- app_assoc. }
  destruct (String.eqb_spec (partition_by so) UNIFORM) as [H|H].
  - apply IH'. apply dict_ok_uniform; [done|]. by rewrite Hso.
  - apply IH'. rewrite <- Hso. apply dict_ok_add; [done|]. by rewrite Hso.
Qed.

Lemma group_from_dict_ok p : dict_ok p (length p) (group_from 0 p []).
Proof.
  apply (group_from_ok p [] p []); [done|].
  split_and!; simpl; try constructor. intros m Hm. lia.
Qed.

(** *** Order of the groups *)

Lemma storage_ltb_spec a b :
  storage_ltb a b = true <->
  hbm a < hbm b \/ (hbm a = hbm b /\ ddr a < ddr b).
Proof.
  unfold storage_ltb.
  rewrite orb_true_iff, andb_true_iff, !Z.ltb_lt, Z.eqb_eq. done.
Qed.

Lemma storage_ltb_false a b :
  storage_ltb a b = false <->
  hbm b < hbm a \/ (hbm a = hbm b /\ ddr b <= ddr a).
Proof.
  rewrite <- not_true_iff_false, storage_ltb_spec. lia.
Qed.

Lemma sublist_filter_mono {A} (P : A -> Prop) `{!forall x, Decision (P x)}
    (l1 l2 : list A) :
  l1 `sublist_of` l2 -> filter P l1 `sublist_of` filter P l2.
Proof.
  induction 1 as [|x l1 l2 _ IH|x l1 l2 _ IH]; [done| |].
  - rewrite !filter_cons. destruct (decide (P x)); [by constructor|done].
  - rewrite filter_cons. destruct (decide (P x)); [by constructor|done].
Qed.

Lemma StronglySorted_sublist {A} (R : A -> A -> Prop) (l1 l2 : list A) :
  l1 `sublist_of` l2 -> StronglySorted R l2 -> StronglySorted R l1.
Proof.
  induction 1 as [|x l1 l2 Hs IH|x l1 l2 Hs IH]; [done| |].
  - intros [H1 H2]%StronglySorted_inv. constructor; [by apply IH|].
    rewrite Forall_forall in H2 |- *. intros y Hy. apply H2.
    by eapply sublist_subseteq.
  - intros [H1 H2]%StronglySorted_inv. by apply IH.
Qed.

Lemma sort_groups_ties gs g1 g2 :
  [g1; g2] `sublist_of` sort_groups gs -> storage_sum g1 = storage_sum g2 ->
  [g1; g2] `sublist_of` gs.
Proof.
  intros Hs Heq. unfold sort_groups in Hs.
  set (lt := fun y x : ShardingOptionGroup =>
               storage_ltb (storage_sum x) (storage_sum y)) in *.
  assert (forall a, storage_ltb a a = false) as Hirr.
  { intros a. apply storage_ltb_false. lia. }
  assert (tied lt g1 g1 = true) as T1.
  { unfold tied, lt. by rewrite Hirr. }
  assert (tied lt g1 g2 = true) as T2.
  { unfold tied, lt. by rewrite Heq, Hirr. }
  apply (sublist_filter_mono (fun y => tied lt g1 y = true)) in Hs.
  rewrite !filter_cons, decide_True, decide_True in Hs by done.
  rewrite filter_nil in Hs.
  rewrite stable_sort_tied in Hs.
  - etransitivity; [exact Hs|]. apply sublist_filter.
  - intros x y z. unfold lt. rewrite !storage_ltb_false. lia.
Qed.

(** C7 (grouping stage).  [_group_and_sort_non_uniform_sharding_options]
    puts exactly the non-uniform options into groups, each once; a group holds
    all the non-uniform options of one grouping key, in the order of the
    proposal, and carries the sum of their storage; the grouping key is the
    dependency when there is one (a non-empty string) and the [fqn]
    otherwise; the groups come out by descending storage sum, and two groups
    of equal sum in the order in which their first options occur in the
    proposal, which is the insertion order of the dictionary: the sort is
    stable. *)
Theorem grouping_stage p :
  let out := _group_and_sort_non_uniform_sharding_options p in
  members out ≡ₚ non_uniform p /\
  (forall g, g ∈ out ->
     exists k,
       sharding_options g = filter (keyed p k) (seq 0 (length p)) /\
       sharding_options g <> [] /\
       storage_sum g = sum_total_storage p (sharding_options g)) /\
  (forall so d, dependency so = Some d -> d <> EmptyString -> group_key so = d) /\
  (forall so, dependency so = None \/ dependency so = Some EmptyString ->
              group_key so = fqn so) /\
  StronglySorted
    (fun g1 g2 => storage_ltb (storage_sum g1) (storage_sum g2) = false) out /\
  (forall g1 g2,
     [g1; g2] `sublist_of` out -> storage_sum g1 = storage_sum g2 ->
     (first_of g1 < first_of g2)%nat).
Proof.
  cbv zeta. pose proof (group_from_dict_ok p) as (Ha & Hb & Hc & Hd).
  split_and!.
  - apply grouping_members.
  - intros g Hg. unfold _group_and_sort_non_uniform_sharding_options in Hg.
    rewrite sort_groups_Permutation, map_fmap in Hg.
    apply list_elem_of_fmap in Hg as ([k g'] & -> & Hkg).
    rewrite Forall_forall in Ha. exists k. by apply (Ha (k, g')).
  - intros so d Hso Hd'. unfold group_key. rewrite Hso.
    by destruct (String.eqb_spec d EmptyString).
  - intros so [Hso|Hso]; unfold group_key; by rewrite Hso.
  - unfold _group_and_sort_non_uniform_sharding_options, sort_groups.
    apply (stable_sort_sorted
             (fun y x => storage_ltb (storage_sum x) (storage_sum y))).
    + intros x y. rewrite storage_ltb_spec, storage_ltb_false. lia.
    + intros x y z. rewrite !storage_ltb_false. lia.
  - intros g1 g2 Hs Heq.
    apply sort_groups_ties in Hs; [|done].
    rewrite map_fmap in Hs.
    apply (fmap_sublist first_of) in Hs. simpl in Hs.
    rewrite <- list_fmap_compose in Hs.
    apply (StronglySorted_sublist _ _ _ Hs) in Hd.
    apply StronglySorted_inv in Hd as [_ Hd].
    by apply Forall_cons in Hd as [Hd _].
Qed.

(** ** The orchestrator *)

Lemma same_shape_lookup p p' j :
  reset_shard_rank p' = reset_shard_rank p ->
  reset_option (p' !!! j) = reset_option (p !!! j).
Proof.
  unfold reset_shard_rank. rewrite !map_fmap. intros H.
  assert (length p' = length p) as Hlen.
  { by rewrite <- (length_fmap reset_option p'), H, length_fmap. }
  destruct (decide (j < length p)%nat) as [Hlt|Hge].
  - assert ((reset_option <$> p') !! j = (reset_option <$> p) !! j) as Hj
      by (by rewrite H).
    rewrite !list_lookup_fmap in Hj.
    destruct (lookup_lt_is_Some_2 p j Hlt) as [x Hx].
    destruct (lookup_lt_is_Some_2 p' j) as [x' Hx']; [lia|].
    rewrite Hx, Hx' in Hj.
    rewrite (list_lookup_total_correct _ _ _ Hx),
      (list_lookup_total_correct _ _ _ Hx').
    change (Some (reset_option x') = Some (reset_option x)) in Hj. congruence.
  - rewrite !list_lookup_total_alt, !lookup_ge_None_2 by lia. done.
Qed.

Lemma same_shape_fields p p' j :
  reset_shard_rank p' = reset_shard_rank p ->
  partition_by (p' !!! j) = partition_by (p !!! j) /\
  sharding_type (p' !!! j) = sharding_type (p !!! j) /\
  num_shards (p' !!! j) = num_shards (p !!! j) /\
  name (p' !!! j) = name (p !!! j).
Proof.
  intros H%(same_shape_lookup _ _ j). unfold reset_option, with_shards in H.
  injection H as H1 H2 H3 H4 H5 H6. split_and!; try done.
  unfold num_shards. by rewrite <- (length_map clear_rank), H6, length_map.
Qed.

Lemma effect_partition_by devs M w w' j :
  effect devs M w w' ->
  partition_by (proposal w' !!! j) = partition_by (proposal w !!! j).
Proof. intros (_ & _ & _ & _ & _ & S). by apply same_shape_fields. Qed.

Lemma elem_of_concat {A} (x : A) (ls : list (list A)) :
  x ∈ concat ls <-> exists l, l ∈ ls /\ x ∈ l.
Proof.
  induction ls as [|l0 ls IH]; simpl.
  - split; [by intros ?%elem_of_nil|]. by intros (l & ?%elem_of_nil & _).
  - rewrite elem_of_app, IH. split.
    + intros [H|(l & Hl & Hx)]; [exists l0; split; [left|done]|].
      exists l. split; [by right|done].
    + intros (l & [->|Hl]%elem_of_cons & Hx); [by left|].
      right. by exists l.
Qed.

Lemma _sort_devices_by_perf_Permutation h hosts :
  _sort_devices_by_perf h hosts ≡ₚ hosts.
Proof. apply stable_sort_Permutation. Qed.

Lemma _cohost_partition_effect g hosts w :
  effect (concat hosts) (sharding_options g) w
    (state_of (_cohost_partition g hosts w)).
Proof.
  unfold _cohost_partition.
  eapply effect_weaken; [| |apply cohost_hosts_effect]; [|done].
  intros r (l & Hl & Hr)%elem_of_concat. apply elem_of_concat.
  exists l. split; [|done]. by rewrite _sort_devices_by_perf_Permutation in Hl.
Qed.

Lemma _cohost_partition_commits D g hosts w w' :
  _cohost_partition g hosts w = Ok tt w' ->
  NoDup (sharding_options g) ->
  indices_ok (proposal w) (sharding_options g) ->
  rank_inj (heap_of w) D -> allocated (heap_of w) D ->
  Forall (fun devs => devs ⊆ D /\ ranked (heap_of w) devs) hosts ->
  commits D (sharding_options g) w w' /\
  exists devs, devs ∈ hosts /\
    forall j, j ∈ sharding_options g ->
              ranks_within (heap_of w) devs (shards (proposal w' !!! j)).
Proof.
  unfold _cohost_partition. intros Hrun Hnd Hidx Hinj Hal Hhosts.
  destruct (cohost_hosts_commits D g _ w w' Hrun Hnd Hidx Hinj Hal)
    as [Hc (devs & Hin & Hw)].
  { by rewrite _sort_devices_by_perf_Permutation. }
  split; [done|]. exists devs. split; [|done].
  by rewrite _sort_devices_by_perf_Permutation in Hin.
Qed.

Lemma concat_subseteq (hosts : list (list ref)) D :
  Forall (fun devs => devs ⊆ D) hosts -> concat hosts ⊆ D.
Proof.
  intros H r (l & Hl & Hr)%elem_of_concat.
  rewrite Forall_forall in H. by apply (H l).
Qed.

Lemma partition_groups_effect D groups hosts sd lws w :
  sd ⊆ D -> concat hosts ⊆ D ->
  effect D (members groups) w (state_of (partition_groups groups hosts sd lws w)) /\
  forall sd' w', partition_groups groups hosts sd lws w = Ok sd' w' -> sd' ≡ₚ sd.
Proof.
  intros Hsd Hhosts. revert sd w Hsd.
  induction groups as [|g groups IH]; intros sd w Hsd; cbn [partition_groups].
  { split; [apply effect_refl|]. by intros ?? [= <- _]. }
  rewrite members_cons.
  assert (sharding_options g ⊆ sharding_options g ++ members groups) as H1
    by (intros x Hx; apply elem_of_app; by left).
  assert (members groups ⊆ sharding_options g ++ members groups) as H2
    by (intros x Hx; apply elem_of_app; by right).
  destruct (sharding_options g) as [|j0 rest] eqn:Eg; [split; [apply effect_refl|done]|].
  destruct (String.eqb _ HOST).
  - pose proof (_cohost_partition_effect g hosts w) as He. rewrite Eg in He.
    destruct (_cohost_partition g hosts w) as [[] w1|e w1]; simpl in He.
    + destruct (IH sd w1 Hsd) as [He2 Hp]. split; [|done].
      eapply effect_trans;
        [eapply effect_weaken; [| |exact He]; done
        |eapply effect_weaken; [| |exact He2]; done].
    + split; [|done]. simpl. eapply effect_weaken; [| |exact He]; done.
  - destruct (String.eqb _ DEVICE); [|split; [apply effect_refl|done]].
    destruct (negb _); [split; [apply effect_refl|done]|].
    pose proof (_device_partition_effect j0 sd lws w) as [He Hp].
    assert ([j0] ⊆ (j0 :: rest) ++ members groups) as H3
      by (intros x ->%list_elem_of_singleton; left).
    destruct (_device_partition j0 sd lws w) as [sd1 w1|e w1]; simpl in He.
    + specialize (Hp _ _ eq_refl).
      destruct (IH sd1 w1) as [He2 Hp2]; [intros x Hx; apply Hsd; by rewrite <- Hp|].
      split.
      * eapply effect_trans;
          [eapply effect_weaken; [| |exact He]; done
          |eapply effect_weaken; [| |exact He2]; done].
      * intros sd' w' H. by rewrite (Hp2 _ _ H).
    + split; [|done]. simpl. eapply effect_weaken; [| |exact He]; done.
Qed.

Lemma dispatched_transport hosts D devs0 M w w1 w' g :
  effect devs0 M w w1 -> allocated (heap_of w) D ->
  Forall (fun devs => devs ⊆ D) hosts ->
  dispatched hosts w1 w' g -> dispatched hosts w w' g.
Proof.
  intros He Hal Hh (j0 & rest & Hg & Hd). exists j0, rest. split; [done|].
  rewrite (effect_partition_by _ _ _ _ j0 He) in Hd.
  destruct Hd as [[Hp (devs & Hin & Hw)]|Hd]; [left|by right].
  split; [done|]. exists devs. split; [done|]. intros j Hj.
  eapply ranks_within_transport; [|by apply Hw].
  intros r Hr. split; [done|]. symmetry.
  eapply effect_rank_at; [exact He|exact Hal|].
  rewrite Forall_forall in Hh. by apply (Hh devs).
Qed.

Lemma hosts_transport devs0 M w w1 D hosts :
  effect devs0 M w w1 -> allocated (heap_of w) D ->
  Forall (fun devs => devs ⊆ D /\ ranked (heap_of w) devs) hosts ->
  Forall (fun devs => devs ⊆ D /\ ranked (heap_of w1) devs) hosts.
Proof.
  intros He Hal Hh. eapply Forall_impl; [exact Hh|]. intros l [Hl1 Hl2].
  split; [done|]. eapply effect_ranked; [exact He| |done].
  by eapply allocated_subseteq.
Qed.

Lemma partition_groups_commits D groups hosts sd lws w sd' w' :
  partition_groups groups hosts sd lws w = Ok sd' w' ->
  NoDup (members groups) -> indices_ok (proposal w) (members groups) ->
  rank_inj (heap_of w) D -> allocated (heap_of w) D -> sd ⊆ D ->
  Forall (fun devs => devs ⊆ D /\ ranked (heap_of w) devs) hosts ->
  commits D (members groups) w w' /\ Forall (dispatched hosts w w') groups.
Proof.
  revert sd w. induction groups as [|g groups IH]; intros sd w;
    cbn [partition_groups].
  { intros [= <- <-] _ _ _ _ _ _. split; [by intros r Hr|constructor]. }
  rewrite members_cons.
  intros Hrun [Hnd1 [Hdisj Hnd2]]%NoDup_app [Hidx1 Hidx2]%Forall_app
    Hinj Hal Hsd Hhosts.
  assert (Forall (fun devs => devs ⊆ D) hosts) as HhD.
  { eapply Forall_impl; [exact Hhosts|]. by intros l [? _]. }
  pose proof (concat_subseteq _ _ HhD) as Hcat.
  destruct (sharding_options g) as [|j0 rest] eqn:Eg; [done|].
  destruct (String.eqb_spec (partition_by (proposal w !!! j0)) HOST) as [Hhost|Hnh].
  - pose proof (_cohost_partition_effect g hosts w) as He.
    destruct (_cohost_partition g hosts w) as [[] w1|e w1] eqn:E; [|done].
    simpl in He.
    destruct (_cohost_partition_commits D g hosts w w1 E) as [Hc (devs & Hin & Hw)];
      try done; try (by rewrite Eg).
    pose proof (partition_groups_effect D groups hosts sd lws w1 Hsd Hcat)
      as [He2 _].
    rewrite Hrun in He2. simpl in He2.
    destruct (IH sd w1 Hrun Hnd2) as [Hc2 Hd2]; try done.
    { by eapply effect_indices_ok. }
    { by eapply effect_rank_inj. }
    { by eapply effect_allocated. }
    { by eapply hosts_transport. }
    rewrite Eg in Hc, Hw.
    assert (forall j, j ∈ j0 :: rest -> proposal w' !!! j = proposal w1 !!! j) as Hsame.
    { intros j Hj. eapply effect_lookup_total; [exact He2|]. by apply Hdisj. }
    split; [by apply (commits_app D _ _ w w1 w')|].
    constructor.
    + exists j0, rest. split; [done|]. left. split; [done|].
      exists devs. split; [done|]. rewrite Eg. intros j Hj.
      rewrite Hsame by done. by apply Hw.
    + eapply Forall_impl; [exact Hd2|]. intros g'.
      by eapply dispatched_transport.
  - destruct (String.eqb_spec (partition_by (proposal w !!! j0)) DEVICE)
      as [Hdev|Hnd]; [|done].
    destruct (negb _) eqn:Hlen; [done|].
    apply negb_false_iff, Nat.eqb_eq in Hlen.
    assert (rest = []) as -> by (by destruct rest).
    pose proof (_device_partition_effect j0 sd lws w) as [He Hp].
    destruct (_device_partition j0 sd lws w) as [sd1 w1|e w1] eqn:E; [|done].
    simpl in He. specialize (Hp _ _ eq_refl).
    assert (j0 < length (proposal w))%nat as Hj0 by (by inversion Hidx1).
    destruct (_device_partition_commits D _ _ _ _ _ _ E Hj0 Hinj Hsd Hal)
      as [Hc _].
    assert (sd1 ⊆ D) as Hsd1 by (intros x Hx; apply Hsd; by rewrite <- Hp).
    pose proof (partition_groups_effect D groups hosts sd1 lws w1 Hsd1 Hcat)
      as [He2 _].
    rewrite Hrun in He2. simpl in He2.
    destruct (IH sd1 w1 Hrun Hnd2) as [Hc2 Hd2]; try done.
    { by eapply effect_indices_ok. }
    { by eapply effect_rank_inj. }
    { by eapply effect_allocated. }
    { by eapply hosts_transport. }
    split.
    + apply (commits_app D _ _ w w1 w'); [done|done|].
      intros j Hj. eapply effect_lookup_total; [exact He2|]. by apply Hdisj.
    + constructor.
      * exists j0, []. split; [done|]. by right.
      * eapply Forall_impl; [exact Hd2|]. intros g'.
        by eapply dispatched_transport.
Qed.

(** The grouping stage reads nothing a packer writes. *)
Lemma reset_option_fields so :
  partition_by (reset_option so) = partition_by so /\
  group_key (reset_option so) = group_key so /\
  total_storage (reset_option so) = total_storage so.
Proof.
  split_and!; try done. unfold total_storage, reset_option. simpl.
  by rewrite map_map.
Qed.

Lemma group_from_reset j sos d :
  group_from j (map reset_option sos) d = group_from j sos d.
Proof.
  revert j d. induction sos as [|so sos IH]; intros j d;
    cbn [map group_from]; [done|].
  destruct (reset_option_fields so) as (H1 & H2 & H3). rewrite H1, H2, H3.
  destruct (String.eqb _ _); apply IH.
Qed.

Lemma uniform_from_reset j sos :
  uniform_from j (map reset_option sos) = uniform_from j sos.
Proof.
  revert j. induction sos as [|so sos IH]; intros j;
    cbn [map uniform_from]; [done|].
  destruct (reset_option_fields so) as (H1 & _). rewrite H1.
  destruct (String.eqb _ _); by rewrite IH.
Qed.

Lemma grouping_same_shape p p' :
  reset_shard_rank p' = reset_shard_rank p ->
  _group_and_sort_non_uniform_sharding_options p'
  = _group_and_sort_non_uniform_sharding_options p.
Proof.
  intros H. unfold _group_and_sort_non_uniform_sharding_options.
  rewrite <- (group_from_reset 0 p'), <- (group_from_reset 0 p).
  unfold reset_shard_rank in H. by rewrite H.
Qed.

Lemma uniform_same_shape p p' :
  reset_shard_rank p' = reset_shard_rank p ->
  _get_uniform_sharding_options p' = _get_uniform_sharding_options p.
Proof.
  intros H. unfold _get_uniform_sharding_options.
  rewrite <- (uniform_from_reset 0 p'), <- (uniform_from_reset 0 p).
  unfold reset_shard_rank in H. by rewrite H.
Qed.

(** The host slices of a topology. *)
Lemma slice_subseteq {A} (l : list A) a b : slice l a b ⊆ l.
Proof.
  unfold slice. intros x Hx.
  apply (subseteq_drop (Z.to_nat a) l), (subseteq_take _ _ _ Hx).
Qed.

Lemma ranked_take h l n : ranked h l -> ranked h (take n l).
Proof.
  unfold ranked, ranks_of. rewrite fmap_take. intros H.
  rewrite <- (take_drop n) in H. by apply StronglySorted_app_1_l in H.
Qed.

Lemma ranked_drop h l n : ranked h l -> ranked h (drop n l).
Proof.
  unfold ranked, ranks_of. rewrite fmap_drop. intros H.
  rewrite <- (take_drop n) in H. by apply StronglySorted_app_1_r in H.
Qed.

Lemma _get_host_level_devices_hosts h t hosts :
  _get_host_level_devices t = inr hosts -> ranked h (devices t) ->
  Forall (fun devs => devs ⊆ devices t /\ ranked h devs) hosts.
Proof.
  unfold _get_host_level_devices. destruct (_ =? 0); [done|].
  intros [= <-] Hr. apply Forall_forall. intros l Hl.
  rewrite map_fmap in Hl. apply list_elem_of_fmap in Hl as (i & -> & _).
  split; [apply slice_subseteq|]. by apply ranked_take, ranked_drop.
Qed.

(** What a booking does to the device. *)
Lemma booked_storage d l d' :
  booked d l d' ->
  storage d' = storage_sub (storage d) (sum_storage (s_storage <$> l)).
Proof.
  revert d. induction l as [|s l IH]; cbn [booked]; intros d.
  - intros ->. unfold storage_sub. destruct (storage d). simpl. f_equal; lia.
  - intros [_ Hb]. rewrite (IH _ Hb), fmap_cons.
    change (sum_storage (s_storage s :: (s_storage <$> l)))
      with (storage_add (s_storage s) (sum_storage (s_storage <$> l))).
    unfold storage_sub, storage_add. simpl. f_equal; lia.
Qed.

Lemma booked_nonneg d l d' :
  booked d l d' -> storage_nonneg (storage d) -> storage_nonneg (storage d').
Proof.
  revert d. induction l as [|s l IH]; simpl; intros d.
  - by intros ->.
  - intros [Hf Hb] _. apply (IH _ Hb). unfold fits_in in Hf.
    apply andb_true_iff in Hf as [H1%Z.leb_le H2%Z.leb_le].
    unfold storage_nonneg. simpl. lia.
Qed.


Lemma sum_storage_Permutation l1 l2 :
  l1 ≡ₚ l2 -> sum_storage l1 = sum_storage l2.
Proof.
  induction 1 as [|x l1 l2 _ IH|x y l|l1 l2 l3 _ IH1 _ IH2]; simpl.
  - done.
  - by rewrite IH.
  - unfold storage_add. simpl. f_equal; lia.
  - by rewrite IH1.
Qed.


Lemma assigned_Permutation rk p M1 M2 :
  M1 ≡ₚ M2 -> assigned rk p M1 ≡ₚ assigned rk p M2.
Proof. intros H. unfold assigned. by apply Permutation_flat_map. Qed.

Lemma grouping_indices p :
  _get_uniform_sharding_options p ⊆ seq 0 (length p) /\
  members (_group_and_sort_non_uniform_sharding_options p) ⊆ seq 0 (length p) /\
  NoDup (_get_uniform_sharding_options p) /\
  NoDup (members (_group_and_sort_non_uniform_sharding_options p)) /\
  (forall j, j ∈ _get_uniform_sharding_options p ->
             j ∉ members (_group_and_sort_non_uniform_sharding_options p)).
Proof.
  pose proof (grouping_covers p) as Hp.
  assert (NoDup (_get_uniform_sharding_options p
                   ++ members (_group_and_sort_non_uniform_sharding_options p)))
    as (H1 & H2 & H3)%NoDup_app by (rewrite Hp; apply NoDup_seq).
  split_and!; try done.
  - intros j Hj. rewrite <- Hp. apply elem_of_app. by left.
  - intros j Hj. rewrite <- Hp. apply elem_of_app. by right.
Qed.

Lemma indices_ok_seq (p : list ShardingOption) M :
  M ⊆ seq 0 (length p) -> indices_ok p M.
Proof.
  intros H. apply Forall_forall. intros j Hj%H%elem_of_seq. lia.
Qed.

Lemma partition_effect tc w :
  effect (seq (length (heap_of w)) (length (devices tc)))
    (seq 0 (length (proposal w)))
    (mkWorld (heap_of w ++ map (fun r => heap_of w !!! r) (devices tc)) (proposal w))
    (state_of (partition tc w)).
Proof.
  unfold partition. cbn [deepcopy_devices].
  set (D := seq (length (heap_of w)) (length (devices tc))).
  set (w1 := mkWorld _ (proposal w)).
  destruct (_get_host_level_devices _) as [e|hosts] eqn:Eh; [apply effect_refl|].
  cbn [devices local_world_size proposal].
  destruct (grouping_indices (proposal w)) as (HU & HG & _).
  pose proof (_uniform_partition_effect
                (_get_uniform_sharding_options (proposal w)) D w1) as He.
  destruct (_uniform_partition _ D w1) as [[] w2|e w2]; simpl in He.
  2:{ simpl. eapply effect_weaken; [| |exact He]; done. }
  assert (_group_and_sort_non_uniform_sharding_options (proposal w2)
          = _group_and_sort_non_uniform_sharding_options (proposal w)) as ->.
  { apply grouping_same_shape. by destruct He as (_ & _ & _ & _ & _ & S). }
  assert (concat hosts ⊆ D) as Hcat.
  { apply concat_subseteq.
    unfold _get_host_level_devices in Eh. simpl in Eh.
    destruct (_ =? 0); [done|]. injection Eh as <-.
    apply Forall_forall. intros l Hl. rewrite map_fmap in Hl.
    apply list_elem_of_fmap in Hl as (i & -> & _). apply slice_subseteq. }
  pose proof (partition_groups_effect D
                (_group_and_sort_non_uniform_sharding_options (proposal w))
                hosts D (local_world_size tc) w2) as [He2 _]; [done|done|].
  assert (effect D (seq 0 (length (proposal w))) w1
            (state_of (partition_groups
               (_group_and_sort_non_uniform_sharding_options (proposal w))
               hosts D (local_world_size tc) w2))) as Hall.
  { eapply effect_trans;
      [eapply effect_weaken; [| |exact He]; done
      |eapply effect_weaken; [| |exact He2]; done]. }
  by destruct (partition_groups _ _ _ _ w2).
Qed.

Lemma dispatched_final hosts D devs0 M w w' g :
  effect devs0 M w w' -> allocated (heap_of w) D ->
  Forall (fun devs => devs ⊆ D) hosts ->
  dispatched hosts w w' g -> dispatched hosts w' w' g.
Proof.
  intros He Hal Hh (j0 & rest & Hg & Hd). exists j0, rest. split; [done|].
  rewrite (effect_partition_by _ _ _ _ j0 He).
  destruct Hd as [[Hp (devs & Hin & Hw)]|Hd]; [left|by right].
  split; [done|]. exists devs. split; [done|]. intros j Hj.
  eapply ranks_within_transport; [|by apply Hw].
  intros r Hr. split; [done|].
  eapply effect_rank_at; [exact He|exact Hal|].
  rewrite Forall_forall in Hh. by apply (Hh devs).
Qed.

Lemma partition_commits tc w topo w' :
  partition tc w = Ok topo w' -> ranked (heap_of w) (devices tc) ->
  devices topo = seq (length (heap_of w)) (length (devices tc)) /\
  local_world_size topo = local_world_size tc /\
  commits (devices topo)
    (_get_uniform_sharding_options (proposal w)
       ++ members (_group_and_sort_non_uniform_sharding_options (proposal w)))
    (mkWorld (heap_of w ++ map (fun r => heap_of w !!! r) (devices tc)) (proposal w))
    w' /\
  exists hosts,
    _get_host_level_devices topo = inr hosts /\
    Forall (dispatched hosts w' w')
      (_group_and_sort_non_uniform_sharding_options (proposal w)).
Proof.
  unfold partition. cbn [deepcopy_devices].
  set (D := seq (length (heap_of w)) (length (devices tc))).
  set (w1 := mkWorld _ (proposal w)).
  destruct (_get_host_level_devices _) as [e|hosts] eqn:Eh; [done|].
  cbn [devices local_world_size proposal].
  destruct (grouping_indices (proposal w)) as (HU & HG & HndU & HndG & Hdisj).
  pose proof (_uniform_partition_effect
                (_get_uniform_sharding_options (proposal w)) D w1) as He.
  destruct (_uniform_partition _ D w1) as [[] w2|e w2] eqn:EU; [|done].
  simpl in He.
  assert (_group_and_sort_non_uniform_sharding_options (proposal w2)
          = _group_and_sort_non_uniform_sharding_options (proposal w)) as ->.
  { apply grouping_same_shape. by destruct He as (_ & _ & _ & _ & _ & S). }
  destruct (partition_groups _ hosts D _ w2) as [sd' w3|e w3] eqn:EG; [|done].
  intros [= <- <-] Hrk. cbn [devices local_world_size].
  assert (ranked (heap_of w1) D) as Hrk1.
  { unfold ranked, D, w1. simpl. by rewrite deepcopy_ranks_of. }
  assert (allocated (heap_of w1) D) as Hal1.
  { apply Forall_forall. intros r Hr%elem_of_seq. unfold w1. simpl.
    rewrite length_app, length_map. lia. }
  pose proof (ranked_rank_inj _ _ Hrk1) as Hinj1.
  assert (commits D (_get_uniform_sharding_options (proposal w)) w1 w2) as Hc1.
  { eapply _uniform_partition_commits; try done. by apply indices_ok_seq. }
  assert (Forall (fun devs => devs ⊆ D /\ ranked (heap_of w2) devs) hosts) as Hh.
  { apply (_get_host_level_devices_hosts _ _ _ Eh). by eapply effect_ranked. }
  assert (Forall (fun devs => devs ⊆ D) hosts) as HhD.
  { eapply Forall_impl; [exact Hh|]. by intros l [? _]. }
  destruct (partition_groups_commits D _ hosts D _ w2 sd' w3 EG HndG)
    as [Hc2 Hd]; try done.
  { apply indices_ok_seq. by destruct He as (_ & _ & _ & -> & _). }
  { by eapply effect_rank_inj. }
  { by eapply effect_allocated. }
  pose proof (partition_groups_effect D
                (_group_and_sort_non_uniform_sharding_options (proposal w))
                hosts D (local_world_size tc) w2) as [He2 _];
    [done|by apply concat_subseteq|].
  rewrite EG in He2. simpl in He2.
  split_and!; [done|done| |].
  - apply (commits_app D _ _ w1 w2 w3); [done|done|].
    intros j Hj. eapply effect_lookup_total; [exact He2|]. by apply Hdisj.
  - exists hosts. split; [done|].
    eapply Forall_impl; [exact Hd|]. intros g.
    apply (dispatched_final hosts D _ _ w2 w3 g He2); [|done].
    by eapply effect_allocated.
Qed.

(** ** Co-location *)






Lemma Qltb_false a b : Qltb a b = false <-> (b <= a)%Q.
Proof.
  unfold Qltb. rewrite negb_false_iff. apply Qle_bool_iff.
Qed.

Lemma Qltb_true a b : Qltb a b = true <-> (a < b)%Q.
Proof.
  unfold Qltb. rewrite negb_true_iff, <- not_true_iff_false, Qle_bool_iff.
  split; [apply Qnot_le_lt|apply Qlt_not_le].
Qed.



Lemma same_shape_group_key p p' j :
  reset_shard_rank p' = reset_shard_rank p ->
  group_key (p' !!! j) = group_key (p !!! j).
Proof.
  intros H%(same_shape_lookup _ _ j).
  destruct (reset_option_fields (p' !!! j)) as (_ & <- & _).
  destruct (reset_option_fields (p !!! j)) as (_ & <- & _). by rewrite H.
Qed.

Lemma partition_working_copy tc w topo w' :
  partition tc w = Ok topo w' ->
  devices topo = seq (length (heap_of w)) (length (devices tc)) /\
  local_world_size topo = local_world_size tc /\
  forall i r0, devices tc !! i = Some r0 ->
    rank (heap_of w' !!! (length (heap_of w) + i)%nat) = rank (heap_of w !!! r0).
Proof.
  intros Hrun. pose proof (partition_effect tc w) as He.
  rewrite Hrun in He. simpl in He.
  assert (topo = mkTopology (seq (length (heap_of w)) (length (devices tc)))
                   (local_world_size tc)) as ->.
  { unfold partition in Hrun. cbn [deepcopy_devices] in Hrun.
    destruct (_get_host_level_devices _); [done|].
    destruct (_uniform_partition _ _ _) as [[] w2|]; [|done].
    destruct (partition_groups _ _ _ _ _); [|done]. by injection Hrun as <- _. }
  split_and!; [done|done|].
  intros i r0 Hi. destruct He as (_ & _ & R & _). rewrite R.
  - simpl. by rewrite (deepcopy_lookup _ _ _ _ Hi).
  - simpl. rewrite length_app, length_map. apply lookup_lt_Some in Hi. lia.
Qed.


Lemma host_index_bound (ws lws : Z) (i : nat) :
  0 <= ws -> lws <> 0 -> (i < Z.to_nat (ws / lws))%nat ->
  0 < lws /\ 0 <= Z.of_nat i < ws / lws.
Proof.
  intros Hws Hl Hi.
  assert (0 < ws / lws) as Hpos by lia.
  split; [|lia].
  destruct (Z.lt_trichotomy lws 0) as [Hneg|[?|?]]; [|done|done].
  exfalso. pose proof (Z.div_mod ws lws Hl).
  pose proof (Z.mod_neg_bound ws lws Hneg). nia.
Qed.





(** ** The uniform packer, case by case *)






(** ** The greedy device-level packer, shard by shard *)

Lemma key_ltb_true a b :
  key_ltb a b = true <->
  (a.1 < b.1)%Q \/ ((a.1 == b.1)%Q /\ a.2 < b.2).
Proof.
  unfold key_ltb. destruct (Qeq_bool a.1 b.1) eqn:E.
  - apply Qeq_bool_iff in E. rewrite Z.ltb_lt. split.
    + intros H. by right.
    + intros [H|[_ H]]; [|done]. rewrite E in H. by apply Qlt_irrefl in H.
  - apply Qeq_bool_neq in E. rewrite Qltb_true. split.
    + intros H. by left.
    + intros [H|[H _]]; done.
Qed.

Lemma key_ltb_false a b :
  key_ltb a b = false <->
  (b.1 < a.1)%Q \/ ((a.1 == b.1)%Q /\ b.2 <= a.2).
Proof.
  unfold key_ltb. destruct (Qeq_bool a.1 b.1) eqn:E.
  - apply Qeq_bool_iff in E. rewrite Z.ltb_ge. split.
    + intros H. by right.
    + intros [H|[_ H]]; [|done]. rewrite E in H. by apply Qlt_irrefl in H.
  - apply Qeq_bool_neq in E. rewrite Qltb_false. split.
    + intros H. left. apply Qle_lt_or_eq in H as [H|H]; [done|].
      exfalso. apply E. by symmetry.
    + intros [H|[H _]]; [by apply Qlt_le_weak|done].
Qed.

Lemma key_ltb_asym a b : key_ltb a b = true -> key_ltb b a = false.
Proof.
  rewrite key_ltb_true, key_ltb_false.
  intros [H|[H1 H2]]; [by left|]. right. split; [by symmetry|lia].
Qed.

Lemma key_ltb_le_trans x y z :
  key_ltb y x = false -> key_ltb z y = false -> key_ltb z x = false.
Proof.
  rewrite !key_ltb_false. intros [H1|[H1 H1']] [H2|[H2 H2']].
  - left. lra.
  - left. lra.
  - left. lra.
  - right. split; [lra|lia].
Qed.

Lemma sort_devices_sorted h lws devs :
  StronglySorted
    (fun a b => key_ltb (device_key h lws b) (device_key h lws a) = false)
    (sort_devices h lws devs).
Proof.
  unfold sort_devices.
  apply (stable_sort_sorted
           (fun y x => key_ltb (device_key h lws y) (device_key h lws x))).
  - intros x y. apply key_ltb_asym.
  - intros x y z. apply key_ltb_le_trans.
Qed.







(** ** Faults at dispatch *)

Lemma partition_groups_app pre post hosts sd lws w :
  partition_groups (pre ++ post) hosts sd lws w
  = match partition_groups pre hosts sd lws w with
    | Ok sd1 w1 => partition_groups post hosts sd1 lws w1
    | Raise e w1 => Raise e w1
    end.
Proof.
  revert sd w. induction pre as [|g pre IH]; intros sd w; [done|].
  cbn [app partition_groups].
  destruct (sharding_options g) as [|j0 rest]; [done|].
  destruct (String.eqb _ HOST).
  - destruct (_cohost_partition g hosts w) as [[] w1|e w1]; [apply IH|done].
  - destruct (String.eqb _ DEVICE); [|done].
    destruct (negb _); [done|].
    destruct (_device_partition j0 sd lws w) as [sd1 w1|e w1]; [apply IH|done].
Qed.

(** What [partition] does once the working copy is made. *)
Lemma partition_unfold tc w :
  let topo := mkTopology (seq (length (heap_of w)) (length (devices tc)))
                (local_world_size tc) in
  let w1 := mkWorld (heap_of w ++ map (fun r => heap_of w !!! r) (devices tc))
              (proposal w) in
  partition tc w
  = match _get_host_level_devices topo with
    | inl e => Raise e w1
    | inr hosts =>
        match _uniform_partition (_get_uniform_sharding_options (proposal w))
                (devices topo) w1 with
        | Raise e w2 => Raise e w2
        | Ok _ w2 =>
            match partition_groups
                    (_group_and_sort_non_uniform_sharding_options (proposal w2))
                    hosts (devices topo) (local_world_size tc) w2 with
            | Raise e w3 => Raise e w3
            | Ok _ w3 => Ok topo w3
            end
        end
    end.
Proof. done. Qed.

(** C10, as stated, fails: two device-scoped options that share a dependency
    key are placed, without any assertion error, when the first option of
    their group is host-scoped; and when the uniform stage fails first, the
    call fails with that [PlannerError], not with an assertion error. *)
Lemma shared_device_options_without_assertion :
  (exists topo w', partition ex_host_topology ex_mixed = Ok topo w') /\
  partition_by (proposal ex_mixed !!! 1%nat) = DEVICE /\
  partition_by (proposal ex_mixed !!! 2%nat) = DEVICE /\
  dependency (proposal ex_mixed !!! 1%nat) = dependency (proposal ex_mixed !!! 2%nat) /\
  (exists m w', partition ex_host_topology ex_preempted = Raise (PlannerError m) w') /\
  partition_by (proposal ex_preempted !!! 1%nat) = DEVICE /\
  partition_by (proposal ex_preempted !!! 2%nat) = DEVICE /\
  dependency (proposal ex_preempted !!! 1%nat)
  = dependency (proposal ex_preempted !!! 2%nat).
Proof.
  split_and!; try reflexivity.
  - eexists _, _. vm_compute. reflexivity.
  - eexists _, _. vm_compute. reflexivity.
Qed.

(** C10 (device-scoped groups are singletons), amended.  When the dispatch
    reaches a group of two or more options whose first option is
    device-scoped, that is, when the uniform stage and the groups before it
    were placed, [partition] fails with an assertion error, in the state the
    earlier groups left: no shard of the group and no device is touched for
    it.  A group whose first option is host-scoped goes to the co-host
    packer, whatever the strategy of its other options. *)
Theorem device_group_is_singleton tc w hosts w2 pre g post sd1 w3 j0 rest :
  let topo := mkTopology (seq (length (heap_of w)) (length (devices tc)))
                (local_world_size tc) in
  let w1 := mkWorld (heap_of w ++ map (fun r => heap_of w !!! r) (devices tc))
              (proposal w) in
  _get_host_level_devices topo = inr hosts ->
  _uniform_partition (_get_uniform_sharding_options (proposal w)) (devices topo) w1
  = Ok tt w2 ->
  _group_and_sort_non_uniform_sharding_options (proposal w2) = pre ++ g :: post ->
  partition_groups pre hosts (devices topo) (local_world_size tc) w2 = Ok sd1 w3 ->
  sharding_options g = j0 :: rest -> rest <> [] ->
  (partition_by (proposal w3 !!! j0) = DEVICE ->
   partition tc w = Raise (AssertionError (length (sharding_options g))) w3) /\
  (partition_by (proposal w3 !!! j0) = HOST ->
   partition tc w
   = match _cohost_partition g hosts w3 with
     | Ok _ w4 =>
         match partition_groups post hosts sd1 (local_world_size tc) w4 with
         | Ok _ w5 => Ok topo w5
         | Raise e w5 => Raise e w5
         end
     | Raise e w4 => Raise e w4
     end).
Proof.
  cbv zeta. intros Hh Hu Hg Hpre Hso Hrest.
  rewrite partition_unfold. cbv zeta. rewrite Hh, Hu, Hg, partition_groups_app, Hpre.
  cbn [partition_groups]. rewrite Hso. split.
  - intros ->. simpl. destruct rest; [done|]. done.
  - intros ->. simpl. by destruct (_cohost_partition g hosts w3) as [[] ?|].
Qed.

Lemma device_group_is_singleton_witness :
  partition ex_host_topology ex_shared
  = Raise (AssertionError 2)
      (mkWorld (ex_host_heap ++ ex_host_heap) (proposal ex_shared)).
Proof.
  refine (proj1 (device_group_is_singleton ex_host_topology ex_shared
                   [[2; 3]%nat]
                   (mkWorld (ex_host_heap ++ ex_host_heap) (proposal ex_shared))
                   [] (mkGroup [0; 1]%nat (mkStorage 2 0)) [] [2; 3]%nat
                   (mkWorld (ex_host_heap ++ ex_host_heap) (proposal ex_shared))
                   0%nat [1%nat] _ _ _ _ _ _) _).
  - reflexivity.
  - reflexivity.
  - vm_compute. reflexivity.
  - reflexivity.
  - reflexivity.
  - discriminate.
  - reflexivity.
Defined.

(** C9, as stated, fails: a structural fault that the run does not reach
    raises nothing.  A host-scoped option of an unknown sharding type in a
    group too large for any host ends in the [PlannerError] of the co-host
    packer, and an option of an unknown strategy behind a uniform option that
    does not fit ends in the [PlannerError] of the uniform packer. *)
Lemma unreached_fault_is_not_raised :
  (exists m w', partition ex_host_topology (ex_bad_type 50) = Raise (PlannerError m) w') /\
  partition_by (proposal (ex_bad_type 50) !!! 0%nat) = HOST /\
  sharding_type (proposal (ex_bad_type 50) !!! 0%nat) <> TABLE_ROW_WISE /\
  sharding_type (proposal (ex_bad_type 50) !!! 0%nat) <> TABLE_COLUMN_WISE /\
  (exists m w', partition ex_host_topology ex_bad_tag = Raise (PlannerError m) w') /\
  partition_by (proposal ex_bad_tag !!! 1%nat) <> UNIFORM /\
  partition_by (proposal ex_bad_tag !!! 1%nat) <> HOST /\
  partition_by (proposal ex_bad_tag !!! 1%nat) <> DEVICE.
Proof.
  split_and!; try (vm_compute; discriminate); try reflexivity.
  - eexists _, _. vm_compute. reflexivity.
  - eexists _, _. vm_compute. reflexivity.
Qed.

(** C9 (structural faults are fatal), amended.  When the dispatch reaches a
    group whose first option has a strategy that is neither host nor device,
    a [RuntimeError] is raised; when the co-host packer reaches, in the trial
    of a host, an option whose sharding type is neither row-wise nor
    column-wise, a [RuntimeError] is raised.  No layer catches an error that
    is not a [PlannerError]: the trial ends the loop over the hosts with it
    (no next host), the orchestrator passes on what the uniform stage and the
    groups raise, the body of the search loop and the loop pass on what the
    orchestrator raises, and so does the baseline call of the search. *)
Theorem structural_faults_are_fatal :
  (forall g groups hosts sd lws w j0 rest,
     sharding_options g = j0 :: rest ->
     partition_by (proposal w !!! j0) <> HOST ->
     partition_by (proposal w !!! j0) <> DEVICE ->
     partition_groups (g :: groups) hosts sd lws w
     = Raise (RuntimeError (UnexpectedGroup g)) w) /\
  (forall j sos host_devices w,
     sharding_type (proposal w !!! j) <> TABLE_ROW_WISE ->
     sharding_type (proposal w !!! j) <> TABLE_COLUMN_WISE ->
     cohost_options (j :: sos) host_devices w
     = Raise (RuntimeError
                (UnexpectedCohostShardingType (sharding_type (proposal w !!! j)))) w) /\
  (forall g devs hosts w e w2,
     let trial_devices := seq (length (heap_of w)) (length devs) in
     let w1 := mkWorld (heap_of w ++ map (fun r => heap_of w !!! r) devs)
                 (proposal w) in
     fits_in (storage_sum g) (host_storage_sum (heap_of w1) trial_devices) = true ->
     cohost_options (sharding_options g) trial_devices w1 = Raise e w2 ->
     is_planner_error e = false ->
     cohost_hosts g (devs :: hosts) w = Raise e w2) /\
  (forall pre post hosts sd lws w e w',
     partition_groups pre hosts sd lws w = Raise e w' ->
     partition_groups (pre ++ post) hosts sd lws w = Raise e w') /\
  (forall tc w hosts e w',
     let topo := mkTopology (seq (length (heap_of w)) (length (devices tc)))
                   (local_world_size tc) in
     let w1 := mkWorld (heap_of w ++ map (fun r => heap_of w !!! r) (devices tc))
                 (proposal w) in
     _get_host_level_devices topo = inr hosts ->
     (_uniform_partition (_get_uniform_sharding_options (proposal w))
        (devices topo) w1 = Raise e w' ->
      partition tc w = Raise e w') /\
     (forall w2,
        _uniform_partition (_get_uniform_sharding_options (proposal w))
          (devices topo) w1 = Ok tt w2 ->
        partition_groups (_group_and_sort_non_uniform_sharding_options (proposal w2))
          hosts (devices topo) (local_world_size tc) w2 = Raise e w' ->
        partition tc w = Raise e w')) /\
  (forall rate tol topo orig s w e w',
     partition topo
       (mkWorld (set_hbm_per_device topo (mid_hbm_per_device s) (heap_of w))
          (reset_shard_rank (proposal w))) = Raise e w' ->
     is_planner_error e = false ->
     search_body rate tol topo orig s w = Raise e w') /\
  (forall rate msc tol fuel topo orig s w e w',
     loop_guard msc s = true ->
     search_body rate tol topo orig s w = Raise e w' ->
     search_loop rate msc tol (S fuel) topo orig s w = Some (Raise e w')) /\
  (forall rate msc tol fuel tc w e w',
     partition
       (mkTopology (seq (length (heap_of w)) (length (devices tc)))
          (local_world_size tc))
       (mkWorld (heap_of w ++ map (fun r => heap_of w !!! r) (devices tc))
          (proposal w)) = Raise e w' ->
     MemoryBalanced_partition rate msc tol fuel tc w = Some (Raise e w')).
Proof.
  split_and!.
  - intros g groups hosts sd lws w j0 rest Hso Hnh Hnd.
    cbn [partition_groups]. rewrite Hso.
    by rewrite (proj2 (String.eqb_neq _ _) Hnh), (proj2 (String.eqb_neq _ _) Hnd).
  - intros j sos hd w Hnr Hnc. cbn [cohost_options].
    by rewrite (proj2 (String.eqb_neq _ _) Hnr), (proj2 (String.eqb_neq _ _) Hnc).
  - intros g devs hosts w e w2. cbv zeta. intros Hfit Hrun Hne.
    cbn [cohost_hosts]. unfold host_trial. cbn [deepcopy_devices].
    cbn [heap_of] in Hfit. rewrite Hfit, Hrun. simpl. by destruct e.
  - intros pre post hosts sd lws w e w' H. by rewrite partition_groups_app, H.
  - intros tc w hosts e w'. cbv zeta. intros Hh. split.
    + intros Hu. rewrite partition_unfold. cbv zeta. by rewrite Hh, Hu.
    + intros w2 Hu Hg. rewrite partition_unfold. cbv zeta. by rewrite Hh, Hu, Hg.
  - intros rate tol topo orig s w e w' Hp Hne. unfold search_body.
    cbn [heap_of proposal]. rewrite Hp. by destruct e.
  - intros rate msc tol fuel topo orig s w e w' Hg Hb.
    cbn [search_loop]. by rewrite Hg, Hb.
  - intros rate msc tol fuel tc w e w' Hp. unfold MemoryBalanced_partition.
    cbn [deepcopy_devices]. by rewrite Hp.
Qed.

Lemma structural_faults_are_fatal_witness :
  exists w',
    MemoryBalanced_partition ex_rate 10 (2 # 100) 10 ex_host_topology (ex_bad_type 5)
    = Some (Raise (RuntimeError (UnexpectedCohostShardingType "table_wise")) w').
Proof.
  eexists.
  refine (proj2 (proj2 (proj2 (proj2 (proj2 (proj2 (proj2
            structural_faults_are_fatal))))))
            ex_rate 10 (2 # 100) 10%nat ex_host_topology (ex_bad_type 5) _ _ _).
  vm_compute. reflexivity.
Defined.

(** ** Structural validity *)

Lemma effect_same_shape devs M w w' :
  effect devs M w w' -> same_shape (proposal w) (proposal w').
Proof. by intros (_ & _ & _ & _ & _ & S). Qed.

Lemma same_shape_trans p1 p2 p3 :
  same_shape p1 p2 -> same_shape p2 p3 -> same_shape p1 p3.
Proof. unfold same_shape. congruence. Qed.

Lemma same_shape_sym p1 p2 : same_shape p1 p2 -> same_shape p2 p1.
Proof. unfold same_shape. congruence. Qed.

Lemma same_shape_member_ok lws p p' j :
  same_shape p p' -> member_ok lws (p !!! j) -> member_ok lws (p' !!! j).
Proof.
  intros H. unfold member_ok.
  destruct (same_shape_fields p p' j H) as (_ & -> & -> & _). done.
Qed.

Lemma same_shape_group_valid lws p p' g :
  same_shape p p' -> group_valid lws p g -> group_valid lws p' g.
Proof.
  intros H (j0 & rest & Hso & Hd). exists j0, rest. split; [done|].
  destruct (same_shape_fields p p' j0 H) as (-> & _).
  destruct Hd as [[H1 H2]|Hd]; [left|by right]. split; [done|].
  eapply Forall_impl; [exact H2|]. intros j. by apply same_shape_member_ok.
Qed.


Lemma reset_shard_rank_idemp p : same_shape p (reset_shard_rank p).
Proof.
  unfold same_shape, reset_shard_rank. rewrite map_map. apply map_ext.
  intros so. unfold reset_option, with_shards. simpl. f_equal.
  rewrite map_map. by apply map_ext.
Qed.

(** The host slices have the host size. *)
Lemma slice_length {A} (l : list A) a b :
  0 <= a <= b -> b <= Z.of_nat (length l) ->
  Z.of_nat (length (slice l a b)) = b - a.
Proof.
  intros Hab Hb. unfold slice. rewrite length_take, length_drop. lia.
Qed.

Lemma _get_host_level_devices_lengths t hosts :
  _get_host_level_devices t = inr hosts ->
  Forall (fun l => Z.of_nat (length l) = local_world_size t /\ l <> []) hosts.
Proof.
  unfold _get_host_level_devices.
  destruct (local_world_size t =? 0) eqn:Hz; [done|]. apply Z.eqb_neq in Hz.
  intros [= <-]. apply Forall_forall. intros l Hl.
  rewrite map_fmap in Hl. apply list_elem_of_fmap in Hl as (i & -> & Hi).
  apply elem_of_seq in Hi as [_ Hi]. simpl in Hi.
  destruct (host_index_bound (world_size t) (local_world_size t) i)
    as [Hlpos Hib]; [unfold world_size; lia|done|done|].
  assert (Z.of_nat (length (slice (devices t) (Z.of_nat i * local_world_size t)
                              ((Z.of_nat i + 1) * local_world_size t)))
          = local_world_size t) as Hlen.
  { rewrite slice_length; [lia|nia|].
    fold (world_size t).
    pose proof (Z.mul_div_le (world_size t) (local_world_size t) Hlpos). nia. }
  split; [done|]. intros Hnil. rewrite Hnil in Hlen. simpl in Hlen. lia.
Qed.

(** A successful run shows that the proposal is valid. *)
Lemma _uniform_partition_ok_valid sos devs w w' :
  _uniform_partition sos devs w = Ok tt w' ->
  Forall (fun j => num_shards (proposal w !!! j) = length devs) sos.
Proof.
  revert w. induction sos as [|j sos IH]; intros w; simpl; [constructor|].
  pose proof (uniform_option_effect j devs w) as He.
  destruct (uniform_option j devs w) as [[] w1|e w1] eqn:E; [|done].
  simpl in He. intros Hrun. constructor.
  - unfold uniform_option in E. destruct (negb _) eqn:Hn; [done|].
    by apply negb_false_iff, Nat.eqb_eq in Hn.
  - eapply Forall_impl; [exact (IH w1 Hrun)|]. intros j'. simpl.
    by destruct (same_shape_fields _ _ j' (effect_same_shape _ _ _ _ He))
      as (_ & _ & -> & _).
Qed.

Lemma cohost_options_ok_valid sos hd w hd' w' :
  cohost_options sos hd w = Ok hd' w' ->
  Forall (fun j => member_ok (Z.of_nat (length hd)) (proposal w !!! j)) sos.
Proof.
  revert hd w. induction sos as [|j sos IH]; intros hd w;
    cbn [cohost_options]; [constructor|].
  destruct (String.eqb_spec (sharding_type (proposal w !!! j)) TABLE_ROW_WISE)
    as [Hrow|Hnrow].
  - pose proof (_uniform_partition_effect [j] hd w) as He.
    pose proof (_uniform_partition_ok_valid [j] hd w) as Hv.
    destruct (_uniform_partition [j] hd w) as [[] w1|e w1]; [|done].
    simpl in He. specialize (Hv w1 eq_refl).
    apply Forall_inv in Hv. simpl in Hv. intros Hrun. constructor.
    + left. split; [done|]. by rewrite Hv.
    + eapply Forall_impl; [exact (IH hd w1 Hrun)|]. intros j'.
      apply same_shape_member_ok, same_shape_sym. by eapply effect_same_shape.
  - destruct (String.eqb_spec (sharding_type (proposal w !!! j)) TABLE_COLUMN_WISE)
      as [Hcol|Hncol]; [|done].
    pose proof (_device_partition_effect j hd (Z.of_nat (length hd)) w)
      as [He Hp].
    destruct (_device_partition j hd _ w) as [hd1 w1|e w1]; [|done].
    simpl in He. specialize (Hp _ _ eq_refl). intros Hrun. constructor.
    + by right.
    + rewrite <- (Permutation_length Hp).
      eapply Forall_impl; [exact (IH hd1 w1 Hrun)|]. intros j'.
      apply same_shape_member_ok, same_shape_sym. by eapply effect_same_shape.
Qed.

Lemma host_trial_next_shape g devs w w1 :
  host_trial g devs w = NextHost w1 -> same_shape (proposal w) (proposal w1).
Proof.
  unfold host_trial. cbn [deepcopy_devices]. destruct (negb _).
  { by intros [= <-]. }
  pose proof (cohost_options_effect (sharding_options g)
                (seq (length (heap_of w)) (length devs))
                (mkWorld (heap_of w ++ map (fun r => heap_of w !!! r) devs)
                   (proposal w))) as [He _].
  destruct (cohost_options _ _ _) as [hd w2|e w2]; [done|].
  simpl in He. destruct e; try done. intros [= <-].
  by apply effect_same_shape in He.
Qed.

Lemma host_trial_ok_valid g devs w w' :
  host_trial g devs w = Done (Ok tt w') ->
  Forall (fun j => member_ok (Z.of_nat (length devs)) (proposal w !!! j))
    (sharding_options g).
Proof.
  unfold host_trial. cbn [deepcopy_devices]. destruct (negb _); [done|].
  pose proof (cohost_options_ok_valid (sharding_options g)
                (seq (length (heap_of w)) (length devs))
                (mkWorld (heap_of w ++ map (fun r => heap_of w !!! r) devs)
                   (proposal w))) as Hv.
  destruct (cohost_options _ _ _) as [hd w2|e w2].
  - intros _. specialize (Hv _ _ eq_refl). by rewrite length_seq in Hv.
  - by destruct e.
Qed.

Lemma cohost_hosts_ok_valid lws g hosts w w' :
  cohost_hosts g hosts w = Ok tt w' ->
  Forall (fun l => Z.of_nat (length l) = lws) hosts ->
  Forall (fun j => member_ok lws (proposal w !!! j)) (sharding_options g).
Proof.
  revert w. induction hosts as [|devs hosts IH]; intros w; simpl; [done|].
  intros Hrun [Hlen Hrest]%Forall_cons.
  destruct (host_trial g devs w) as [w1|o] eqn:E.
  - eapply Forall_impl; [exact (IH w1 Hrun Hrest)|]. intros j.
    apply same_shape_member_ok, same_shape_sym. by eapply host_trial_next_shape.
  - subst o. rewrite <- Hlen. by eapply host_trial_ok_valid.
Qed.

Lemma partition_groups_ok_valid groups hosts sd lws w sd' w' :
  partition_groups groups hosts sd lws w = Ok sd' w' ->
  Forall (fun l => Z.of_nat (length l) = lws) hosts ->
  Forall (group_valid lws (proposal w)) groups.
Proof.
  intros Hrun Hhosts. revert sd w Hrun.
  induction groups as [|g groups IH]; intros sd w; cbn [partition_groups];
    [constructor|].
  destruct (sharding_options g) as [|j0 rest] eqn:Eg; [done|].
  destruct (String.eqb_spec (partition_by (proposal w !!! j0)) HOST) as [Hhost|Hnh].
  - pose proof (_cohost_partition_effect g hosts w) as He.
    destruct (_cohost_partition g hosts w) as [[] w1|e w1] eqn:E; [|done].
    simpl in He. intros Hrun. constructor.
    + exists j0, rest. split; [done|]. left. split; [done|].
      unfold _cohost_partition in E. eapply cohost_hosts_ok_valid; [exact E|].
      by rewrite _sort_devices_by_perf_Permutation.
    + eapply Forall_impl; [exact (IH sd w1 Hrun)|]. intros g'.
      apply same_shape_group_valid, same_shape_sym. by eapply effect_same_shape.
  - destruct (String.eqb_spec (partition_by (proposal w !!! j0)) DEVICE)
      as [Hdev|Hnd]; [|done].
    destruct (negb _) eqn:Hlen; [done|].
    apply negb_false_iff, Nat.eqb_eq in Hlen.
    pose proof (_device_partition_effect j0 sd lws w) as [He _].
    destruct (_device_partition j0 sd lws w) as [sd1 w1|e w1]; [|done].
    simpl in He. intros Hrun. constructor.
    + exists j0, rest. split; [done|]. right. split; [done|]. by destruct rest.
    + eapply Forall_impl; [exact (IH sd1 w1 Hrun)|]. intros g'.
      apply same_shape_group_valid, same_shape_sym. by eapply effect_same_shape.
Qed.

Lemma partition_ok_valid topo w topo' w' :
  partition topo w = Ok topo' w' -> valid topo (proposal w).
Proof.
  rewrite partition_unfold. cbv zeta.
  destruct (_get_host_level_devices _) as [e|hosts] eqn:Eh; [done|].
  pose proof (_get_host_level_devices_lengths _ _ Eh) as Hlen.
  cbn [devices local_world_size] in *.
  pose proof (_uniform_partition_effect
                (_get_uniform_sharding_options (proposal w))
                (seq (length (heap_of w)) (length (devices topo)))
                (mkWorld (heap_of w ++ map (fun r => heap_of w !!! r) (devices topo))
                   (proposal w))) as He.
  pose proof (_uniform_partition_ok_valid
                (_get_uniform_sharding_options (proposal w))
                (seq (length (heap_of w)) (length (devices topo)))
                (mkWorld (heap_of w ++ map (fun r => heap_of w !!! r) (devices topo))
                   (proposal w))) as Hu.
  destruct (_uniform_partition _ _ _) as [[] w2|e w2]; [|done].
  simpl in He. specialize (Hu _ eq_refl). cbn [proposal] in Hu.
  rewrite length_seq in Hu.
  apply effect_same_shape in He. cbn [proposal] in He.
  rewrite (grouping_same_shape _ _ He).
  pose proof (partition_groups_ok_valid
                (_group_and_sort_non_uniform_sharding_options (proposal w))
                hosts (seq (length (heap_of w)) (length (devices topo)))
                (local_world_size topo) w2) as Hg.
  destruct (partition_groups _ _ _ _ w2) as [sd' w3|e w3]; [|done].
  intros _. split_and!.
  - unfold _get_host_level_devices in Eh. simpl in Eh.
    destruct (local_world_size topo =? 0) eqn:Hz; [done|]. by apply Z.eqb_neq.
  - done.
  - eapply Forall_impl; [apply (Hg _ _ eq_refl)|].
    + eapply Forall_impl; [exact Hlen|]. by intros l [? _].
    + intros g. apply same_shape_group_valid, same_shape_sym. exact He.
Qed.

(** On a valid proposal only a [PlannerError] can be raised. *)
Lemma uniform_option_raise j devs w e w' :
  uniform_option j devs w = Raise e w' ->
  num_shards (proposal w !!! j) = length devs -> is_planner_error e = true.
Proof.
  unfold uniform_option. intros Hrun Hlen.
  rewrite (proj2 (Nat.eqb_eq _ _) Hlen) in Hrun. simpl in Hrun.
  destruct (uniform_shards _ _ _) as [[] [ss h]|e' [ss h]] eqn:E; [done|].
  injection Hrun as <- _. by eapply uniform_shards_raise.
Qed.

Lemma _uniform_partition_raise sos devs w e w' :
  _uniform_partition sos devs w = Raise e w' ->
  Forall (fun j => num_shards (proposal w !!! j) = length devs) sos ->
  is_planner_error e = true.
Proof.
  revert w. induction sos as [|j sos IH]; intros w; simpl; [done|].
  pose proof (uniform_option_effect j devs w) as He.
  destruct (uniform_option j devs w) as [[] w1|e1 w1] eqn:E; simpl in He.
  - intros Hrun [_ Hv]%Forall_cons. apply (IH w1 Hrun).
    eapply Forall_impl; [exact Hv|]. intros j'. simpl.
    by destruct (same_shape_fields _ _ j' (effect_same_shape _ _ _ _ He))
      as (_ & _ & -> & _).
  - intros [= <- _] [Hj _]%Forall_cons. by eapply uniform_option_raise.
Qed.

Lemma _device_partition_raise j devs lws w e w' :
  _device_partition j devs lws w = Raise e w' ->
  lws <> 0 -> devs <> [] -> is_planner_error e = true.
Proof.
  unfold _device_partition. intros Hrun Hl Hd.
  destruct (device_shards _ _ _ _ _) as [devs' [ss h]|e' [ss h]] eqn:E; [done|].
  injection Hrun as <- _. by eapply device_shards_raise.
Qed.

Lemma cohost_options_raise sos hd w e w' :
  cohost_options sos hd w = Raise e w' ->
  Forall (fun j => member_ok (Z.of_nat (length hd)) (proposal w !!! j)) sos ->
  hd <> [] -> is_planner_error e = true.
Proof.
  revert hd w. induction sos as [|j sos IH]; intros hd w;
    cbn [cohost_options]; [done|].
  intros Hrun [Hj Hv]%Forall_cons Hne.
  destruct (String.eqb_spec (sharding_type (proposal w !!! j)) TABLE_ROW_WISE)
    as [Hrow|Hnrow].
  - destruct Hj as [[_ Hn]|[Hn _]]; [|done].
    pose proof (_uniform_partition_effect [j] hd w) as He.
    destruct (_uniform_partition [j] hd w) as [[] w1|e1 w1] eqn:E; simpl in He.
    + apply (IH hd w1 Hrun); [|done].
      eapply Forall_impl; [exact Hv|]. intros j'.
      apply same_shape_member_ok. by eapply effect_same_shape.
    + injection Hrun as <- _. eapply _uniform_partition_raise; [exact E|].
      constructor; [lia|constructor].
  - destruct (String.eqb_spec (sharding_type (proposal w !!! j)) TABLE_COLUMN_WISE)
      as [Hcol|Hncol].
    2:{ by destruct Hj as [[? _]|[_ ?]]. }
    pose proof (_device_partition_effect j hd (Z.of_nat (length hd)) w)
      as [He Hp].
    destruct (_device_partition j hd _ w) as [hd1 w1|e1 w1] eqn:E; simpl in He.
    + specialize (Hp _ _ eq_refl). apply (IH hd1 w1 Hrun).
      * rewrite (Permutation_length Hp).
        eapply Forall_impl; [exact Hv|]. intros j'.
        apply same_shape_member_ok. by eapply effect_same_shape.
      * intros ->. apply Permutation_nil in Hp. done.
    + injection Hrun as <- _. eapply _device_partition_raise; [exact E| |done].
      destruct hd; [done|]. simpl. lia.
Qed.

Lemma host_trial_raise g devs w e w' :
  host_trial g devs w = Done (Raise e w') ->
  Forall (fun j => member_ok (Z.of_nat (length devs)) (proposal w !!! j))
    (sharding_options g) ->
  devs <> [] -> False.
Proof.
  unfold host_trial. cbn [deepcopy_devices]. destruct (negb _); [done|].
  intros Hrun Hv Hne.
  pose proof (cohost_options_raise (sharding_options g)
                (seq (length (heap_of w)) (length devs))
                (mkWorld (heap_of w ++ map (fun r => heap_of w !!! r) devs)
                   (proposal w))) as Hr.
  destruct (cohost_options _ _ _) as [hd w2|e2 w2]; [done|].
  specialize (Hr _ _ eq_refl). rewrite length_seq in Hr.
  assert (is_planner_error e2 = true) as Hp.
  { apply Hr; [done|]. destruct devs; [done|]. done. }
  by destruct e2.
Qed.

Lemma cohost_hosts_only_planner lws g hosts w e w' :
  cohost_hosts g hosts w = Raise e w' ->
  Forall (fun l => Z.of_nat (length l) = lws /\ l <> []) hosts ->
  Forall (fun j => member_ok lws (proposal w !!! j)) (sharding_options g) ->
  is_planner_error e = true.
Proof.
  revert w. induction hosts as [|devs hosts IH]; intros w; simpl.
  { by intros [= <- _]. }
  intros Hrun [[Hlen Hne] Hrest]%Forall_cons Hv.
  destruct (host_trial g devs w) as [w1|o] eqn:E.
  - apply (IH w1 Hrun Hrest).
    eapply Forall_impl; [exact Hv|]. intros j.
    apply same_shape_member_ok. by eapply host_trial_next_shape.
  - subst o. exfalso. eapply host_trial_raise; [exact E| |done].
    by rewrite Hlen.
Qed.

Lemma partition_groups_only_planner groups hosts sd lws w e w' :
  partition_groups groups hosts sd lws w = Raise e w' ->
  Forall (fun l => Z.of_nat (length l) = lws /\ l <> []) hosts ->
  Forall (group_valid lws (proposal w)) groups ->
  lws <> 0 -> sd <> [] -> is_planner_error e = true.
Proof.
  intros Hrun Hhosts Hv Hl. revert sd w Hrun Hv.
  induction groups as [|g groups IH]; intros sd w; cbn [partition_groups]; [done|].
  intros Hrun [(j0 & rest & Hso & Hd) Hv]%Forall_cons Hsd.
  rewrite Hso in Hrun.
  destruct (String.eqb_spec (partition_by (proposal w !!! j0)) HOST) as [Hhost|Hnh].
  - destruct Hd as [[_ Hm]|[Hdev _]]; [|by rewrite Hhost in Hdev].
    pose proof (_cohost_partition_effect g hosts w) as He.
    destruct (_cohost_partition g hosts w) as [[] w1|e1 w1] eqn:E; simpl in He.
    + apply (IH sd w1 Hrun); [|done].
      eapply Forall_impl; [exact Hv|]. intros g'.
      apply same_shape_group_valid. by eapply effect_same_shape.
    + injection Hrun as <- _. unfold _cohost_partition in E.
      eapply cohost_hosts_only_planner; [exact E| |done].
      by rewrite _sort_devices_by_perf_Permutation.
  - destruct Hd as [[Hhost _]|[Hdev ->]]; [done|].
    rewrite Hdev in Hrun. simpl in Hrun.
    pose proof (_device_partition_effect j0 sd lws w) as [He Hp].
    destruct (_device_partition j0 sd lws w) as [sd1 w1|e1 w1] eqn:E; simpl in He.
    + specialize (Hp _ _ eq_refl). apply (IH sd1 w1 Hrun).
      * eapply Forall_impl; [exact Hv|]. intros g'.
        apply same_shape_group_valid. by eapply effect_same_shape.
      * intros ->. apply Permutation_nil in Hp. done.
    + injection Hrun as <- _. by eapply _device_partition_raise.
Qed.

Lemma partition_only_planner topo w e w' :
  partition topo w = Raise e w' -> valid topo (proposal w) ->
  devices topo <> [] -> is_planner_error e = true.
Proof.
  rewrite partition_unfold. cbv zeta. intros Hrun (Hl & Hu & Hg) Hne.
  destruct (_get_host_level_devices _) as [e0|hosts] eqn:Eh.
  { unfold _get_host_level_devices in Eh. simpl in Eh.
    by rewrite (proj2 (Z.eqb_neq _ _) Hl) in Eh. }
  pose proof (_get_host_level_devices_lengths _ _ Eh) as Hlen.
  cbn [devices local_world_size] in *.
  pose proof (_uniform_partition_effect
                (_get_uniform_sharding_options (proposal w))
                (seq (length (heap_of w)) (length (devices topo)))
                (mkWorld (heap_of w ++ map (fun r => heap_of w !!! r) (devices topo))
                   (proposal w))) as He.
  destruct (_uniform_partition _ _ _) as [[] w2|e2 w2] eqn:EU; simpl in He.
  - apply effect_same_shape in He. cbn [proposal] in He.
    destruct (partition_groups _ _ _ _ w2) as [sd' w3|e3 w3] eqn:EG; [done|].
    injection Hrun as <- _.
    eapply partition_groups_only_planner; [exact EG|exact Hlen| |done|].
    + rewrite (grouping_same_shape _ _ He).
      eapply Forall_impl; [exact Hg|]. intros g.
      by apply same_shape_group_valid.
    + destruct (devices topo); [done|]. done.
  - injection Hrun as <- _. eapply _uniform_partition_raise; [exact EU|].
    cbn [proposal]. by rewrite length_seq.
Qed.

(** * The claims *)



(** C6 (the caller's topology is not mutated).  Whether
    [GreedyPerfPartitioner.partition] returns or raises, every device object
    that existed before the call, among them the devices of the caller's
    [storage_constraint], is left as it was: rank, storage and perf.  The
    topology the call works on and retains is a deep copy made of fresh
    device objects, in the order of the caller's. *)
Theorem partition_leaves_caller_topology tc w :
  (forall r, (r < length (heap_of w))%nat ->
             heap_of (state_of (partition tc w)) !! r = heap_of w !! r) /\
  (forall topo w', partition tc w = Ok topo w' ->
     devices topo = seq (length (heap_of w)) (length (devices tc)) /\
     forall i r0, devices tc !! i = Some r0 ->
       rank (heap_of w' !!! (length (heap_of w) + i)%nat) = rank (heap_of w !!! r0)).
Proof.
  pose proof (partition_effect tc w) as He.
  pose proof (deepcopy_effect (devices tc) w) as He1.
  pose proof (effect_fresh _ _ _ _ _ He1 He (seq_fresh _ _)) as (_ & F & _).
  split.
  - intros r Hr. apply F; [done|]. by intros ?%elem_of_nil.
  - intros topo w' Hrun. rewrite Hrun in He. simpl in He.
    split.
    + unfold partition in Hrun. cbn [deepcopy_devices] in Hrun.
      destruct (_get_host_level_devices _); [done|].
      destruct (_uniform_partition _ _ _) as [[] w2|]; [|done].
      destruct (partition_groups _ _ _ _ _); [|done]. by injection Hrun as <- _.
    + intros i r0 Hi. destruct He as (_ & _ & R & _). rewrite R.
      * simpl. by rewrite (deepcopy_lookup _ _ _ _ Hi).
      * simpl. rewrite length_app, length_map.
        apply lookup_lt_Some in Hi. lia.
Qed.

(** ** The memory-balance search *)

Section search_facts.
Context (rate : list ShardingOption -> Q) (msc : Z) (tol : Q).

Lemma search_body_ok topo orig s w s1 w1 :
    search_body rate tol topo orig s w = Ok s1 w1 ->
    search_count s1 = search_count s + 1 /\
    same_shape (proposal w) (proposal w1) /\
    ((min_hbm_per_device s1 = mid_hbm_per_device s /\
      max_hbm_per_device s1 = max_hbm_per_device s /\
      default_plan s1 = default_plan s) \/
     (min_hbm_per_device s1 = min_hbm_per_device s /\
      max_hbm_per_device s1 = mid_hbm_per_device s /\
      default_plan s1 = proposal w1 /\
      (rate (proposal w1) <= orig * (1 + tol))%Q)).
  Proof.
    unfold search_body. cbn [heap_of proposal].
    set (w2 := mkWorld _ (reset_shard_rank (proposal w))).
    pose proof (partition_effect topo w2) as He.
    apply effect_same_shape in He. cbn [proposal] in He.
    assert (same_shape (proposal w) (proposal (state_of (partition topo w2))))
      as Hshape.
    { eapply same_shape_trans; [apply reset_shard_rank_idemp|exact He]. }
    destruct (partition topo w2) as [t w3|e w3]; simpl in Hshape.
    - destruct (Qltb _ _) eqn:Hcmp; intros [= <- <-]; simpl.
      + split_and!; [done|done|]. by left.
      + split_and!; [done|done|]. right. split_and!; try done.
        by apply Qltb_false in Hcmp.
    - destruct e; try done. intros [= <- <-]. simpl.
      split_and!; [done|done|]. by left.
  Qed.


Lemma mid_below_max s :
    loop_guard msc s = true -> mid_hbm_per_device s < max_hbm_per_device s.
  Proof.
    unfold loop_guard, mid_hbm_per_device.
    intros [_ H%Z.ltb_lt]%andb_true_iff.
    apply Z.div_lt_upper_bound; lia.
  Qed.


End search_facts.






(** * Further properties of the partitioners *)

(** ** Hosts of a topology *)

Lemma slice_block {A} (l : list A) (i : nat) (lws : Z) :
  0 < lws ->
  slice l (Z.of_nat i * lws) ((Z.of_nat i + 1) * lws)
  = take (Z.to_nat lws) (drop (i * Z.to_nat lws) l).
Proof.
  intros Hl. unfold slice. f_equal; [|f_equal]; nia.
Qed.

Lemma concat_blocks {A} (l : list A) (k n : nat) :
  concat (map (fun i => take k (drop (i * k) l)) (seq 0 n)) = take (n * k) l.
Proof.
  induction n as [|n IH]; [done|].
  rewrite seq_S, map_app, concat_app, IH. cbn [map concat Nat.add].
  rewrite app_nil_r, take_take_drop. f_equal. lia.
Qed.

Lemma host_blocks t :
  0 < local_world_size t ->
  _get_host_level_devices t
  = inr (map (fun i => take (Z.to_nat (local_world_size t))
                         (drop (i * Z.to_nat (local_world_size t)) (devices t)))
           (seq 0 (Z.to_nat (world_size t / local_world_size t)))).
Proof.
  intros Hl. unfold _get_host_level_devices.
  destruct (Z.eqb_spec (local_world_size t) 0) as [|_]; [lia|].
  f_equal. apply map_ext. intros i. by apply slice_block.
Qed.

(** X1.  With a positive host size, [_get_host_level_devices] returns
    [world_size // local_world_size] hosts of [local_world_size] devices
    each: device [k] of host [i] is the device at position
    [i * local_world_size + k] of the topology.  Together the hosts are the
    first [num_hosts * local_world_size] devices in topology order, so the
    [world_size mod local_world_size] devices at the end belong to no host. *)
Theorem host_level_devices_blocks t :
  0 < local_world_size t ->
  exists hosts,
    _get_host_level_devices t = inr hosts /\
    length hosts = Z.to_nat (world_size t / local_world_size t) /\
    (forall (i : nat) l, hosts !! i = Some l ->
       length l = Z.to_nat (local_world_size t) /\
       forall k : nat, (k < Z.to_nat (local_world_size t))%nat ->
         l !! k = devices t !! (i * Z.to_nat (local_world_size t) + k)%nat) /\
    concat hosts
    = take (Z.to_nat (world_size t / local_world_size t)
            * Z.to_nat (local_world_size t)) (devices t).
Proof.
  intros Hl. eexists. split; [by apply host_blocks|].
  set (k := Z.to_nat (local_world_size t)).
  set (n := Z.to_nat (world_size t / local_world_size t)).
  assert (n * k <= length (devices t))%nat as Hnk.
  { unfold n, k, world_size.
    pose proof (Z.mul_div_le (Z.of_nat (length (devices t))) _ Hl).
    pose proof (Z.div_pos (Z.of_nat (length (devices t))) _ ltac:(lia) Hl).
    nia. }
  split_and!.
  - by rewrite length_map, length_seq.
  - intros i l Hi. rewrite list_lookup_fmap in Hi.
    destruct (seq 0 n !! i) as [i'|] eqn:Hs; [|done].
    apply lookup_seq in Hs as [-> Hlt]. injection Hi as <-. cbn [Nat.add].
    split.
    + rewrite length_take, length_drop. nia.
    + intros j Hj. by rewrite lookup_take_lt, lookup_drop.
  - apply concat_blocks.
Qed.

Lemma host_level_devices_blocks_witness :
  exists hosts,
    _get_host_level_devices ex_topology = inr hosts /\
    length hosts = Z.to_nat (world_size ex_topology / local_world_size ex_topology) /\
    (forall (i : nat) l, hosts !! i = Some l ->
       length l = Z.to_nat (local_world_size ex_topology) /\
       forall k : nat, (k < Z.to_nat (local_world_size ex_topology))%nat ->
         l !! k
         = devices ex_topology !! (i * Z.to_nat (local_world_size ex_topology) + k)%nat) /\
    concat hosts
    = take (Z.to_nat (world_size ex_topology / local_world_size ex_topology)
            * Z.to_nat (local_world_size ex_topology)) (devices ex_topology).
Proof. apply (host_level_devices_blocks ex_topology). reflexivity. Defined.

(** X2.  A host size of 0 makes [_get_host_level_devices] raise
    [ZeroDivisionError]; otherwise there is no host at all exactly when the
    host size is negative or larger than the number of devices, and then
    [_cohost_partition] fails for every group with the [PlannerError] that no
    host was found, without a change of state. *)
Theorem host_level_devices_none t :
  (local_world_size t = 0 -> _get_host_level_devices t = inl ZeroDivisionError) /\
  (local_world_size t <> 0 ->
   (_get_host_level_devices t = inr []
    <-> local_world_size t < 0 \/ world_size t < local_world_size t)) /\
  (forall g w, _cohost_partition g [] w = Raise (PlannerError (NoHostForGroup g)) w).
Proof.
  split_and!.
  - intros H0. unfold _get_host_level_devices. by rewrite H0.
  - intros Hne. unfold _get_host_level_devices.
    destruct (Z.eqb_spec (local_world_size t) 0) as [|_]; [done|].
    assert (0 <= world_size t) as Hws by (unfold world_size; lia).
    set (n := Z.to_nat (world_size t / local_world_size t)).
    assert (n = 0%nat <-> local_world_size t < 0 \/ world_size t < local_world_size t)
      as <-.
    { unfold n. destruct (Z.lt_trichotomy (local_world_size t) 0) as [Hn|[?|Hp]];
        [|done|].
      - split; [by left|intros _].
        assert (world_size t / local_world_size t <= 0); [|lia].
        pose proof (Z.div_mod (world_size t) _ Hne).
        pose proof (Z.mod_neg_bound (world_size t) _ Hn). nia.
      - destruct (Z.lt_ge_cases (world_size t) (local_world_size t)) as [Hlt|Hge].
        + rewrite Z.div_small by lia. split; [by right|done].
        + pose proof (Z.div_str_pos (world_size t) (local_world_size t)
                        ltac:(lia)). lia. }
    destruct n; [done|]. split; [|done]. rewrite seq_S, map_app.
    intros [=H]. by destruct (map _ _).
  - done.
Qed.

(** ** The exceptions of [partition] *)

Lemma raisable_Permutation lws devs devs' e :
  devs' ≡ₚ devs -> raisable lws devs' e -> raisable lws devs e.
Proof.
  intros Hp. destruct e; simpl; try done.
  - intros ->. by apply Permutation_nil_l in Hp.
  - intros [? Hne]. split; [done|]. intros ->. by apply Permutation_nil_r in Hp.
Qed.

Lemma device_shards_raisable table lws ss devs h e st :
  device_shards table lws ss devs h = Raise e st -> raisable lws devs e.
Proof.
  revert devs h st. induction ss as [|s ss IH]; intros devs h st; [done|].
  cbn [device_shards].
  destruct (Z.eqb_spec lws 0) as [Hz|Hz]; cbn [andb].
  - destruct devs as [|r devs]; cbn [is_nil negb]; [|by intros [= <- <-]].
    cbn. by intros [= <- <-].
  - pose proof (sort_devices_Permutation h lws devs) as Hp.
    destruct (first_fit _ _ _) as [r|].
    + destruct (device_shards _ _ _ _ _) as [d2 [ss2 h2]|e2 [ss2 h2]] eqn:E; [done|].
      intros [= <- <-]. eapply raisable_Permutation; [exact Hp|].
      by eapply IH.
    + destruct (largest_storage _ _) as [big|] eqn:Eb; intros [= <- <-]; [done|].
      simpl. destruct (sort_devices h lws devs) eqn:Es; [|done].
      by apply sort_devices_nil_inv in Es.
Qed.

Lemma _device_partition_raisable j devs lws w e w' :
  _device_partition j devs lws w = Raise e w' -> raisable lws devs e.
Proof.
  unfold _device_partition.
  destruct (device_shards _ _ _ _ _) as [d [ss h]|e2 [ss h]] eqn:E; [done|].
  intros [= <- <-]. by eapply device_shards_raisable.
Qed.

Lemma _uniform_partition_raisable sos devs w e w' :
  _uniform_partition sos devs w = Raise e w' ->
  (exists m, e = PlannerError m) \/ (exists m, e = RuntimeError m).
Proof.
  revert w. induction sos as [|j sos IH]; intros w; [done|].
  cbn [_uniform_partition].
  destruct (uniform_option j devs w) as [[] w1|e1 w1] eqn:E; [apply IH|].
  intros [= <- <-]. unfold uniform_option in E.
  destruct (negb _); [injection E as <- <-; right; by eexists|].
  destruct (uniform_shards _ _ _) as [[] [ss h]|e2 [ss h]] eqn:Eu; [done|].
  injection E as <- <-. apply uniform_shards_raise in Eu.
  destruct e2; try done. left. by eexists.
Qed.

Lemma cohost_options_raisable sos hd w e w' :
  cohost_options sos hd w = Raise e w' -> hd <> [] ->
  (exists m, e = PlannerError m) \/ (exists m, e = RuntimeError m).
Proof.
  revert hd w. induction sos as [|j sos IH]; intros hd w; [done|].
  cbn [cohost_options]. intros H Hne.
  destruct (String.eqb _ TABLE_ROW_WISE).
  - destruct (_uniform_partition [j] hd w) as [[] w1|e1 w1] eqn:E.
    + by eapply IH.
    + injection H as <- <-. by eapply _uniform_partition_raisable.
  - destruct (String.eqb _ TABLE_COLUMN_WISE).
    + destruct (_device_partition j hd _ w) as [hd1 w1|e1 w1] eqn:E.
      * eapply IH; [done|].
        pose proof (proj2 (_device_partition_effect j hd _ w) _ _ E) as Hp.
        intros ->. apply Permutation_nil_l in Hp. by subst.
      * injection H as <- <-. apply _device_partition_raisable in E.
        destruct e1; simpl in E; try done; try (left; by eexists);
          try (right; by eexists).
        destruct E as [E _]. destruct hd; [done|]. simpl in E. lia.
    + injection H as <- <-. right. by eexists.
Qed.

Lemma cohost_hosts_raisable g hosts w e w' :
  cohost_hosts g hosts w = Raise e w' -> Forall (fun l => l <> []) hosts ->
  (exists m, e = PlannerError m) \/ (exists m, e = RuntimeError m).
Proof.
  revert w. induction hosts as [|devs hosts IH]; intros w.
  - intros [= <- <-] _. left. by eexists.
  - cbn [cohost_hosts]. intros H Hne. apply Forall_cons in Hne as [Hd Hne].
    destruct (host_trial g devs w) as [w1|o] eqn:E; [by eapply IH|].
    subst o. unfold host_trial in E. cbn [deepcopy_devices] in E.
    destruct (negb _); [done|].
    destruct (cohost_options _ _ _) as [hd w2|e2 w2] eqn:Ec; [done|].
    apply cohost_options_raisable in Ec; [|by destruct devs].
    destruct e2; try done; by injection E as <- <-.
Qed.

Lemma grouping_nonempty p :
  Forall (fun g => sharding_options g <> [])
    (_group_and_sort_non_uniform_sharding_options p).
Proof.
  unfold _group_and_sort_non_uniform_sharding_options.
  rewrite (sort_groups_Permutation _), map_fmap.
  apply Forall_fmap. destruct (group_from_dict_ok p) as [Hg _].
  eapply Forall_impl; [exact Hg|]. by intros kg (_ & ? & _).
Qed.

Lemma partition_groups_raisable groups hosts sd lws w e w' :
  partition_groups groups hosts sd lws w = Raise e w' ->
  Forall (fun l => l <> []) hosts ->
  Forall (fun g => sharding_options g <> []) groups ->
  (exists n, e = AssertionError n /\ (2 <= n)%nat) \/ raisable lws sd e.
Proof.
  intros H Hh. revert sd w H.
  induction groups as [|g groups IH]; intros sd w H Hg; [done|].
  apply Forall_cons in Hg as [Hne Hg]. cbn [partition_groups] in H.
  destruct (sharding_options g) as [|j0 rest] eqn:Eg; [done|].
  destruct (String.eqb _ HOST).
  - destruct (_cohost_partition g hosts w) as [[] w1|e1 w1] eqn:E; [by eapply IH|].
    injection H as <- <-. unfold _cohost_partition in E.
    apply cohost_hosts_raisable in E as [[m ->]|[m ->]]; [by right|by right|].
    by rewrite (_sort_devices_by_perf_Permutation _ _).
  - destruct (String.eqb _ DEVICE); [|injection H as <- <-; by right].
    destruct (negb _) eqn:En.
    + injection H as <- <-. left. eexists. split; [done|].
      apply negb_true_iff, Nat.eqb_neq in En. simpl in *. lia.
    + destruct (_device_partition j0 sd lws w) as [sd1 w1|e1 w1] eqn:E.
      * pose proof (proj2 (_device_partition_effect j0 sd lws w) _ _ E) as Hp.
        destruct (IH _ _ H Hg) as [?|Hr]; [by left|right].
        by eapply raisable_Permutation.
      * injection H as <- <-. right. by eapply _device_partition_raisable.
Qed.

Lemma partition_raisable tc w e w' :
  partition tc w = Raise e w' ->
  (e = ZeroDivisionError /\ local_world_size tc = 0) \/
  (local_world_size tc <> 0 /\
   ((exists n, e = AssertionError n /\ (2 <= n)%nat) \/
    raisable (local_world_size tc) (devices tc) e)).
Proof.
  rewrite partition_unfold. cbv zeta.
  destruct (_get_host_level_devices _) as [e0|hosts] eqn:Eh.
  - intros [= <- <-]. left. unfold _get_host_level_devices in Eh.
    cbn [local_world_size] in Eh.
    destruct (Z.eqb_spec (local_world_size tc) 0); [|done]. by injection Eh as <-.
  - assert (local_world_size tc <> 0) as Hne.
    { unfold _get_host_level_devices in Eh. cbn [local_world_size] in Eh.
      by destruct (Z.eqb_spec (local_world_size tc) 0). }
    intros H. right. split; [done|].
    destruct (_uniform_partition _ _ _) as [[] w2|e2 w2] eqn:Eu.
    + destruct (partition_groups _ _ _ _ _) as [sd w3|e3 w3] eqn:Eg; [done|].
      injection H as <- <-.
      apply partition_groups_raisable in Eg as [?|Hr]; [by left| |..].
      * right. cbn [devices] in Hr. destruct e3; simpl in *; try done.
        -- destruct (devices tc); [done|]. by apply (f_equal length) in Hr.
        -- by destruct Hr.
      * apply _get_host_level_devices_lengths in Eh.
        eapply Forall_impl; [exact Eh|]. by intros l [_ ?].
      * apply grouping_nonempty.
    + injection H as <- <-.
      apply _uniform_partition_raisable in Eu as [[m ->]|[m ->]]; by right.
Qed.

(** X3.  [partition] raises [ZeroDivisionError] exactly when the host size
    [local_world_size] of the topology is 0, and then it does so in
    [_get_host_level_devices], before any option is looked at: the proposal
    is as it was. *)
Theorem partition_zero_division tc w :
  (local_world_size tc = 0 ->
   partition tc w
   = Raise ZeroDivisionError
       (mkWorld (heap_of w ++ map (fun r => heap_of w !!! r) (devices tc))
          (proposal w))) /\
  (forall w', partition tc w = Raise ZeroDivisionError w' ->
              local_world_size tc = 0).
Proof.
  split.
  - intros H0. rewrite partition_unfold. cbv zeta.
    unfold _get_host_level_devices. cbn [local_world_size]. by rewrite H0.
  - intros w' H. apply partition_raisable in H as [[_ ?]|[_ [(n & ? & _)|Hr]]];
      [done|done|]. by destruct Hr.
Qed.

(** X4.  Whatever [partition] raises, it is no [IndexError] (a group is never
    empty, so [sharding_options[0]] exists); a [ValueError], which comes from
    [max] over the devices in the error path of [_device_partition], is only
    raised for a topology without devices; and the assertion on a
    device-scoped group only fails for a group of two or more options. *)
Theorem partition_exceptions tc w e w' :
  partition tc w = Raise e w' ->
  e <> IndexError /\
  (e = ValueError -> devices tc = []) /\
  (forall n, e = AssertionError n -> (2 <= n)%nat).
Proof.
  intros H. apply partition_raisable in H as [[-> _]|[_ [(n & -> & Hn)|Hr]]].
  - split_and!; done.
  - split_and!; [done|done|]. by intros ? [= <-].
  - by destruct e; simpl in Hr; split_and!; try done; destruct Hr.
Qed.

Lemma partition_exceptions_witness :
  AssertionError 2 <> IndexError /\
  (AssertionError 2 = ValueError -> devices ex_host_topology = []) /\
  (forall n, AssertionError 2 = AssertionError n -> (2 <= n)%nat).
Proof.
  apply (partition_exceptions ex_host_topology ex_shared (AssertionError 2)
           (mkWorld (ex_host_heap ++ ex_host_heap) (proposal ex_shared))).
  reflexivity.
Defined.

(** ** Order of the hosts and split of the proposal *)

Lemma stable_sort_sorted_id {A} (lt : A -> A -> bool) (l : list A) :
  StronglySorted (fun a b => lt b a = false) l -> stable_sort lt l = l.
Proof.
  induction l as [|x l IH]; [done|].
  intros [Hs Hx]%StronglySorted_inv. cbn [stable_sort foldr].
  change (foldr (insert_stable lt) [] l) with (stable_sort lt l).
  rewrite IH by done. destruct l as [|y l]; [done|].
  apply Forall_cons in Hx as [Hy _]. simpl. by rewrite Hy.
Qed.

(** X5.  [_sort_devices_by_perf] is stable: two hosts of equal perf sum come
    out in the order in which they went in; and a list of hosts that is
    already in ascending order of perf sum, as on a topology on which nothing
    was placed yet, is returned as it is. *)
Theorem sort_devices_by_perf_stable h hosts :
  (forall h1 h2,
     [h1; h2] `sublist_of` _sort_devices_by_perf h hosts ->
     (_get_perf_sum h h1 == _get_perf_sum h h2)%Q ->
     [h1; h2] `sublist_of` hosts) /\
  (StronglySorted (fun a b => (_get_perf_sum h a <= _get_perf_sum h b)%Q) hosts ->
   _sort_devices_by_perf h hosts = hosts).
Proof.
  unfold _sort_devices_by_perf.
  set (lt := fun y x : list ref => Qltb (_get_perf_sum h y) (_get_perf_sum h x)).
  split.
  - intros h1 h2 Hs Heq.
    assert (tied lt h1 h1 = true) as T1.
    { unfold tied, lt. rewrite (proj2 (Qltb_false _ _)); [done|apply Qle_refl]. }
    assert (tied lt h1 h2 = true) as T2.
    { unfold tied, lt.
      rewrite (proj2 (Qltb_false _ _)), (proj2 (Qltb_false _ _)); [done|lra|lra]. }
    apply (sublist_filter_mono (fun y => tied lt h1 y = true)) in Hs.
    rewrite !filter_cons, decide_True, decide_True in Hs by done.
    rewrite filter_nil in Hs.
    rewrite stable_sort_tied in Hs.
    + etransitivity; [exact Hs|]. apply sublist_filter.
    + intros x y z. unfold lt. rewrite !Qltb_false. lra.
  - intros Hs. apply stable_sort_sorted_id.
    eapply StronglySorted_weaken; [|exact Hs].
    intros a b Hab. unfold lt. by apply Qltb_false.
Qed.

(** X6.  [_get_uniform_sharding_options] returns exactly the options whose
    [partition_by] is uniform, in the order of the proposal, and together
    with the members of the groups of
    [_group_and_sort_non_uniform_sharding_options] they are all the options
    of the proposal, each once: [partition] hands every option to exactly one
    packer call. *)
Theorem options_split p :
  _get_uniform_sharding_options p
  = filter (fun j => partition_by (p !!! j) = UNIFORM) (seq 0 (length p)) /\
  _get_uniform_sharding_options p
    ++ concat (map sharding_options (_group_and_sort_non_uniform_sharding_options p))
  ≡ₚ seq 0 (length p).
Proof.
  split.
  - apply (uniform_from_spec p [] p). done.
  - apply grouping_covers.
Qed.

(** ** What [partition] writes *)

Lemma clear_rank_Forall2 ss ss' :
  map clear_rank ss' = map clear_rank ss ->
  Forall2 (fun s s' => s_storage s' = s_storage s /\ s_perf s' = s_perf s) ss ss'.
Proof.
  revert ss'. induction ss as [|s ss IH]; intros [|s' ss']; try done.
  intros [= H1 H2 H3]. constructor; [done|by apply IH].
Qed.

Lemma same_shape_Forall2 p p' :
  reset_shard_rank p' = reset_shard_rank p ->
  Forall2 (fun so so' =>
             name so' = name so /\ fqn so' = fqn so /\
             dependency so' = dependency so /\
             partition_by so' = partition_by so /\
             sharding_type so' = sharding_type so /\
             Forall2 (fun s s' => s_storage s' = s_storage s /\ s_perf s' = s_perf s)
               (shards so) (shards so')) p p'.
Proof.
  unfold reset_shard_rank. revert p'.
  induction p as [|so p IH]; intros [|so' p']; try done.
  intros [= H1 H2 H3 H4 H5 H6 H7]. constructor; [|by apply IH].
  split_and!; try done. by apply clear_rank_Forall2.
Qed.

(** X7.  Of the proposal, [partition] writes nothing but the ranks of the
    shards, whether it returns or raises: afterwards the proposal has the
    same options in the same order, each with its name, fqn, dependency,
    strategy and sharding type and with the same shards, of the same storage
    and perf. *)
Theorem partition_writes_ranks_only tc w :
  Forall2 (fun so so' =>
             name so' = name so /\ fqn so' = fqn so /\
             dependency so' = dependency so /\
             partition_by so' = partition_by so /\
             sharding_type so' = sharding_type so /\
             Forall2 (fun s s' => s_storage s' = s_storage s /\ s_perf s' = s_perf s)
               (shards so) (shards so'))
    (proposal w) (proposal (state_of (partition tc w))).
Proof.
  apply same_shape_Forall2.
  pose proof (partition_effect tc w) as He.
  by destruct He as (_ & _ & _ & _ & _ & He).
Qed.

(** ** A returned plan is complete *)

Lemma uniform_shards_ranks ss devs h ss' h' :
  uniform_shards ss devs h = Ok tt (ss', h') -> length ss = length devs ->
  Forall2 (fun s r => s_rank s = Some (rank (h !!! r))) ss' devs.
Proof.
  revert devs h ss' h'.
  induction ss as [|s ss IH]; intros [|r devs] h ss' h'; try done.
  - intros [= <- <-] _. constructor.
  - cbn [uniform_shards]. destruct (fits_in _ _); [|done].
    destruct (uniform_shards ss devs _) as [[] [ss2 h2]|e [ss2 h2]] eqn:E; [|done].
    intros [= <- <-] [= Hlen]. constructor; [done|].
    eapply Forall2_impl; [by eapply IH|].
    intros s' r' ->. cbv beta. by rewrite rank_insert_assign.
Qed.

Lemma device_shards_ranks table lws ss devs h devs' ss' h' :
  device_shards table lws ss devs h = Ok devs' (ss', h') ->
  ranks_within h devs ss'.
Proof.
  revert devs h devs' ss' h'. induction ss as [|s ss IH]; intros devs h devs' ss' h'.
  - intros [= <- <- <-]. constructor.
  - cbn [device_shards]. destruct (_ && _); [done|].
    destruct (first_fit _ _ _) as [r|] eqn:Ef;
      [|by destruct (largest_storage _ _)].
    destruct (device_shards _ _ _ _ _) as [d2 [ss2 h2]|e [ss2 h2]] eqn:E; [|done].
    intros [= <- <- <-]. apply first_fit_elem_of in Ef as [Hr _].
    apply sort_devices_elem_of in Hr. constructor; [by exists r|].
    eapply ranks_within_transport; [|by eapply IH].
    intros r' Hr'. apply sort_devices_elem_of in Hr'. split; [done|].
    by rewrite rank_insert_assign.
Qed.

Lemma uniform_option_ranks j devs w w' :
  uniform_option j devs w = Ok tt w' -> (j < length (proposal w))%nat ->
  ranks_within (heap_of w) devs (shards (proposal w' !!! j)).
Proof.
  unfold uniform_option. intros H Hj.
  destruct (negb _) eqn:En; [done|].
  apply negb_false_iff, Nat.eqb_eq in En.
  destruct (uniform_shards _ _ _) as [[] [ss h]|e [ss h]] eqn:E; [|done].
  injection H as <-. cbn [proposal]. rewrite put_shards_shards by done.
  apply Forall2_ranks_within. by eapply uniform_shards_ranks.
Qed.

Lemma _device_partition_ranks j devs lws w devs' w' :
  _device_partition j devs lws w = Ok devs' w' -> (j < length (proposal w))%nat ->
  ranks_within (heap_of w) devs (shards (proposal w' !!! j)).
Proof.
  unfold _device_partition. intros H Hj.
  destruct (device_shards _ _ _ _ _) as [d [ss h]|e [ss h]] eqn:E; [|done].
  injection H as <- <-. cbn [proposal]. rewrite put_shards_shards by done.
  by eapply device_shards_ranks.
Qed.

(** A later run keeps the ranks of the options it does not work on, and no
    run changes the rank of a device. *)
Lemma ranks_within_heap devs M w w' D ss :
  effect devs M w w' -> allocated (heap_of w) D ->
  ranks_within (heap_of w) D ss -> ranks_within (heap_of w') D ss.
Proof.
  intros He Ha. apply ranks_within_transport. intros r Hr. split; [done|].
  by eapply effect_rank_at.
Qed.

Lemma ranks_within_keep devs M w w' D j :
  effect devs M w w' -> allocated (heap_of w) D -> j ∉ M ->
  ranks_within (heap_of w) D (shards (proposal w !!! j)) ->
  ranks_within (heap_of w') D (shards (proposal w' !!! j)).
Proof.
  intros He Ha Hj H. rewrite (effect_lookup_total _ _ _ _ _ He Hj).
  by eapply ranks_within_heap.
Qed.

Lemma ranks_within_subseteq h devs D ss :
  devs ⊆ D -> ranks_within h devs ss -> ranks_within h D ss.
Proof.
  intros Hs. apply ranks_within_transport. intros r Hr. split; [by apply Hs|done].
Qed.

Lemma _uniform_partition_ranks D sos devs w w' :
  _uniform_partition sos devs w = Ok tt w' ->
  NoDup sos -> indices_ok (proposal w) sos ->
  allocated (heap_of w) D -> devs ⊆ D ->
  forall j, j ∈ sos -> ranks_within (heap_of w') D (shards (proposal w' !!! j)).
Proof.
  revert w. induction sos as [|j0 sos IH]; intros w H Hnd Hi Ha Hs j Hj.
  { by apply elem_of_nil in Hj. }
  cbn [_uniform_partition] in H.
  destruct (uniform_option j0 devs w) as [[] w1|e w1] eqn:E; [|done].
  apply NoDup_cons in Hnd as [Hj0 Hnd]. apply Forall_cons in Hi as [Hlt Hi].
  pose proof (uniform_option_effect j0 devs w) as He. rewrite E in He. simpl in He.
  pose proof (_uniform_partition_effect sos devs w1) as He'.
  rewrite H in He'. simpl in He'.
  pose proof (effect_allocated _ _ _ _ _ He Ha) as Ha1.
  destruct (decide (j ∈ sos)) as [Hin|Hnin].
  - eapply IH; try done. by eapply effect_indices_ok.
  - apply elem_of_cons in Hj as [->|?]; [|done].
    eapply ranks_within_keep; [exact He'|done|done|].
    eapply ranks_within_heap; [exact He|done|].
    eapply ranks_within_subseteq; [done|]. by apply uniform_option_ranks.
Qed.

Lemma cohost_options_ranks D sos hd w hd' w' :
  cohost_options sos hd w = Ok hd' w' ->
  NoDup sos -> indices_ok (proposal w) sos ->
  allocated (heap_of w) D -> hd ⊆ D ->
  forall j, j ∈ sos -> ranks_within (heap_of w') D (shards (proposal w' !!! j)).
Proof.
  revert hd w. induction sos as [|j0 sos IH]; intros hd w H Hnd Hi Ha Hs j Hj.
  { by apply elem_of_nil in Hj. }
  apply NoDup_cons in Hnd as [Hj0 Hnd].
  pose proof Hi as Hi0. apply Forall_cons in Hi as [Hlt Hi].
  cbn [cohost_options] in H.
  assert (forall hd1 w1,
            effect hd [j0] w w1 -> hd1 ⊆ D ->
            ranks_within (heap_of w1) D (shards (proposal w1 !!! j0)) ->
            cohost_options sos hd1 w1 = Ok hd' w' ->
            ranks_within (heap_of w') D (shards (proposal w' !!! j))) as Hstep.
  { intros hd1 w1 He Hs1 Hr H1.
    pose proof (effect_allocated _ _ _ _ _ He Ha) as Ha1.
    destruct (decide (j ∈ sos)) as [Hin|Hnin].
    - eapply (IH hd1 w1); try done. by eapply effect_indices_ok.
    - apply elem_of_cons in Hj as [->|?]; [|done].
      pose proof (proj1 (cohost_options_effect sos hd1 w1)) as He'.
      rewrite H1 in He'. simpl in He'.
      by eapply ranks_within_keep. }
  destruct (String.eqb _ TABLE_ROW_WISE).
  - destruct (_uniform_partition [j0] hd w) as [[] w1|e w1] eqn:E; [|done].
    pose proof (_uniform_partition_effect [j0] hd w) as He.
    rewrite E in He. simpl in He.
    eapply Hstep; [exact He|done| |exact H].
    eapply (_uniform_partition_ranks D [j0] hd w w1); try done.
    + apply NoDup_singleton.
    + by apply Forall_singleton.
    + by apply list_elem_of_singleton.
  - destruct (String.eqb _ TABLE_COLUMN_WISE); [|done].
    destruct (_device_partition j0 hd _ w) as [hd1 w1|e w1] eqn:E; [|done].
    pose proof (_device_partition_effect j0 hd (Z.of_nat (length hd)) w) as [He Hp].
    rewrite E in He. simpl in He. specialize (Hp _ _ E).
    eapply Hstep; [exact He| | |exact H].
    + intros x Hx. apply Hs. by rewrite <- Hp.
    + eapply ranks_within_heap; [exact He|done|].
      eapply ranks_within_subseteq; [done|]. by eapply _device_partition_ranks.
Qed.

(** What the trial of a host leaves behind: when the host is left for the
    next one, or the trial ends with an exception, nothing but the trial
    copies and the ranks of the shards of the group; when the host is
    committed, also the devices of that host. *)
Lemma host_trial_effect g devs w :
  match host_trial g devs w with
  | NextHost w1 => effect [] (sharding_options g) w w1
  | Done (Ok _ w1) => effect devs (sharding_options g) w w1
  | Done (Raise _ w1) => effect [] (sharding_options g) w w1
  end.
Proof.
  unfold host_trial. cbn [deepcopy_devices].
  set (w1 := mkWorld (heap_of w ++ map (fun r => heap_of w !!! r) devs) (proposal w)).
  pose proof (deepcopy_effect devs w) as He1. fold w1 in He1.
  destruct (negb _).
  { eapply effect_weaken; [| |exact He1]; [done|].
    intros x Hx; by apply elem_of_nil in Hx. }
  pose proof (proj1 (cohost_options_effect (sharding_options g)
                       (seq (length (heap_of w)) (length devs)) w1)) as He2.
  assert (forall w2, effect (seq (length (heap_of w)) (length devs))
                       (sharding_options g) w1 w2 ->
                     effect [] (sharding_options g) w w2) as Hfresh.
  { intros w2 H. eapply effect_fresh; [exact He1|exact H|]. apply seq_fresh. }
  destruct (cohost_options _ _ w1) as [hd' w2|e w2]; simpl in He2.
  - eapply effect_trans.
    + eapply effect_weaken; [| |by apply Hfresh]; [|done].
      intros x Hx; by apply elem_of_nil in Hx.
    + eapply effect_weaken; [| |apply copy_back_effect]; [done|].
      intros x Hx; by apply elem_of_nil in Hx.
  - destruct e; by apply Hfresh.
Qed.

Lemma host_trial_ranks g devs w w' :
  host_trial g devs w = Done (Ok tt w') ->
  NoDup (sharding_options g) -> indices_ok (proposal w) (sharding_options g) ->
  allocated (heap_of w) devs ->
  forall j, j ∈ sharding_options g ->
            ranks_within (heap_of w') devs (shards (proposal w' !!! j)).
Proof.
  unfold host_trial. cbn [deepcopy_devices].
  set (h := heap_of w). set (T := seq (length h) (length devs)).
  set (w1 := mkWorld (h ++ map (fun r => h !!! r) devs) (proposal w)).
  intros H Hnd Hi Ha j Hj. destruct (negb _); [done|].
  destruct (cohost_options _ T w1) as [hd' w2|e w2] eqn:E; [|by destruct e].
  injection H as <-. cbn [heap_of proposal].
  assert (allocated (heap_of w1) T) as HaT.
  { apply Forall_forall. intros r Hr. apply elem_of_seq in Hr.
    unfold w1. cbn [heap_of]. rewrite length_app, length_map. lia. }
  pose proof (proj1 (cohost_options_effect (sharding_options g) T w1)) as He.
  rewrite E in He. simpl in He.
  pose proof (cohost_options_ranks T _ T w1 hd' w2 E Hnd Hi HaT ltac:(done) j Hj)
    as Hr.
  eapply ranks_within_move; [|exact Hr].
  intros r Hin. apply elem_of_seq in Hin.
  destruct (lookup_lt_is_Some_2 devs (r - length h)) as [r' Hr']; [lia|].
  exists r'. split; [by eapply list_elem_of_lookup_2|].
  assert (r' < length h)%nat as Hlt.
  { eapply Forall_forall in Ha; [exact Ha|]. by eapply list_elem_of_lookup_2. }
  rewrite (proj2 (proj2 (copy_back_frame _ _ _))).
  destruct He as (_ & _ & Hrk & _).
  rewrite !Hrk by (unfold w1; cbn [heap_of]; rewrite length_app, length_map; lia).
  unfold w1. cbn [heap_of].
  rewrite lookup_total_app_l by done.
  pose proof (deepcopy_lookup h devs _ _ Hr') as Hc.
  replace (length h + (r - length h))%nat with r in Hc by lia.
  by rewrite Hc.
Qed.

Lemma cohost_hosts_ranks D g hosts w w' :
  cohost_hosts g hosts w = Ok tt w' ->
  NoDup (sharding_options g) -> indices_ok (proposal w) (sharding_options g) ->
  allocated (heap_of w) D -> Forall (fun devs => devs ⊆ D) hosts ->
  forall j, j ∈ sharding_options g ->
            ranks_within (heap_of w') D (shards (proposal w' !!! j)).
Proof.
  revert w. induction hosts as [|devs hosts IH]; intros w H Hnd Hi Ha Hs j Hj;
    [done|].
  cbn [cohost_hosts] in H. apply Forall_cons in Hs as [Hd Hs].
  pose proof (host_trial_effect g devs w) as He.
  destruct (host_trial g devs w) as [w1|o] eqn:E.
  - eapply IH; try done; [by eapply effect_indices_ok|by eapply effect_allocated].
  - subst o. eapply ranks_within_subseteq; [exact Hd|].
    eapply host_trial_ranks; try done. by eapply allocated_subseteq.
Qed.

Lemma partition_groups_ranks D groups hosts sd lws w sd' w' :
  partition_groups groups hosts sd lws w = Ok sd' w' ->
  NoDup (members groups) -> indices_ok (proposal w) (members groups) ->
  allocated (heap_of w) D -> sd ⊆ D -> Forall (fun devs => devs ⊆ D) hosts ->
  forall j, j ∈ members groups ->
            ranks_within (heap_of w') D (shards (proposal w' !!! j)).
Proof.
  revert sd w. induction groups as [|g groups IH]; intros sd w H Hnd Hi Ha Hsd Hh j Hj.
  { by apply elem_of_nil in Hj. }
  rewrite members_cons in *. apply NoDup_app in Hnd as (Hnd1 & Hdisj & Hnd2).
  apply Forall_app in Hi as [Hi1 Hi2].
  assert (forall sd1 w1,
            effect D (sharding_options g) w w1 -> sd1 ⊆ D ->
            (forall j, j ∈ sharding_options g ->
               ranks_within (heap_of w1) D (shards (proposal w1 !!! j))) ->
            partition_groups groups hosts sd1 lws w1 = Ok sd' w' ->
            ranks_within (heap_of w') D (shards (proposal w' !!! j))) as Hstep.
  { intros sd1 w1 He Hs1 Hr H1.
    pose proof (effect_allocated _ _ _ _ _ He Ha) as Ha1.
    apply elem_of_app in Hj as [Hin|Hin].
    - pose proof (proj1 (partition_groups_effect D groups hosts sd1 lws w1 Hs1
                           ltac:(by apply concat_subseteq))) as He'.
      rewrite H1 in He'. simpl in He'.
      eapply ranks_within_keep; [exact He'|done|by apply Hdisj|by apply Hr].
    - eapply (IH sd1 w1); try done. by eapply effect_indices_ok. }
  cbn [partition_groups] in H.
  destruct (sharding_options g) as [|j0 rest] eqn:Eg; [done|].
  destruct (String.eqb _ HOST).
  - destruct (_cohost_partition g hosts w) as [[] w1|e w1] eqn:E; [|done].
    pose proof (_cohost_partition_effect g hosts w) as He.
    rewrite E in He. simpl in He. rewrite Eg in He.
    eapply Hstep; [|exact Hsd| |exact H].
    + eapply effect_weaken; [| |exact He]; [by apply concat_subseteq|done].
    + unfold _cohost_partition in E. rewrite <- Eg.
      eapply cohost_hosts_ranks; try done; rewrite ?Eg; try done.
      by rewrite (_sort_devices_by_perf_Permutation _ _).
  - destruct (String.eqb _ DEVICE); [|done]. destruct (negb _) eqn:En; [done|].
    apply negb_false_iff, Nat.eqb_eq in En. destruct rest; [|done].
    destruct (_device_partition j0 sd lws w) as [sd1 w1|e w1] eqn:E; [|done].
    pose proof (_device_partition_effect j0 sd lws w) as [He Hp].
    rewrite E in He. simpl in He. specialize (Hp _ _ E).
    apply Forall_inv in Hi1.
    eapply Hstep; [| | |exact H].
    + eapply effect_weaken; [| |exact He]; done.
    + intros x Hx. apply Hsd. by rewrite <- Hp.
    + intros j' ->%list_elem_of_singleton.
      eapply ranks_within_heap; [exact He|done|].
      eapply ranks_within_subseteq; [done|]. by eapply _device_partition_ranks.
Qed.

Lemma _get_host_level_devices_subseteq t hosts :
  _get_host_level_devices t = inr hosts ->
  Forall (fun devs => devs ⊆ devices t) hosts.
Proof.
  unfold _get_host_level_devices. destruct (_ =? 0); [done|].
  intros [= <-]. rewrite map_fmap. apply Forall_fmap, Forall_forall.
  intros i _. apply slice_subseteq.
Qed.

Lemma partition_ranks tc w topo w' :
  partition tc w = Ok topo w' ->
  forall j, (j < length (proposal w'))%nat ->
    ranks_within (heap_of w') (devices topo) (shards (proposal w' !!! j)).
Proof.
  unfold partition. cbn [deepcopy_devices].
  set (D := seq (length (heap_of w)) (length (devices tc))).
  set (w1 := mkWorld _ (proposal w)).
  destruct (_get_host_level_devices _) as [e|hosts] eqn:Eh; [done|].
  cbn [devices local_world_size proposal].
  destruct (grouping_indices (proposal w)) as (HU & HG & HndU & HndG & Hdisj).
  pose proof (_uniform_partition_effect
                (_get_uniform_sharding_options (proposal w)) D w1) as He.
  destruct (_uniform_partition _ D w1) as [[] w2|e w2] eqn:EU; [|done].
  simpl in He.
  assert (_group_and_sort_non_uniform_sharding_options (proposal w2)
          = _group_and_sort_non_uniform_sharding_options (proposal w)) as ->.
  { apply grouping_same_shape. by destruct He as (_ & _ & _ & _ & _ & S). }
  destruct (partition_groups _ hosts D _ w2) as [sd' w3|e w3] eqn:EG; [|done].
  intros [= <- <-] j Hj. cbn [devices].
  assert (allocated (heap_of w1) D) as Hal1.
  { apply Forall_forall. intros r Hr%elem_of_seq. unfold w1. simpl.
    rewrite length_app, length_map. lia. }
  pose proof (effect_allocated _ _ _ _ _ He Hal1) as Hal2.
  assert (Forall (fun devs => devs ⊆ D) hosts) as HhD.
  { by apply _get_host_level_devices_subseteq in Eh. }
  pose proof (partition_groups_effect D
                (_group_and_sort_non_uniform_sharding_options (proposal w))
                hosts D (local_world_size tc) w2) as [He2 _];
    [done|by apply concat_subseteq|].
  rewrite EG in He2. simpl in He2.
  assert (length (proposal w3) = length (proposal w)) as Hlen.
  { destruct He2 as (_ & _ & _ & -> & _). by destruct He as (_ & _ & _ & -> & _). }
  assert (j ∈ _get_uniform_sharding_options (proposal w)
                ++ members (_group_and_sort_non_uniform_sharding_options (proposal w)))
    as Hin.
  { rewrite (grouping_covers (proposal w)). apply elem_of_seq. lia. }
  apply elem_of_app in Hin as [Hin|Hin].
  - eapply ranks_within_keep; [exact He2|done|by apply Hdisj|].
    eapply (_uniform_partition_ranks D _ D w1 w2 EU); try done.
    by apply indices_ok_seq.
  - eapply (partition_groups_ranks D _ hosts D _ w2 sd' w3 EG); try done.
    apply indices_ok_seq. by destruct He as (_ & _ & _ & -> & _).
Qed.

Lemma partition_plan_ranks tc w topo w' :
  partition tc w = Ok topo w' ->
  forall so s, so ∈ proposal w' -> s ∈ shards so ->
    exists r0, r0 ∈ devices tc /\ s_rank s = Some (rank (heap_of w !!! r0)).
Proof.
  intros H so s Hso Hs.
  apply list_elem_of_lookup in Hso as [j Hj].
  pose proof (lookup_lt_Some _ _ _ Hj) as Hlt.
  pose proof (partition_ranks _ _ _ _ H j Hlt) as Hr.
  rewrite (list_lookup_total_correct _ _ _ Hj) in Hr.
  eapply Forall_forall in Hr as (r & Hin & ->); [|done].
  destruct (partition_working_copy _ _ _ _ H) as (Hd & _ & Hrk).
  rewrite Hd in Hin. apply elem_of_seq in Hin.
  destruct (lookup_lt_is_Some_2 (devices tc) (r - length (heap_of w)))
    as [r0 Hr0]; [lia|].
  exists r0. split; [by eapply list_elem_of_lookup_2|].
  rewrite <- (Hrk _ _ Hr0). do 3 f_equal. lia.
Qed.

(** X8.  The plan of a successful [partition] is complete: every shard of
    every option of the proposal carries a rank, and that rank is the rank of
    a device of the topology the caller passed. *)
Theorem partition_plan_complete tc w topo w' :
  partition tc w = Ok topo w' ->
  forall so s, so ∈ proposal w' -> s ∈ shards so ->
    exists r0, r0 ∈ devices tc /\ s_rank s = Some (rank (heap_of w !!! r0)).
Proof. apply partition_plan_ranks. Qed.

Lemma partition_plan_complete_witness :
  exists r0, r0 ∈ devices ex_topology /\
    s_rank (shards (proposal ex_final !!! 1%nat) !!! 0%nat)
    = Some (rank (heap_of ex_world !!! r0)).
Proof.
  apply (partition_plan_complete ex_topology ex_world ex_working ex_final)
    with (so := proposal ex_final !!! 1%nat).
  - vm_compute. reflexivity.
  - apply (list_elem_of_lookup_2 _ 1%nat). reflexivity.
  - apply (list_elem_of_lookup_2 _ 0%nat). reflexivity.
Defined.

(** ** The co-host packer works on copies *)

Lemma cohost_hosts_frame g hosts w :
  match cohost_hosts g hosts w with
  | Raise _ w' => effect [] (sharding_options g) w w'
  | Ok _ w' => exists devs, devs ∈ hosts /\ effect devs (sharding_options g) w w'
  end.
Proof.
  revert w. induction hosts as [|devs hosts IH]; intros w; cbn [cohost_hosts].
  { apply effect_refl. }
  pose proof (host_trial_effect g devs w) as He.
  destruct (host_trial g devs w) as [w1|[[] w1|e w1]].
  - specialize (IH w1). destruct (cohost_hosts g hosts w1) as [[] w'|e w'].
    + destruct IH as (devs' & Hin & He'). exists devs'. split; [by right|].
      eapply effect_trans; [|exact He'].
      eapply effect_weaken; [| |exact He]; [|done].
      intros x Hx; by apply elem_of_nil in Hx.
    + by eapply effect_trans.
  - exists devs. split; [by left|done].
  - done.
Qed.

(** X9.  A co-host placement that fails consumes nothing: when
    [_cohost_partition] raises, whether the [PlannerError] that no host was
    found or a structural fault, every device object that existed before the
    call is as it was, since all the trials ran on copies that were never
    copied back. *)
Theorem cohost_partition_failure_keeps_devices g hosts w e w' :
  _cohost_partition g hosts w = Raise e w' ->
  forall r, (r < length (heap_of w))%nat -> heap_of w' !! r = heap_of w !! r.
Proof.
  unfold _cohost_partition. intros H r Hr.
  pose proof (cohost_hosts_frame g (_sort_devices_by_perf (heap_of w) hosts) w) as He.
  rewrite H in He. destruct He as (_ & Hf & _). apply Hf; [done|].
  intros Hx; by apply elem_of_nil in Hx.
Qed.

Lemma cohost_partition_failure_keeps_devices_witness :
  exists e w',
    _cohost_partition (mkGroup [0%nat] (mkStorage 50 0)) [[0; 1]%nat] (ex_bad_type 50)
    = Raise e w' /\
    forall r, (r < length (heap_of (ex_bad_type 50)))%nat ->
              heap_of w' !! r = heap_of (ex_bad_type 50) !! r.
Proof.
  eexists _, _. split; [vm_compute; reflexivity|].
  eapply (cohost_partition_failure_keeps_devices
            (mkGroup [0%nat] (mkStorage 50 0)) [[0; 1]%nat] (ex_bad_type 50)).
  vm_compute. reflexivity.
Defined.

(** X10.  A co-host placement that succeeds changes the devices of one host
    only: there is a host of [_host_level_devices] such that every device
    object outside that host is as it was before the call. *)
Theorem cohost_partition_touches_one_host g hosts w w' :
  _cohost_partition g hosts w = Ok tt w' ->
  exists devs, devs ∈ hosts /\
    forall r, (r < length (heap_of w))%nat -> r ∉ devs ->
              heap_of w' !! r = heap_of w !! r.
Proof.
  unfold _cohost_partition. intros H.
  pose proof (cohost_hosts_frame g (_sort_devices_by_perf (heap_of w) hosts) w) as He.
  rewrite H in He. destruct He as (devs & Hin & _ & Hf & _).
  exists devs. split; [|done].
  by rewrite (_sort_devices_by_perf_Permutation _ _) in Hin.
Qed.

Lemma cohost_partition_touches_one_host_witness :
  exists devs, devs ∈ [[0; 1]; [2; 3]]%nat /\
    forall r, (r < length (heap_of ex_world))%nat -> r ∉ devs ->
      heap_of (state_of (_cohost_partition (mkGroup [2; 3]%nat (mkStorage 7 0))
                           [[0; 1]; [2; 3]]%nat ex_world)) !! r
      = heap_of ex_world !! r.
Proof.
  apply (cohost_partition_touches_one_host (mkGroup [2; 3]%nat (mkStorage 7 0))
           [[0; 1]; [2; 3]]%nat ex_world).
  vm_compute. reflexivity.
Defined.

(** ** [set_hbm_per_device] *)

Lemma set_hbm_loop_length devs v (h : heap) :
  length (set_hbm_loop devs v h) = length h.
Proof.
  revert h. induction devs as [|r devs IH]; intros h; [done|].
  cbn [set_hbm_loop]. by rewrite IH, length_insert.
Qed.

Lemma set_hbm_loop_lookup devs v (h : heap) r :
  set_hbm_loop devs v h !! r
  = if decide (r ∈ devs)
    then (fun d => mkDevice (rank d) (mkStorage v (ddr (storage d))) (perf d))
           <$> h !! r
    else h !! r.
Proof.
  revert h. induction devs as [|r0 devs IH]; intros h; [done|].
  cbn [set_hbm_loop]. rewrite IH.
  destruct (decide (r = r0)) as [->|Hne].
  - rewrite (decide_True (P := r0 ∈ r0 :: devs)) by left.
    destruct (h !! r0) as [d|] eqn:Ed.
    + rewrite list_lookup_insert_eq by (by eapply lookup_lt_Some).
      rewrite (list_lookup_total_correct _ _ _ Ed). by destruct (decide _).
    + rewrite list_insert_ge by (by apply lookup_ge_None). rewrite Ed.
      by destruct (decide _).
  - rewrite list_lookup_insert_ne by done.
    destruct (decide (r ∈ devs)) as [Hin|Hnin].
    + by rewrite (decide_True (P := r ∈ r0 :: devs)) by (by right).
    + rewrite (decide_False (P := r ∈ r0 :: devs)); [done|].
      intros [?|?]%elem_of_cons; done.
Qed.

(** X11.  [set_hbm_per_device] sets the HBM of every device of the topology
    to the given value and changes nothing else: the DDR, the perf and the
    rank of these devices and all other device objects are as before.  A
    second call overrides the first. *)
Theorem set_hbm_per_device_spec t v (h : heap) :
  length (set_hbm_per_device t v h) = length h /\
  (forall r d, r ∈ devices t -> h !! r = Some d ->
     set_hbm_per_device t v h !! r
     = Some (mkDevice (rank d) (mkStorage v (ddr (storage d))) (perf d))) /\
  (forall r, r ∉ devices t -> set_hbm_per_device t v h !! r = h !! r) /\
  (forall v', set_hbm_per_device t v (set_hbm_per_device t v' h)
              = set_hbm_per_device t v h).
Proof.
  unfold set_hbm_per_device. split_and!.
  - apply set_hbm_loop_length.
  - intros r d Hin Hd. by rewrite set_hbm_loop_lookup, decide_True, Hd.
  - intros r Hnin. by rewrite set_hbm_loop_lookup, decide_False.
  - intros v'. apply list_eq. intros r. rewrite !set_hbm_loop_lookup.
    destruct (decide _); [|done]. by destruct (h !! r).
Qed.

(** ** The search of [MemoryBalancedPartitioner] *)

Lemma partition_frame tc w :
  (length (heap_of w) <= length (heap_of (state_of (partition tc w))))%nat /\
  forall r, (r < length (heap_of w))%nat ->
            heap_of (state_of (partition tc w)) !! r = heap_of w !! r.
Proof.
  destruct (partition_effect tc w) as (Hlen & Hf & _). cbn [heap_of] in Hlen, Hf.
  rewrite length_app in Hlen, Hf. split; [lia|].
  intros r Hr. rewrite Hf; [by rewrite lookup_app_l|lia|].
  intros Hin%elem_of_seq. lia.
Qed.

Section search_frame.
Context (rate : list ShardingOption -> Q) (msc : Z) (tol : Q).

Lemma search_body_frame n0 topo orig s w :
  (forall r, r ∈ devices topo -> (n0 <= r)%nat) ->
  (n0 <= length (heap_of w))%nat ->
  let w' := state_of (search_body rate tol topo orig s w) in
  (n0 <= length (heap_of w'))%nat /\
  forall r, (r < n0)%nat -> heap_of w' !! r = heap_of w !! r.
Proof.
  intros Hfresh Hn. cbv zeta. unfold search_body. cbn [heap_of proposal].
  set (w2 := mkWorld (set_hbm_per_device topo (mid_hbm_per_device s) (heap_of w))
               (reset_shard_rank (proposal w))).
  destruct (partition_frame topo w2) as [Hlen Hf].
  assert (length (heap_of w2) = length (heap_of w)) as Hl2.
  { unfold w2, set_hbm_per_device. cbn [heap_of]. apply set_hbm_loop_length. }
  assert (forall r, (r < n0)%nat ->
            heap_of (state_of (partition topo w2)) !! r = heap_of w !! r) as Hr.
  { intros r Hr. rewrite Hf by lia. unfold w2, set_hbm_per_device. cbn [heap_of].
    rewrite set_hbm_loop_lookup, decide_False; [done|].
    intros Hin%Hfresh. lia. }
  rewrite Hl2 in Hlen.
  destruct (partition topo w2) as [t w3|e w3]; cbn [state_of] in *.
  - destruct (Qltb _ _); cbn [state_of]; split; (lia || done).
  - destruct e; cbn [state_of]; split; (lia || done).
Qed.

Lemma search_loop_frame n0 fuel topo orig s w o :
  (forall r, r ∈ devices topo -> (n0 <= r)%nat) ->
  (n0 <= length (heap_of w))%nat ->
  search_loop rate msc tol fuel topo orig s w = Some o ->
  forall r, (r < n0)%nat -> heap_of (state_of o) !! r = heap_of w !! r.
Proof.
  intros Hfresh. revert s w.
  induction fuel as [|fuel IH]; intros s w Hn; cbn [search_loop];
    destruct (loop_guard msc s); try done; try (by intros [= <-]).
  destruct (search_body_frame n0 topo orig s w Hfresh Hn) as [Hlen Hf].
  destruct (search_body rate tol topo orig s w) as [s1 w1|e w1]; cbn [state_of] in *.
  - intros H r Hr. rewrite (IH _ _ Hlen H r Hr). by apply Hf.
  - by intros [= <-].
Qed.
End search_frame.

(** X12.  [MemoryBalancedPartitioner.partition] leaves the topology of the
    caller as it is, whatever it returns or raises: the search changes the
    HBM of its own deep copy only, and every call of the orchestrator works
    on a copy of that copy. *)
Theorem memory_balanced_leaves_caller_topology rate msc tol fuel tc w o :
  MemoryBalanced_partition rate msc tol fuel tc w = Some o ->
  forall r, (r < length (heap_of w))%nat ->
            heap_of (state_of o) !! r = heap_of w !! r.
Proof.
  unfold MemoryBalanced_partition. cbn [deepcopy_devices].
  set (topo := mkTopology _ (local_world_size tc)).
  set (w1 := mkWorld _ (proposal w)).
  destruct (partition_frame topo w1) as [Hlen Hf].
  assert (forall r, (r < length (heap_of w))%nat ->
            heap_of (state_of (partition topo w1)) !! r = heap_of w !! r) as Hr.
  { intros r Hr. rewrite Hf; unfold w1; cbn [heap_of].
    - by rewrite lookup_app_l.
    - rewrite length_app. lia. }
  assert (length (heap_of w) <= length (heap_of (state_of (partition topo w1))))%nat
    as Hn.
  { etransitivity; [|exact Hlen]. unfold w1. cbn [heap_of]. rewrite length_app. lia. }
  destruct (partition topo w1) as [t w2|e w2]; cbn [state_of] in *;
    [|by intros [= <-]].
  assert (forall r, r ∈ devices topo -> (length (heap_of w) <= r)%nat) as Hfresh.
  { intros r Hin. unfold topo in Hin. cbn [devices] in Hin.
    apply elem_of_seq in Hin. lia. }
  clearbody topo w1.
  destruct (devices topo) as [|r0 rest] eqn:Es; [by intros [= <-]|].
  destruct (search_loop rate msc tol fuel topo _ _ w2) as [[s w3|e w3]|] eqn:El;
    [| |done].
  - intros [= <-] r Hlt. rewrite <- Hr by done. rewrite <- Es in Hfresh.
    by eapply (search_loop_frame rate msc tol _ _ _ _ _ _ _ Hfresh Hn El).
  - intros [= <-] r Hlt. rewrite <- Hr by done. rewrite <- Es in Hfresh.
    by eapply (search_loop_frame rate msc tol _ _ _ _ _ _ _ Hfresh Hn El).
Qed.

Lemma memory_balanced_leaves_caller_topology_witness :
  heap_of ex_search_final !! 0%nat = heap_of ex_search_world !! 0%nat.
Proof.
  apply (memory_balanced_leaves_caller_topology ex_rate 10 (2 # 100) 10%nat
           ex_host_topology ex_search_world (Ok ex_search_plan ex_search_final)).
  - vm_compute. reflexivity.
  - simpl. lia.
Defined.

(** ** Structural validity and the greedy choice *)

(** X13.  Which exceptions [partition] raises is decided by the structure of
    the proposal, not by capacities.  Call a proposal valid for a topology
    when the host size is not 0, every uniform option has as many shards as
    the topology has devices, and every group is either a single
    device-scoped option or led by a host-scoped option and made of
    table-row-wise options of [local_world_size] shards and of
    table-column-wise options.  On a valid proposal and a topology with at
    least one device [partition] raises nothing but [PlannerError]; and a
    proposal on which [partition] returns is valid. *)
Theorem partition_structural_validity topo w :
  (forall t w', partition topo w = Ok t w' -> valid topo (proposal w)) /\
  (valid topo (proposal w) -> devices topo <> [] ->
   forall e w', partition topo w = Raise e w' -> exists m, e = PlannerError m).
Proof.
  split.
  - intros t w'. apply partition_ok_valid.
  - intros Hv Hne e w' H. apply partition_only_planner in H; [|done|done].
    destruct e; try done. by eexists.
Qed.

(** X14.  The greedy choice of [_device_partition]: when some device admits
    the first shard of the option, the shard gets the rank of a device that
    admits it and that is least loaded among the devices that admit it: no
    device that admits the shard has a smaller perf total, or the same perf
    total and a smaller local rank [rank % local_world_size]. *)
Theorem device_partition_least_loaded table lws s ss devs h r0 :
  lws <> 0 -> r0 ∈ devs -> fits_in (s_storage s) (storage (h !!! r0)) = true ->
  exists r ss',
    (state_of (device_shards table lws (s :: ss) devs h)).1
    = set_rank s (rank (h !!! r)) :: ss' /\
    r ∈ devs /\ fits_in (s_storage s) (storage (h !!! r)) = true /\
    forall r', r' ∈ devs -> fits_in (s_storage s) (storage (h !!! r')) = true ->
      (total (perf (h !!! r)) < total (perf (h !!! r')))%Q \/
      ((total (perf (h !!! r)) == total (perf (h !!! r')))%Q /\
       rank (h !!! r) mod lws <= rank (h !!! r') mod lws).
Proof.
  intros Hl Hin Hfit. cbn [device_shards].
  destruct (Z.eqb_spec lws 0) as [|_]; [done|]. cbn [andb].
  pose proof (sort_devices_sorted h lws devs) as Hs.
  destruct (first_fit h (s_storage s) (sort_devices h lws devs)) as [r|] eqn:Ef.
  - apply first_fit_Some in Ef as (pre & post & Hd & Hpre & Hr).
    exists r.
    assert (r ∈ devs) as Hrin.
    { apply (sort_devices_elem_of h lws). rewrite Hd. set_solver. }
    assert (forall r', r' ∈ devs ->
              fits_in (s_storage s) (storage (h !!! r')) = true ->
              key_ltb (device_key h lws r') (device_key h lws r) = false) as Hmin.
    { intros r' Hr' Hf'. apply (sort_devices_elem_of h lws) in Hr'.
      rewrite Hd in Hr', Hs. apply elem_of_app in Hr' as [Hp|Hp].
      - eapply Forall_forall in Hpre; [|exact Hp]. by rewrite Hf' in Hpre.
      - apply (StronglySorted_sublist _ (r :: post)) in Hs;
          [|by apply sublist_inserts_l].
        apply elem_of_cons in Hp as [->|Hp].
        + apply key_ltb_false. right. split; [reflexivity|lia].
        + apply StronglySorted_inv in Hs as [_ Hall].
          by eapply Forall_forall in Hall. }
    destruct (device_shards table lws ss _ _) as [d2 [ss2 h2]|e [ss2 h2]];
      exists ss2; (split; [done|]); (split; [done|]); (split; [done|]);
      intros r' Hr' Hf'; specialize (Hmin r' Hr' Hf');
      apply key_ltb_false in Hmin; cbn [device_key fst snd] in Hmin;
      (destruct Hmin as [?|[? ?]]; [by left|right; split; [by symmetry|done]]).
  - exfalso. apply (sort_devices_elem_of h lws) in Hin.
    clear Hs. induction (sort_devices h lws devs) as [|x l IH]; [by apply elem_of_nil in Hin|].
    cbn [first_fit] in Ef. destruct (fits_in _ (storage (h !!! x))) eqn:Ex; [done|].
    apply elem_of_cons in Hin as [->|?]; [congruence|by apply IH].
Qed.

Lemma device_partition_least_loaded_witness :
  exists r ss',
    (state_of (device_shards "t3" 2 [ex_shard 3 3; ex_shard 3 3] [0; 1; 2; 3]%nat
                 (heap_of ex_world))).1
    = set_rank (ex_shard 3 3) (rank (heap_of ex_world !!! r)) :: ss' /\
    r ∈ [0; 1; 2; 3]%nat /\
    fits_in (s_storage (ex_shard 3 3)) (storage (heap_of ex_world !!! r)) = true /\
    forall r', r' ∈ [0; 1; 2; 3]%nat ->
      fits_in (s_storage (ex_shard 3 3)) (storage (heap_of ex_world !!! r')) = true ->
      (total (perf (heap_of ex_world !!! r)) < total (perf (heap_of ex_world !!! r')))%Q \/
      ((total (perf (heap_of ex_world !!! r)) == total (perf (heap_of ex_world !!! r')))%Q /\
       rank (heap_of ex_world !!! r) mod 2 <= rank (heap_of ex_world !!! r') mod 2).
Proof.
  apply (device_partition_least_loaded "t3" 2 (ex_shard 3 3) [ex_shard 3 3]
           [0; 1; 2; 3]%nat (heap_of ex_world) 0%nat).
  - discriminate.
  - by left.
  - reflexivity.
Defined.



(** ** The plans the search records *)

Lemma set_hbm_lookup_total topo v (h : heap) r :
  r ∈ devices topo -> (r < length h)%nat ->
  set_hbm_per_device topo v h !!! r
  = mkDevice (rank (h !!! r)) (mkStorage v (ddr (storage (h !!! r)))) (perf (h !!! r)).
Proof.
  intros Hin Hlt. apply list_lookup_total_correct.
  unfold set_hbm_per_device. rewrite set_hbm_loop_lookup, decide_True by done.
  destruct (lookup_lt_is_Some_2 h r Hlt) as [d Hd].
  by rewrite Hd, (list_lookup_total_correct _ _ _ Hd).
Qed.

Lemma partition_frame_total tc w r :
  (r < length (heap_of w))%nat ->
  heap_of (state_of (partition tc w)) !!! r = heap_of w !!! r.
Proof.
  intros Hr. destruct (partition_frame tc w) as [Hlen Hf].
  destruct (lookup_lt_is_Some_2 (heap_of w) r Hr) as [d Hd].
  rewrite (list_lookup_total_correct _ _ _ Hd).
  apply list_lookup_total_correct. by rewrite Hf.
Qed.

Section search_plans.
Context (rate : list ShardingOption -> Q) (msc : Z) (tol : Q).

Lemma search_body_inv h1 p0 topo orig s w s1 w1 :
  search_inv h1 p0 topo w ->
  search_body rate tol topo orig s w = Ok s1 w1 ->
  search_inv h1 p0 topo w1.
Proof.
  intros [Hshape Hdev] E.
  destruct (search_body_ok rate tol _ _ _ _ _ _ E) as (_ & Hs & _).
  split; [by eapply same_shape_trans|].
  unfold search_body in E. cbn [heap_of proposal] in E.
  set (w2 := mkWorld (set_hbm_per_device topo (mid_hbm_per_device s) (heap_of w))
               (reset_shard_rank (proposal w))) in E.
  assert (length (heap_of w2) = length (heap_of w)) as Hl2.
  { unfold w2, set_hbm_per_device. cbn [heap_of]. apply set_hbm_loop_length. }
  assert (w1 = state_of (partition topo w2)) as ->.
  { destruct (partition topo w2) as [t w3|e w3].
    - by destruct (Qltb _ _); injection E as <- <-.
    - destruct e; try done. by injection E as <- <-. }
  intros r Hin. destruct (Hdev r Hin) as (Hlt & Hrk & Hddr).
  destruct (partition_frame topo w2) as [Hlen _].
  split; [lia|].
  rewrite partition_frame_total by lia.
  unfold w2. cbn [heap_of]. by rewrite set_hbm_lookup_total.
Qed.

(** Either the recorded plan and the upper bound are the ones the loop
    started with, or the plan is the one of a call of the orchestrator that
    returned, on the topology with every HBM set to the final upper bound. *)
Lemma search_loop_accepted h1 p0 fuel topo orig s w s' w' :
  search_inv h1 p0 topo w ->
  search_loop rate msc tol fuel topo orig s w = Some (Ok s' w') ->
  (default_plan s' = default_plan s /\
   max_hbm_per_device s' = max_hbm_per_device s) \/
  (exists cap wm t wa,
     search_inv h1 p0 topo wm /\ cap < max_hbm_per_device s /\
     (0 <= min_hbm_per_device s -> 0 <= max_hbm_per_device s -> 0 <= cap) /\
     partition topo
       (mkWorld (set_hbm_per_device topo cap (heap_of wm))
          (reset_shard_rank (proposal wm))) = Ok t wa /\
     default_plan s' = proposal wa /\ max_hbm_per_device s' = cap).
Proof.
  revert s w. induction fuel as [|fuel IH]; intros s w Hinv;
    cbn [search_loop]; destruct (loop_guard msc s) eqn:Hg;
    try done; try (intros [= <- <-]; by left).
  destruct (search_body rate tol topo orig s w) as [s1 w1|e w1] eqn:E; [|done].
  intros Hrun.
  pose proof (search_body_inv _ _ _ _ _ _ _ _ Hinv E) as Hinv1.
  pose proof (mid_below_max msc s Hg) as Hmid.
  assert (0 <= min_hbm_per_device s -> 0 <= max_hbm_per_device s ->
          0 <= mid_hbm_per_device s) as Hmid0.
  { intros ??. unfold mid_hbm_per_device. apply Z.div_pos; lia. }
  specialize (IH _ _ Hinv1 Hrun).
  unfold search_body in E. cbn [heap_of proposal] in E.
  destruct (partition topo _) as [t w3|e w3] eqn:Ep.
  - destruct (Qltb _ _); injection E as <- <-;
      cbn [min_hbm_per_device max_hbm_per_device default_plan] in IH.
    + destruct IH as [[Hd Hm]|(cap & wm & t' & wa & ? & ? & ? & ? & ? & ?)];
        [by left|].
      right. exists cap, wm, t', wa. split_and!; try done. intros ??. auto.
    + destruct IH as [[Hd Hm]|(cap & wm & t' & wa & ? & ? & ? & ? & ? & ?)].
      * right. exists (mid_hbm_per_device s), w, t, w3. by split_and!.
      * right. exists cap, wm, t', wa. split_and!; try done; [lia|].
        intros ??. auto.
  - destruct e; try done. injection E as <- <-.
    cbn [min_hbm_per_device max_hbm_per_device default_plan] in IH.
    destruct IH as [[Hd Hm]|(cap & wm & t' & wa & ? & ? & ? & ? & ? & ?)];
      [by left|].
    right. exists cap, wm, t', wa. split_and!; try done. intros ??. auto.
Qed.
End search_plans.

Lemma hbm_requirement_reset p :
  hbm_requirement (reset_shard_rank p) = hbm_requirement p.
Proof.
  unfold hbm_requirement, reset_shard_rank. f_equal.
  induction p as [|so p IH]; [done|].
  cbn [map flat_map]. rewrite IH. f_equal. cbn [reset_option with_shards shards].
  rewrite map_map. by apply map_ext.
Qed.

Lemma hbm_requirement_same_shape p p' :
  same_shape p p' -> hbm_requirement p' = hbm_requirement p.
Proof.
  unfold same_shape. intros H.
  by rewrite <- (hbm_requirement_reset p'), H, hbm_requirement_reset.
Qed.

Lemma sum_Z_nonneg l : Forall (fun x => 0 <= x) l -> 0 <= sum_Z l.
Proof.
  unfold sum_Z. intros Hl.
  assert (forall a, 0 <= a -> 0 <= fold_left Z.add l a) as H; [|by apply H].
  induction Hl as [|x l Hx Hl IH]; intros a Ha; cbn [fold_left]; [done|].
  apply IH. lia.
Qed.

Lemma hbm_requirement_nonneg p :
  (forall so s, so ∈ p -> s ∈ shards so -> 0 <= hbm (s_storage s)) ->
  0 <= hbm_requirement p.
Proof.
  intros H. apply sum_Z_nonneg, Forall_forall. intros x Hx.
  apply list_elem_of_In, in_flat_map in Hx as (so & Hso & Hx).
  apply in_map_iff in Hx as (s & <- & Hs).
  apply (H so s); by apply list_elem_of_In.
Qed.

(** Where the plan that [MemoryBalancedPartitioner.partition] returns comes
    from: it is the plan of the baseline call, or the plan of a call that
    returned on the search topology with every HBM set to a cap below the HBM
    of the first device. *)
Lemma memory_balanced_plan_origin rate msc tol fuel tc w plan w' :
  MemoryBalanced_partition rate msc tol fuel tc w = Some (Ok plan w') ->
  let topo := mkTopology (seq (length (heap_of w)) (length (devices tc)))
                (local_world_size tc) in
  let w1 := mkWorld (heap_of w ++ map (fun r => heap_of w !!! r) (devices tc))
              (proposal w) in
  exists t w2 rf rest,
    partition topo w1 = Ok t w2 /\ devices tc = rf :: rest /\
    (plan = proposal w2 \/
     exists cap wm t' wa,
       search_inv (heap_of w1) (proposal w) topo wm /\
       cap < hbm (storage (heap_of w !!! rf)) /\
       (0 <= hbm_requirement (proposal w) ->
        0 <= hbm (storage (heap_of w !!! rf)) -> 0 <= cap) /\
       partition topo
         (mkWorld (set_hbm_per_device topo cap (heap_of wm))
            (reset_shard_rank (proposal wm))) = Ok t' wa /\
       plan = proposal wa).
Proof.
  unfold MemoryBalanced_partition. cbn [deepcopy_devices]. cbv zeta.
  set (topo := mkTopology _ (local_world_size tc)).
  set (w1 := mkWorld _ (proposal w)).
  pose proof (partition_effect topo w1) as He. apply effect_same_shape in He.
  cbn [proposal] in He.
  destruct (partition_frame topo w1) as [Hlen _].
  pose proof (partition_frame_total topo w1) as Hf.
  assert (world_size topo = Z.of_nat (length (devices tc))) as Hws.
  { unfold world_size, topo. cbn [devices]. by rewrite length_seq. }
  assert (same_shape (proposal w) (proposal w1)) as Hs1 by done.
  assert (length (heap_of w1)
          = (length (heap_of w) + length (devices tc))%nat) as Hl1.
  { unfold w1. cbn [heap_of]. by rewrite length_app, length_map. }
  assert (forall i r0, devices tc !! i = Some r0 ->
            heap_of w1 !!! (length (heap_of w) + i)%nat = heap_of w !!! r0) as Hcopy.
  { intros i r0 Hi. unfold w1. cbn [heap_of]. by apply deepcopy_lookup. }
  destruct (partition topo w1) as [t w2|e w2] eqn:Ep; [|done].
  cbn [state_of] in *.
  destruct (devices tc) as [|rf rest] eqn:Ed.
  { unfold topo. by cbn [devices length seq]. }
  assert (devices topo
          = length (heap_of w) :: seq (S (length (heap_of w))) (length rest)) as Hdt.
  { unfold topo. by cbn [devices length seq]. }
  rewrite Hdt.
  destruct (search_loop _ _ _ _ _ _ _ _) as [[s w3|e w3]|] eqn:El; try done.
  intros [= <- <-]. exists t, w2, rf, rest. split_and!; [done|done|].
  assert (search_inv (heap_of w1) (proposal w) topo w2) as Hinv.
  { split; [by eapply same_shape_trans|]. intros r Hin.
    assert (r < length (heap_of w1))%nat as Hr.
    { unfold topo in Hin. cbn [devices] in Hin. apply elem_of_seq in Hin.
      cbn [length] in Hl1, Hin. lia. }
    split; [lia|]. by rewrite Hf. }
  apply (search_loop_accepted rate msc tol _ _ _ _ _ _ _ _ _ Hinv) in El
    as [[Hd _]|(cap & wm & t' & wa & Hi & Hcap & H0 & Hp & Hd & _)].
  - left. exact Hd.
  - right. exists cap, wm, t', wa. cbn [max_hbm_per_device min_hbm_per_device] in *.
    assert (heap_of w2 !!! length (heap_of w) = heap_of w !!! rf) as Hfirst.
    { rewrite Hf by (cbn [length] in Hl1; lia).
      rewrite <- (Hcopy 0%nat rf eq_refl). f_equal. lia. }
    rewrite Hfirst in Hcap, H0.
    split_and!; try done. intros Hreq Hmax. apply H0; [|done].
    rewrite (hbm_requirement_same_shape _ _ He), Hws.
    apply Z.quot_pos; [done|]. cbn [length]. lia.
Qed.

Lemma copies_rank (h : heap) devs r :
  r ∈ seq (length h) (length devs) ->
  exists i rc, r = (length h + i)%nat /\ devs !! i = Some rc /\
               (h ++ map (fun r => h !!! r) devs) !!! r = h !!! rc.
Proof.
  intros Hin%elem_of_seq.
  destruct (lookup_lt_is_Some_2 devs (r - length h)) as [rc Hrc]; [lia|].
  exists (r - length h)%nat, rc. split_and!; [lia|done|].
  rewrite <- (deepcopy_lookup h devs _ _ Hrc). f_equal. lia.
Qed.

(** X16.  The plan that [MemoryBalancedPartitioner.partition] returns is a
    plan for the proposal it was given: the same options with the same
    shards, every shard carrying the rank of a device of the topology of the
    caller. *)
Theorem memory_balanced_plan_complete rate msc tol fuel tc w plan w' :
  MemoryBalanced_partition rate msc tol fuel tc w = Some (Ok plan w') ->
  Forall2 (fun so so' =>
             name so' = name so /\ fqn so' = fqn so /\
             dependency so' = dependency so /\
             partition_by so' = partition_by so /\
             sharding_type so' = sharding_type so /\
             Forall2 (fun s s' => s_storage s' = s_storage s /\ s_perf s' = s_perf s)
               (shards so) (shards so'))
    (proposal w) plan /\
  forall so s, so ∈ plan -> s ∈ shards so ->
    exists r0, r0 ∈ devices tc /\ s_rank s = Some (rank (heap_of w !!! r0)).
Proof.
  intros H. apply memory_balanced_plan_origin in H. cbv zeta in H.
  set (topo := mkTopology _ (local_world_size tc)) in H.
  set (w1 := mkWorld _ (proposal w)) in H.
  destruct H as (t & w2 & rf & rest & Hb & _ & Hplan).
  assert (forall r, r ∈ devices topo ->
            exists rc, rc ∈ devices tc /\
                       rank (heap_of w1 !!! r) = rank (heap_of w !!! rc)) as Hrank.
  { intros r Hin. unfold topo in Hin. cbn [devices] in Hin.
    apply copies_rank in Hin as (i & rc & _ & Hi & Heq).
    exists rc. split; [by eapply list_elem_of_lookup_2|].
    unfold w1. cbn [heap_of]. by rewrite Heq. }
  destruct Hplan as [->|(cap & wm & t' & wa & [Hshape Hdev] & _ & _ & Hp & ->)].
  - split.
    + apply same_shape_Forall2.
      pose proof (partition_effect topo w1) as He. rewrite Hb in He.
      by apply effect_same_shape in He.
    + intros so s Hso Hs.
      destruct (partition_plan_ranks _ _ _ _ Hb so s Hso Hs) as (r & Hin & ->).
      destruct (Hrank r Hin) as (rc & Hrc & ->). by exists rc.
  - split.
    + apply same_shape_Forall2.
      pose proof (partition_effect topo
                    (mkWorld (set_hbm_per_device topo cap (heap_of wm))
                       (reset_shard_rank (proposal wm)))) as He.
      rewrite Hp in He. apply effect_same_shape in He. cbn [proposal state_of] in He.
      eapply same_shape_trans; [exact Hshape|].
      eapply same_shape_trans; [apply reset_shard_rank_idemp|exact He].
    + intros so s Hso Hs.
      destruct (partition_plan_ranks _ _ _ _ Hp so s Hso Hs) as (r & Hin & ->).
      cbn [heap_of]. destruct (Hdev r Hin) as (Hlt & Hrk & _).
      rewrite set_hbm_lookup_total by done. cbn [rank]. rewrite Hrk.
      destruct (Hrank r Hin) as (rc & Hrc & ->). by exists rc.
Qed.

Lemma memory_balanced_plan_complete_witness :
  Forall2 (fun so so' =>
             name so' = name so /\ fqn so' = fqn so /\
             dependency so' = dependency so /\
             partition_by so' = partition_by so /\
             sharding_type so' = sharding_type so /\
             Forall2 (fun s s' => s_storage s' = s_storage s /\ s_perf s' = s_perf s)
               (shards so) (shards so'))
    (proposal ex_search_world) ex_search_plan /\
  forall so s, so ∈ ex_search_plan -> s ∈ shards so ->
    exists r0, r0 ∈ devices ex_host_topology /\
               s_rank s = Some (rank (heap_of ex_search_world !!! r0)).
Proof.
  apply (memory_balanced_plan_complete ex_rate 10 (2 # 100) 10%nat
           ex_host_topology ex_search_world ex_search_plan ex_search_final).
  vm_compute. reflexivity.
Defined.

Lemma partition_within_capacity tc w topo w' :
  partition tc w = Ok topo w' ->
  ranked (heap_of w) (devices tc) ->
  (forall r, r ∈ devices tc -> storage_nonneg (storage (heap_of w !!! r))) ->
  forall r0, r0 ∈ devices tc ->
    hbm (sum_storage (s_storage <$> shards_on (rank (heap_of w !!! r0)) (proposal w')))
    <= hbm (storage (heap_of w !!! r0)).
Proof.
  intros Hrun Hrk Hnn r0 Hin0.
  apply list_elem_of_lookup in Hin0 as [i Hi0].
  destruct (partition_commits _ _ _ _ Hrun Hrk) as (HD & _ & Hc & _).
  pose proof (partition_effect tc w) as He. rewrite Hrun in He. simpl in He.
  assert (length (heap_of w) + i ∈ devices topo)%nat as Hin.
  { rewrite HD. apply elem_of_seq. apply lookup_lt_Some in Hi0. lia. }
  specialize (Hc _ Hin). cbn [heap_of proposal] in Hc.
  rewrite (deepcopy_lookup _ _ _ _ Hi0) in Hc.
  assert (assigned (rank (heap_of w !!! r0)) (proposal w')
            (_get_uniform_sharding_options (proposal w)
               ++ members (_group_and_sort_non_uniform_sharding_options (proposal w)))
          ≡ₚ shards_on (rank (heap_of w !!! r0)) (proposal w')) as Hperm.
  { unfold shards_on. apply assigned_Permutation.
    destruct He as (_ & _ & _ & -> & _). apply grouping_covers. }
  assert (storage_nonneg (storage (heap_of w !!! r0))) as Hn0.
  { apply Hnn. by eapply list_elem_of_lookup_2. }
  pose proof (booked_nonneg _ _ _ Hc Hn0) as [Hh _].
  rewrite (booked_storage _ _ _ Hc) in Hh. cbn [storage_sub hbm] in Hh.
  rewrite <- (sum_storage_Permutation _ _ (fmap_Permutation s_storage _ _ Hperm)).
  lia.
Qed.

(** X17.  The plan of [MemoryBalancedPartitioner.partition] respects a bound
    on the HBM that the shards of one rank take together.  On a topology
    whose ranks increase with the position, with capacities and shard sizes
    that are not negative: the plan is the baseline plan, which takes on
    every device at most the HBM of that device; or it takes on every device
    at most one common cap, which is smaller than the HBM of the first
    device of the topology. *)
Theorem memory_balanced_cap rate msc tol fuel tc w topo_b w2 plan w' rf rest :
  partition
    (mkTopology (seq (length (heap_of w)) (length (devices tc))) (local_world_size tc))
    (mkWorld (heap_of w ++ map (fun r => heap_of w !!! r) (devices tc)) (proposal w))
  = Ok topo_b w2 ->
  MemoryBalanced_partition rate msc tol fuel tc w = Some (Ok plan w') ->
  devices tc = rf :: rest ->
  ranked (heap_of w) (devices tc) ->
  (forall r, r ∈ devices tc -> storage_nonneg (storage (heap_of w !!! r))) ->
  (forall so s, so ∈ proposal w -> s ∈ shards so -> 0 <= hbm (s_storage s)) ->
  (plan = proposal w2 /\
   forall rc, rc ∈ devices tc ->
     hbm (sum_storage (s_storage <$> shards_on (rank (heap_of w !!! rc)) plan))
     <= hbm (storage (heap_of w !!! rc))) \/
  (exists cap,
     0 <= cap < hbm (storage (heap_of w !!! rf)) /\
     forall rc, rc ∈ devices tc ->
       hbm (sum_storage (s_storage <$> shards_on (rank (heap_of w !!! rc)) plan))
       <= cap).
Proof.
  intros Hb H Hd Hrk Hnn Hsh. apply memory_balanced_plan_origin in H. cbv zeta in H.
  set (topo := mkTopology _ (local_world_size tc)) in *.
  set (w1 := mkWorld _ (proposal w)) in *.
  destruct H as (t & w2' & rf' & rest' & Hb' & Hd' & Hplan).
  rewrite Hb in Hb'. injection Hb' as <- <-.
  rewrite Hd in Hd'. injection Hd' as <- <-.
  assert (ranks_of (heap_of w1) (devices topo) = ranks_of (heap_of w) (devices tc))
    as Hranks.
  { unfold w1, topo. cbn [heap_of devices]. apply deepcopy_ranks_of. }
  assert (forall rc, rc ∈ devices tc ->
            exists r, r ∈ devices topo /\ heap_of w1 !!! r = heap_of w !!! rc) as Hcopy.
  { intros rc [i Hi]%list_elem_of_lookup.
    exists (length (heap_of w) + i)%nat. split.
    - unfold topo. cbn [devices]. apply elem_of_seq.
      apply lookup_lt_Some in Hi. lia.
    - unfold w1. cbn [heap_of]. by apply deepcopy_lookup. }
  assert (forall r, r ∈ devices topo ->
            exists rc, rc ∈ devices tc /\ heap_of w1 !!! r = heap_of w !!! rc) as Hback.
  { intros r Hin. unfold topo in Hin. cbn [devices] in Hin.
    apply copies_rank in Hin as (i & rc & _ & Hi & Heq).
    exists rc. split; [by eapply list_elem_of_lookup_2|done]. }
  destruct Hplan as [->|(cap & wm & t' & wa & [Hshape Hdev] & Hcap & H0 & Hp & ->)].
  - left. split; [done|]. intros rc Hrc.
    destruct (Hcopy rc Hrc) as (r & Hin & Heq). rewrite <- Heq.
    apply (partition_within_capacity _ _ _ _ Hb); [by unfold ranked; rewrite Hranks| |done].
    intros r' Hin'. destruct (Hback r' Hin') as (rc' & Hrc' & ->). by apply Hnn.
  - right. exists cap.
    assert (0 <= cap) as Hcap0.
    { apply H0; [by apply hbm_requirement_nonneg|].
      apply Hnn. rewrite Hd. by left. }
    split; [lia|]. intros rc Hrc.
    destruct (Hcopy rc Hrc) as (r & Hin & Heq).
    destruct (Hdev r Hin) as (Hlt & Hrank & _).
    set (w_in := mkWorld (set_hbm_per_device topo cap (heap_of wm))
                   (reset_shard_rank (proposal wm))) in *.
    assert (forall r', r' ∈ devices topo ->
              heap_of w_in !!! r'
              = mkDevice (rank (heap_of w1 !!! r'))
                  (mkStorage cap (ddr (storage (heap_of w1 !!! r'))))
                  (perf (heap_of wm !!! r'))) as Hin_dev.
    { intros r' Hin'. destruct (Hdev r' Hin') as (Hlt' & Hrk' & Hddr').
      unfold w_in. cbn [heap_of]. rewrite set_hbm_lookup_total by done.
      by rewrite Hrk', Hddr'. }
    pose proof (partition_within_capacity _ _ _ _ Hp) as Hcapa.
    rewrite <- Heq.
    assert (ranked (heap_of w_in) (devices topo)) as Hrk_in.
    { unfold ranked.
      rewrite (ranks_of_ext (heap_of w1) (heap_of w_in)), Hranks; [done|].
      intros r' Hin'. by rewrite Hin_dev. }
    specialize (Hcapa Hrk_in).
    assert (forall r', r' ∈ devices topo ->
              storage_nonneg (storage (heap_of w_in !!! r'))) as Hnn_in.
    { intros r' Hin'. rewrite Hin_dev by done. cbn [storage]. split; [done|].
      cbn [ddr]. destruct (Hback r' Hin') as (rc' & Hrc' & ->). by apply Hnn. }
    specialize (Hcapa Hnn_in r Hin). by rewrite (Hin_dev r Hin) in Hcapa.
Qed.

Lemma memory_balanced_cap_witness :
  (ex_search_plan = proposal ex_baseline /\
   forall rc, rc ∈ devices ex_host_topology ->
     hbm (sum_storage
            (s_storage <$> shards_on (rank (heap_of ex_search_world !!! rc))
                             ex_search_plan))
     <= hbm (storage (heap_of ex_search_world !!! rc))) \/
  (exists cap,
     0 <= cap < hbm (storage (heap_of ex_search_world !!! 0%nat)) /\
     forall rc, rc ∈ devices ex_host_topology ->
       hbm (sum_storage
              (s_storage <$> shards_on (rank (heap_of ex_search_world !!! rc))
                               ex_search_plan))
       <= cap).
Proof.
  apply (memory_balanced_cap ex_rate 10 (2 # 100) 10%nat ex_host_topology
           ex_search_world (mkTopology [4; 5]%nat 2) ex_baseline ex_search_plan
           ex_search_final 0%nat [1%nat]).
  - vm_compute. reflexivity.
  - vm_compute. reflexivity.
  - reflexivity.
  - unfold ranked. vm_compute. repeat constructor.
  - intros r Hr. unfold storage_nonneg.
    repeat (apply elem_of_cons in Hr as [->|Hr]; [vm_compute; split; discriminate|]).
    by apply elem_of_nil in Hr.
  - assert (Forall (fun so => Forall (fun s => 0 <= hbm (s_storage s)) (shards so))
              (proposal ex_search_world)) as Hall.
    { vm_compute. repeat constructor; discriminate. }
    intros so s Hso Hs.
    eapply Forall_forall in Hall; [|exact Hso].
    eapply Forall_forall in Hall; [exact Hall|exact Hs].
Defined.

(** ** A failure of the uniform packer is not rolled back *)

Lemma uniform_shards_partial ss devs (h : heap) e ss' h' :
  NoDup devs -> allocated h devs ->
  uniform_shards ss devs h = Raise e (ss', h') ->
  exists i s r,
    ss !! i = Some s /\ devs !! i = Some r /\
    fits_in (s_storage s) (storage (h !!! r)) = false /\
    e = PlannerError (ShardDoesNotFit (s_storage s) (storage (h !!! r))) /\
    (forall i' s' r', (i' < i)%nat -> ss !! i' = Some s' -> devs !! i' = Some r' ->
       ss' !! i' = Some (set_rank s' (rank (h !!! r'))) /\
       h' !!! r' = assign (h !!! r') s') /\
    (forall i', (i <= i')%nat -> ss' !! i' = ss !! i') /\
    (forall i' r', (i <= i')%nat -> devs !! i' = Some r' -> h' !!! r' = h !!! r').
Proof.
  revert devs h ss' h'.
  induction ss as [|s ss IH]; intros [|r0 devs] h ss' h'; simpl; try done.
  intros [Hr0 Hnd]%NoDup_cons [Hlt Hal]%Forall_cons.
  destruct (fits_in _ _) eqn:Efit.
  - destruct (uniform_shards ss devs _) as [[] [ss2 h2]|e2 [ss2 h2]] eqn:E; [done|].
    intros [= <- <- <-].
    assert (forall r, r ∈ devs ->
              (<[r0 := assign (h !!! r0) s]> h) !!! r = h !!! r) as Hsame.
    { intros r Hr. apply list_lookup_total_insert_ne. by intros ->. }
    destruct (IH devs _ _ _ Hnd (allocated_insert _ _ _ _ Hal) E)
      as (i & si & ri & Hsi & Hri & Hnf & -> & Hbefore & Hafter & Hdev).
    pose proof (list_elem_of_lookup_2 _ _ _ Hri) as Hin.
    rewrite Hsame in Hnf by done.
    exists (S i), si, ri. rewrite Hsame by done. split_and!; try done.
    + intros [|i'] s' r' Hlt' Hs' Hr'; simpl in *.
      * injection Hs' as ->. injection Hr' as ->. split; [done|].
        pose proof (uniform_shards_frame ss devs (<[r' := assign (h !!! r') s']> h))
          as Hf.
        rewrite E in Hf. simpl in Hf. destruct Hf as (_ & F & _).
        rewrite list_lookup_total_alt, F by done.
        by rewrite <- list_lookup_total_alt, list_lookup_total_insert_eq.
      * destruct (Hbefore i' s' r' ltac:(lia) Hs' Hr') as [H1 H2].
        by rewrite Hsame in H1, H2 by (by eapply list_elem_of_lookup_2).
    + intros [|i'] Hle; [lia|]. simpl. apply Hafter. lia.
    + intros [|i'] r' Hle Hr'; [lia|]. simpl in Hr'.
      rewrite (Hdev i' r') by (done || lia).
      apply Hsame. by eapply list_elem_of_lookup_2.
  - intros [= <- <- <-]. exists 0%nat, s, r0. split_and!; try done.
    intros i' s' r' Hlt'. lia.
Qed.

(** X18.  A capacity failure of [_uniform_partition] is not rolled back.
    When the shards of a uniform option are placed on distinct devices and
    the shard at position [i] does not fit, the [PlannerError] is raised with
    the shards before [i] placed: they carry the ranks of their devices, and
    these devices have lost their storage and gained their perf; the shards
    and the devices from position [i] on are as they were. *)
Theorem uniform_partition_failure_is_partial j devs w m w' :
  (j < length (proposal w))%nat -> NoDup devs -> allocated (heap_of w) devs ->
  uniform_option j devs w = Raise (PlannerError m) w' ->
  exists i s r,
    shards (proposal w !!! j) !! i = Some s /\ devs !! i = Some r /\
    fits_in (s_storage s) (storage (heap_of w !!! r)) = false /\
    m = ShardDoesNotFit (s_storage s) (storage (heap_of w !!! r)) /\
    (forall i' s' r', (i' < i)%nat ->
       shards (proposal w !!! j) !! i' = Some s' -> devs !! i' = Some r' ->
       shards (proposal w' !!! j) !! i' = Some (set_rank s' (rank (heap_of w !!! r')))
       /\ heap_of w' !!! r' = assign (heap_of w !!! r') s') /\
    (forall i', (i <= i')%nat ->
       shards (proposal w' !!! j) !! i' = shards (proposal w !!! j) !! i') /\
    (forall i' r', (i <= i')%nat -> devs !! i' = Some r' ->
       heap_of w' !!! r' = heap_of w !!! r').
Proof.
  intros Hj Hnd Hal. unfold uniform_option.
  destruct (negb _); [done|].
  destruct (uniform_shards _ _ _) as [[] [ss h]|e [ss h]] eqn:E; [done|].
  intros [= -> <-]. cbn [heap_of proposal]. rewrite put_shards_shards by done.
  destruct (uniform_shards_partial _ _ _ _ _ _ Hnd Hal E)
    as (i & s & r & ? & ? & ? & [= ->] & ? & ? & ?).
  by exists i, s, r.
Qed.

Lemma uniform_partition_failure_is_partial_witness :
  exists i s r,
    shards (proposal ex_partial !!! 0%nat) !! i = Some s /\
    [0; 1]%nat !! i = Some r /\
    fits_in (s_storage s) (storage (heap_of ex_partial !!! r)) = false /\
    ShardDoesNotFit (mkStorage 30 0) (mkStorage 20 100)
    = ShardDoesNotFit (s_storage s) (storage (heap_of ex_partial !!! r)) /\
    (forall i' s' r', (i' < i)%nat ->
       shards (proposal ex_partial !!! 0%nat) !! i' = Some s' ->
       [0; 1]%nat !! i' = Some r' ->
       shards (proposal (state_of (uniform_option 0 [0; 1]%nat ex_partial)) !!! 0%nat)
         !! i'
       = Some (set_rank s' (rank (heap_of ex_partial !!! r')))
       /\ heap_of (state_of (uniform_option 0 [0; 1]%nat ex_partial)) !!! r'
          = assign (heap_of ex_partial !!! r') s') /\
    (forall i', (i <= i')%nat ->
       shards (proposal (state_of (uniform_option 0 [0; 1]%nat ex_partial)) !!! 0%nat)
         !! i'
       = shards (proposal ex_partial !!! 0%nat) !! i') /\
    (forall i' r', (i <= i')%nat -> [0; 1]%nat !! i' = Some r' ->
       heap_of (state_of (uniform_option 0 [0; 1]%nat ex_partial)) !!! r'
       = heap_of ex_partial !!! r').
Proof.
  apply (uniform_partition_failure_is_partial 0 [0; 1]%nat ex_partial
           (ShardDoesNotFit (mkStorage 30 0) (mkStorage 20 100))
           (state_of (uniform_option 0 [0; 1]%nat ex_partial))).
  - simpl. lia.
  - apply NoDup_cons. split; [by intros ?%list_elem_of_singleton|].
    apply NoDup_singleton.
  - unfold allocated. simpl. repeat constructor.
  - vm_compute. reflexivity.
Defined.

(** ** The ranks on entry do not matter *)

Lemma uniform_shards_stale ss ss2 devs h :
  map clear_rank ss2 = map clear_rank ss -> length ss = length devs ->
  match uniform_shards ss devs h with
  | Ok _ st => uniform_shards ss2 devs h = Ok tt st
  | Raise e (a, h') =>
      exists a2, uniform_shards ss2 devs h = Raise e (a2, h') /\
                 map clear_rank a2 = map clear_rank a
  end.
Proof.
  revert ss2 devs h.
  induction ss as [|s ss IH]; intros [|s2 ss2] [|r devs] h; try done.
  intros [= Hst Hpf Hss] [= Hlen].
  cbn [uniform_shards]. rewrite Hst.
  destruct (fits_in _ _).
  - assert (assign (h !!! r) s2 = assign (h !!! r) s) as ->
      by (unfold assign; by rewrite Hst, Hpf).
    assert (set_rank s2 (rank (h !!! r)) = set_rank s (rank (h !!! r))) as ->
      by (unfold set_rank; by rewrite Hst, Hpf).
    specialize (IH ss2 devs (<[r := assign (h !!! r) s]> h) Hss Hlen).
    destruct (uniform_shards ss devs _) as [[] [a h']|e [a h']].
    + by rewrite IH.
    + destruct IH as (a2 & -> & Ha). eexists. split; [done|].
      cbn [map]. by rewrite Ha.
  - eexists. split; [done|]. cbn [map]. rewrite Hss. f_equal.
    unfold clear_rank. by rewrite Hst, Hpf.
Qed.

Lemma device_shards_stale table table2 lws ss ss2 devs h :
  map clear_rank ss2 = map clear_rank ss ->
  match device_shards table lws ss devs h with
  | Ok d st => device_shards table2 lws ss2 devs h = Ok d st
  | Raise e (a, h') =>
      exists e2 a2,
        device_shards table2 lws ss2 devs h = Raise e2 (a2, h') /\
        is_planner_error e2 = is_planner_error e /\
        map clear_rank a2 = map clear_rank a
  end.
Proof.
  revert ss2 devs h.
  induction ss as [|s ss IH]; intros [|s2 ss2] devs h; try done.
  intros [= Hst Hpf Hss].
  cbn [device_shards]. rewrite Hst.
  destruct (_ && _).
  { eexists _, _. split; [done|]. split; [done|]. cbn [map]. rewrite Hss. f_equal.
    unfold clear_rank. by rewrite Hst, Hpf. }
  destruct (first_fit _ _ _) as [r|].
  - assert (assign (h !!! r) s2 = assign (h !!! r) s) as ->
      by (unfold assign; by rewrite Hst, Hpf).
    assert (set_rank s2 (rank (h !!! r)) = set_rank s (rank (h !!! r))) as ->
      by (unfold set_rank; by rewrite Hst, Hpf).
    specialize (IH ss2 (sort_devices h lws devs) (<[r := assign (h !!! r) s]> h) Hss).
    destruct (device_shards table lws ss _ _) as [d [a h']|e [a h']].
    + by rewrite IH.
    + destruct IH as (e2 & a2 & -> & He & Ha). eexists _, _. split; [done|].
      split; [done|]. cbn [map]. by rewrite Ha.
  - destruct (largest_storage _ _); eexists _, _; (split; [done|]);
      (split; [done|]); cbn [map]; rewrite Hss; f_equal;
      unfold clear_rank; by rewrite Hst, Hpf.
Qed.

Lemma agree_weaken P P' w w2 :
  (forall j, j ∈ P' -> j ∈ P) -> agree P w w2 -> agree P' w w2.
Proof. intros Hs (Hh & Hp & Hl). split_and!; [done|done|]. intros j Hj. auto. Qed.

Lemma same_shape_length p p2 : same_shape p p2 -> length p2 = length p.
Proof.
  unfold same_shape, reset_shard_rank. intros H.
  by rewrite <- (length_map reset_option p2), H, length_map.
Qed.

Lemma same_shape_shards p p2 j :
  same_shape p p2 ->
  map clear_rank (shards (p2 !!! j)) = map clear_rank (shards (p !!! j)).
Proof.
  intros H. apply (same_shape_lookup _ _ j) in H.
  by apply (f_equal shards) in H.
Qed.

Lemma with_shards_reset so ss : with_shards (reset_option so) ss = with_shards so ss.
Proof. done. Qed.

Lemma same_shape_with_shards p p2 j ss :
  same_shape p p2 -> with_shards (p2 !!! j) ss = with_shards (p !!! j) ss.
Proof.
  intros H. apply (same_shape_lookup _ _ j) in H.
  by rewrite <- (with_shards_reset (p2 !!! j)), H, with_shards_reset.
Qed.

Lemma put_shards_same_shape j a a2 p p2 :
  same_shape p p2 ->
  map clear_rank a = map clear_rank (shards (p !!! j)) ->
  map clear_rank a2 = map clear_rank a ->
  same_shape (put_shards j a p) (put_shards j a2 p2).
Proof.
  intros Hp Ha Ha2. unfold same_shape.
  rewrite (put_shards_reset j a p) by done.
  rewrite (put_shards_reset j a2 p2); [done|].
  by rewrite Ha2, Ha, (same_shape_shards _ _ j Hp).
Qed.

Lemma agree_put_eq P j a h (w w2 : world) :
  agree P w w2 ->
  map clear_rank a = map clear_rank (shards (proposal w !!! j)) ->
  agree (j :: P)
    (mkWorld h (put_shards j a (proposal w)))
    (mkWorld h (put_shards j a (proposal w2))).
Proof.
  intros (Hh & Hp & Hl) Ha. split_and!; [done|by apply put_shards_same_shape|].
  cbn [proposal]. intros j' Hj'.
  destruct (decide (j' = j)) as [->|Hne].
  - unfold put_shards. rewrite (same_shape_with_shards _ _ j a Hp).
    destruct (decide (j < length (proposal w))%nat) as [Hlt|Hge].
    + rewrite !list_lookup_insert_eq; [done|done|].
      by rewrite (same_shape_length _ _ Hp).
    + rewrite !list_insert_ge; [|lia|rewrite (same_shape_length _ _ Hp); lia].
      rewrite !lookup_ge_None_2; [done|lia|].
      rewrite (same_shape_length _ _ Hp). lia.
  - rewrite !put_shards_lookup_ne by done. apply Hl.
    by apply elem_of_cons in Hj' as [?|?].
Qed.

Lemma agree_put_ne P j a a2 h (w w2 : world) :
  agree P w w2 ->
  map clear_rank a = map clear_rank (shards (proposal w !!! j)) ->
  map clear_rank a2 = map clear_rank a -> j ∉ P ->
  agree P
    (mkWorld h (put_shards j a (proposal w)))
    (mkWorld h (put_shards j a2 (proposal w2))).
Proof.
  intros (Hh & Hp & Hl) Ha Ha2 Hj.
  split_and!; [done|by apply put_shards_same_shape|].
  cbn [proposal]. intros j' Hj'.
  rewrite !put_shards_lookup_ne by (by intros ->). by apply Hl.
Qed.

Lemma uniform_option_stale P j devs w w2 :
  agree P w w2 ->
  match uniform_option j devs w with
  | Ok _ w' => exists w2', uniform_option j devs w2 = Ok tt w2' /\ agree (j :: P) w' w2'
  | Raise e w' =>
      exists w2', uniform_option j devs w2 = Raise e w2' /\ (j ∉ P -> agree P w' w2')
  end.
Proof.
  intros Hag. pose proof Hag as (Hh & Hp & Hl). unfold uniform_option.
  destruct (same_shape_fields _ _ j Hp) as (_ & _ & -> & _). rewrite Hh.
  destruct (negb _) eqn:En; [by eexists|].
  apply negb_false_iff, Nat.eqb_eq in En.
  pose proof (uniform_shards_stale (shards (proposal w !!! j))
                (shards (proposal w2 !!! j)) devs (heap_of w)
                (same_shape_shards _ _ j Hp) En) as Hsim.
  pose proof (uniform_shards_frame (shards (proposal w !!! j)) devs (heap_of w))
    as (_ & _ & _ & Hc).
  destruct (uniform_shards (shards (proposal w !!! j)) _ _) as [[] [a h]|e [a h]];
    cbn [state_of fst] in Hc.
  - rewrite Hsim. eexists. split; [done|]. by apply agree_put_eq.
  - destruct Hsim as (a2 & -> & Ha2). eexists. split; [done|]. intros Hj.
    by apply agree_put_ne.
Qed.

Lemma _device_partition_stale P j devs lws w w2 :
  agree P w w2 ->
  match _device_partition j devs lws w with
  | Ok d w' =>
      exists w2', _device_partition j devs lws w2 = Ok d w2' /\ agree (j :: P) w' w2'
  | Raise e w' =>
      exists e2 w2',
        _device_partition j devs lws w2 = Raise e2 w2' /\
        is_planner_error e2 = is_planner_error e /\ (j ∉ P -> agree P w' w2')
  end.
Proof.
  intros Hag. pose proof Hag as (Hh & Hp & Hl). unfold _device_partition.
  rewrite Hh.
  pose proof (device_shards_stale (name (proposal w !!! j)) (name (proposal w2 !!! j))
                lws (shards (proposal w !!! j)) (shards (proposal w2 !!! j)) devs
                (heap_of w) (same_shape_shards _ _ j Hp)) as Hsim.
  pose proof (device_shards_frame (name (proposal w !!! j)) lws
                (shards (proposal w !!! j)) devs (heap_of w)) as (_ & _ & _ & Hc & _).
  destruct (device_shards (name (proposal w !!! j)) _ _ _ _)
    as [d [a h]|e [a h]]; cbn [state_of fst] in Hc.
  - rewrite Hsim. eexists. split; [done|]. by apply agree_put_eq.
  - destruct Hsim as (e2 & a2 & -> & He & Ha2). eexists _, _.
    split; [done|]. split; [done|]. intros Hj. by apply agree_put_ne.
Qed.

Lemma _uniform_partition_stale P sos devs w w2 w' :
  agree P w w2 -> _uniform_partition sos devs w = Ok tt w' ->
  exists w2', _uniform_partition sos devs w2 = Ok tt w2' /\ agree (sos ++ P) w' w2'.
Proof.
  revert P w w2. induction sos as [|j sos IH]; intros P w w2 Hag.
  { intros [= <-]. by exists w2. }
  cbn [_uniform_partition].
  pose proof (uniform_option_stale P j devs w w2 Hag) as Hsim.
  destruct (uniform_option j devs w) as [[] w1|e w1]; [|done].
  destruct Hsim as (w21 & -> & Hag1). intros H.
  destruct (IH _ _ _ Hag1 H) as (w2' & -> & Hag').
  exists w2'. split; [done|]. eapply agree_weaken; [|exact Hag']. set_solver.
Qed.

Lemma cohost_options_stale P sos hd w w2 :
  agree P w w2 -> NoDup sos -> Forall (fun j => j ∉ P) sos ->
  match cohost_options sos hd w with
  | Ok hd' w' =>
      exists w2', cohost_options sos hd w2 = Ok hd' w2' /\ agree (sos ++ P) w' w2'
  | Raise e w' =>
      exists e2 w2',
        cohost_options sos hd w2 = Raise e2 w2' /\
        is_planner_error e2 = is_planner_error e /\ agree P w' w2'
  end.
Proof.
  revert P hd w w2. induction sos as [|j sos IH]; intros P hd w w2 Hag Hnd Hdisj.
  { by exists w2. }
  apply NoDup_cons in Hnd as [Hj Hnd]. apply Forall_cons in Hdisj as [HjP Hdisj].
  cbn [cohost_options]. pose proof Hag as (_ & Hp & _).
  destruct (same_shape_fields _ _ j Hp) as (_ & -> & _).
  assert (Forall (fun j' => j' ∉ j :: P) sos) as Hdisj'.
  { apply Forall_forall. intros j' Hj' [->|?]%elem_of_cons; [done|].
    eapply Forall_forall in Hdisj; [|exact Hj']. done. }
  assert (forall hd1 w1 w21,
            agree (j :: P) w1 w21 ->
            match cohost_options sos hd1 w1 with
            | Ok hd' w' =>
                exists w2', cohost_options sos hd1 w21 = Ok hd' w2' /\
                            agree ((j :: sos) ++ P) w' w2'
            | Raise e w' =>
                exists e2 w2',
                  cohost_options sos hd1 w21 = Raise e2 w2' /\
                  is_planner_error e2 = is_planner_error e /\ agree P w' w2'
            end) as Hrest.
  { intros hd1 w1 w21 Hag1. specialize (IH _ hd1 _ _ Hag1 Hnd Hdisj').
    destruct (cohost_options sos hd1 w1) as [hd' w'|e w'].
    - destruct IH as (w2' & -> & Hag'). exists w2'. split; [done|].
      eapply agree_weaken; [|exact Hag']. set_solver.
    - destruct IH as (e2 & w2' & -> & He & Hag'). exists e2, w2'.
      split_and!; [done|done|]. eapply agree_weaken; [|exact Hag']. set_solver. }
  destruct (String.eqb _ TABLE_ROW_WISE).
  - cbn [_uniform_partition].
    pose proof (uniform_option_stale P j hd w w2 Hag) as Hsim.
    destruct (uniform_option j hd w) as [[] w1|e w1].
    + destruct Hsim as (w21 & -> & Hag1). by apply Hrest.
    + destruct Hsim as (w21 & -> & Hag1). exists e, w21. split_and!; auto.
  - destruct (String.eqb _ TABLE_COLUMN_WISE).
    + pose proof (_device_partition_stale P j hd (Z.of_nat (length hd)) w w2 Hag)
        as Hsim.
      destruct (_device_partition j hd _ w) as [hd1 w1|e w1].
      * destruct Hsim as (w21 & -> & Hag1). by apply Hrest.
      * destruct Hsim as (e2 & w21 & -> & He & Hag1). exists e2, w21.
        split_and!; auto.
    + eexists _, _. split_and!; done.
Qed.

Lemma host_trial_stale P g devs w w2 :
  agree P w w2 -> NoDup (sharding_options g) ->
  Forall (fun j => j ∉ P) (sharding_options g) ->
  match host_trial g devs w with
  | NextHost w' => exists w2', host_trial g devs w2 = NextHost w2' /\ agree P w' w2'
  | Done (Ok _ w') =>
      exists w2', host_trial g devs w2 = Done (Ok tt w2') /\
                  agree (sharding_options g ++ P) w' w2'
  | Done (Raise _ _) => True
  end.
Proof.
  intros Hag Hnd Hdisj. pose proof Hag as (Hh & Hp & Hl).
  unfold host_trial. cbn [deepcopy_devices]. rewrite Hh.
  set (w1 := mkWorld _ (proposal w)). set (w21 := mkWorld _ (proposal w2)).
  assert (agree P w1 w21) as Hag1 by done.
  destruct (negb _); [by exists w21|].
  pose proof (cohost_options_stale P (sharding_options g)
                (seq (length (heap_of w)) (length devs)) w1 w21 Hag1 Hnd Hdisj)
    as Hsim.
  destruct (cohost_options _ _ w1) as [hd' w'|e w'].
  - destruct Hsim as (w2' & -> & (Hh' & Hp' & Hl')). eexists. split; [done|].
    rewrite Hh'. by split_and!.
  - destruct Hsim as (e2 & w2' & -> & He & Hag').
    destruct e; try done. destruct e2; try done. by exists w2'.
Qed.

Lemma cohost_hosts_stale P g hosts w w2 w' :
  agree P w w2 -> NoDup (sharding_options g) ->
  Forall (fun j => j ∉ P) (sharding_options g) ->
  cohost_hosts g hosts w = Ok tt w' ->
  exists w2', cohost_hosts g hosts w2 = Ok tt w2' /\
              agree (sharding_options g ++ P) w' w2'.
Proof.
  intros Hag Hnd Hdisj. revert w w2 Hag.
  induction hosts as [|devs hosts IH]; intros w w2 Hag; [done|].
  cbn [cohost_hosts].
  pose proof (host_trial_stale P g devs w w2 Hag Hnd Hdisj) as Hsim.
  destruct (host_trial g devs w) as [w1|[[] w1|e w1]].
  - destruct Hsim as (w21 & -> & Hag1). by apply IH.
  - destruct Hsim as (w21 & -> & Hag1). intros [= <-]. by exists w21.
  - done.
Qed.

Lemma partition_groups_stale P groups hosts sd lws w w2 sd' w' :
  agree P w w2 -> NoDup (members groups) ->
  Forall (fun j => j ∉ P) (members groups) ->
  partition_groups groups hosts sd lws w = Ok sd' w' ->
  exists w2', partition_groups groups hosts sd lws w2 = Ok sd' w2' /\
              agree (members groups ++ P) w' w2'.
Proof.
  revert P sd w w2. induction groups as [|g groups IH]; intros P sd w w2 Hag Hnd Hdisj.
  { intros [= <- <-]. by exists w2. }
  rewrite members_cons in *. apply NoDup_app in Hnd as (Hnd1 & Hd12 & Hnd2).
  apply Forall_app in Hdisj as [Hdisj1 Hdisj2].
  cbn [partition_groups]. pose proof Hag as (Hh & Hp & _).
  destruct (sharding_options g) as [|j0 rest] eqn:Eg; [done|].
  destruct (same_shape_fields _ _ j0 Hp) as (-> & _).
  assert (forall sd1 w1 w21,
            agree (sharding_options g ++ P) w1 w21 ->
            partition_groups groups hosts sd1 lws w1 = Ok sd' w' ->
            exists w2', partition_groups groups hosts sd1 lws w21 = Ok sd' w2' /\
                        agree ((sharding_options g ++ members groups) ++ P) w' w2')
    as Hrest.
  { intros sd1 w1 w21 Hag1 H.
    destruct (IH _ sd1 _ _ Hag1 Hnd2) as (w2' & -> & Hag'); [|done|].
    - apply Forall_forall. intros j Hj [Hin|Hin]%elem_of_app.
      + rewrite Eg in Hin. by apply (Hd12 j).
      + eapply Forall_forall in Hdisj2; [|exact Hj]. done.
    - exists w2'. split; [done|]. eapply agree_weaken; [|exact Hag']. set_solver. }
  rewrite Eg in Hrest.
  destruct (String.eqb _ HOST).
  - unfold _cohost_partition. rewrite Hh.
    destruct (cohost_hosts g _ w) as [[] w1|e w1] eqn:E; [|done].
    destruct (cohost_hosts_stale P g (_sort_devices_by_perf (heap_of w) hosts)
                w w2 w1 Hag) as (w21 & -> & Hag1);
      rewrite ?Eg; try done.
    rewrite Eg in Hag1. by apply Hrest.
  - destruct (String.eqb _ DEVICE); [|done]. destruct (negb _) eqn:En; [done|].
    apply negb_false_iff, Nat.eqb_eq in En. destruct rest; [|done].
    pose proof (_device_partition_stale P j0 sd lws w w2 Hag) as Hsim.
    destruct (_device_partition j0 sd lws w) as [sd1 w1|e w1]; [|done].
    destruct Hsim as (w21 & -> & Hag1). by apply Hrest.
Qed.

Lemma Forall2_same_shape p p2 :
  Forall2 (fun so so' =>
             name so' = name so /\ fqn so' = fqn so /\
             dependency so' = dependency so /\
             partition_by so' = partition_by so /\
             sharding_type so' = sharding_type so /\
             Forall2 (fun s s' => s_storage s' = s_storage s /\ s_perf s' = s_perf s)
               (shards so) (shards so')) p p2 ->
  same_shape p p2.
Proof.
  unfold same_shape, reset_shard_rank.
  induction 1 as [|so so2 p p2 (Hn & Hf & Hd & Hp & Ht & Hs) _ IH]; [done|].
  cbn [map]. rewrite IH. f_equal.
  unfold reset_option, with_shards. rewrite Hn, Hf, Hd, Hp, Ht. f_equal.
  clear -Hs. induction Hs as [|s s2 l l2 [H1 H2] _ IH]; [done|].
  cbn [map]. rewrite IH. f_equal. unfold clear_rank. by rewrite H1, H2.
Qed.

Lemma partition_stale tc w p2 topo w' :
  same_shape (proposal w) p2 ->
  partition tc w = Ok topo w' ->
  partition tc (mkWorld (heap_of w) p2) = Ok topo w'.
Proof.
  intros Hp H.
  assert (length (proposal w') = length (proposal w)) as Hlen.
  { pose proof (partition_effect tc w) as He. rewrite H in He.
    apply effect_same_shape in He. by apply same_shape_length in He. }
  revert H. unfold partition. cbn [deepcopy_devices heap_of proposal].
  set (D := seq (length (heap_of w)) (length (devices tc))).
  set (h1 := heap_of w ++ map (fun r => heap_of w !!! r) (devices tc)).
  destruct (_get_host_level_devices _) as [e|hosts]; [done|].
  cbn [devices local_world_size proposal].
  rewrite (uniform_same_shape _ _ Hp).
  assert (agree [] (mkWorld h1 (proposal w)) (mkWorld h1 p2)) as Hag.
  { split_and!; [done|done|]. intros j Hj. by apply elem_of_nil in Hj. }
  destruct (_uniform_partition _ D (mkWorld h1 (proposal w))) as [[] w1|e w1] eqn:EU;
    [|done].
  destruct (_uniform_partition_stale _ _ _ _ _ _ Hag EU) as (w21 & -> & Hag1).
  pose proof Hag1 as (_ & Hp1 & _).
  rewrite (grouping_same_shape _ _ Hp1).
  pose proof (_uniform_partition_effect
                (_get_uniform_sharding_options (proposal w)) D
                (mkWorld h1 (proposal w))) as He.
  rewrite EU in He. cbn [state_of] in He. apply effect_same_shape in He.
  cbn [proposal] in He.
  rewrite (grouping_same_shape _ _ He) in *.
  destruct (grouping_indices (proposal w)) as (HU & HG & HndU & HndG & Hdisj).
  destruct (partition_groups _ hosts D _ w1) as [sd' w3|e w3] eqn:EG; [|done].
  intros [= <- <-].
  assert (Forall (fun j => j ∉ _get_uniform_sharding_options (proposal w) ++ [])
            (members (_group_and_sort_non_uniform_sharding_options (proposal w))))
    as Hdisj'.
  { apply Forall_forall. intros j Hj Hin. rewrite app_nil_r in Hin.
    by apply (Hdisj j). }
  destruct (partition_groups_stale _ _ _ _ _ _ _ _ _ Hag1 HndG Hdisj' EG)
    as (w23 & -> & (Hh3 & Hp3 & Hl3)).
  f_equal. destruct w3 as [h3 p3], w23 as [h23 p23]. cbn [heap_of proposal] in *.
  f_equal; [done|]. apply list_eq. intros j.
  pose proof (same_shape_length _ _ Hp3) as Hlen3.
  destruct (decide (j < length p3)%nat) as [Hlt|Hge].
  - apply Hl3. rewrite app_nil_r.
    rewrite (elem_of_Permutation_proper _ _ _ (Permutation_app_comm _ _)).
    rewrite (grouping_covers (proposal w)). apply elem_of_seq. lia.
  - rewrite !lookup_ge_None_2; [done|lia|lia].
Qed.

(** X19.  The ranks that the shards carry on entry do not matter: when
    [partition] returns for a proposal, it returns the same plan and the same
    working topology for every proposal that differs from it only in the
    ranks of the shards. *)
Theorem partition_ignores_entry_ranks tc w p2 topo w' :
  partition tc w = Ok topo w' ->
  Forall2 (fun so so' =>
             name so' = name so /\ fqn so' = fqn so /\
             dependency so' = dependency so /\
             partition_by so' = partition_by so /\
             sharding_type so' = sharding_type so /\
             Forall2 (fun s s' => s_storage s' = s_storage s /\ s_perf s' = s_perf s)
               (shards so) (shards so'))
    (proposal w) p2 ->
  partition tc (mkWorld (heap_of w) p2) = Ok topo w'.
Proof. intros H Hs. apply partition_stale; [by apply Forall2_same_shape|done]. Qed.

Lemma partition_ignores_entry_ranks_witness :
  partition ex_topology (mkWorld (heap_of ex_world) (proposal ex_final))
  = Ok ex_working ex_final.
Proof.
  apply (partition_ignores_entry_ranks ex_topology ex_world
           (proposal ex_final) ex_working ex_final).
  - vm_compute. reflexivity.
  - vm_compute. repeat (constructor || split).
Defined.

(** X20.  [partition] is idempotent on its own plan: called again, from the
    devices of the caller as they were, on the plan it returned, it returns
    that plan unchanged, with the same working topology. *)
Theorem partition_idempotent tc w topo w' :
  partition tc w = Ok topo w' ->
  partition tc (mkWorld (heap_of w) (proposal w')) = Ok topo w'.
Proof.
  intros H. apply partition_stale; [|done].
  pose proof (partition_effect tc w) as He. rewrite H in He.
  by apply effect_same_shape in He.
Qed.

Lemma partition_idempotent_witness :
  partition (mkTopology [2; 3]%nat 2)
    (mkWorld (heap_of ex_search_world ++ heap_of ex_search_world)
       (proposal ex_baseline))
  = Ok (mkTopology [4; 5]%nat 2) ex_baseline.
Proof.
  apply (partition_idempotent (mkTopology [2; 3]%nat 2)
           (mkWorld (heap_of ex_search_world ++ heap_of ex_search_world)
              (proposal ex_search_world))
           (mkTopology [4; 5]%nat 2) ex_baseline).
  vm_compute. reflexivity.
Defined.

(** ** Nothing is lost in the books *)





















(** ** The bisection *)

(** X22.  Every iteration of the search is a bisection step: the new bracket
    [(min, max)] lies within the old one, is not empty, and is at most half
    as wide as the old one, rounded up. *)
Theorem search_step_halves rate msc tol topo orig s w s1 w1 :
  loop_guard msc s = true ->
  search_body rate tol topo orig s w = Ok s1 w1 ->
  min_hbm_per_device s <= min_hbm_per_device s1 /\
  max_hbm_per_device s1 <= max_hbm_per_device s /\
  min_hbm_per_device s1 < max_hbm_per_device s1 /\
  max_hbm_per_device s1 - min_hbm_per_device s1
  <= (max_hbm_per_device s - min_hbm_per_device s + 1) / 2.
Proof.
  intros Hg E.
  destruct (search_body_ok rate tol _ _ _ _ _ _ E) as (_ & _ & Hcase).
  unfold loop_guard in Hg. apply andb_true_iff in Hg as [_ Hw%Z.ltb_lt].
  change (10 * 1024 ^ 2) with 10485760 in Hw.
  unfold mid_hbm_per_device in Hcase.
  set (lo := min_hbm_per_device s) in *. set (hi := max_hbm_per_device s) in *.
  pose proof (Z.div_mod (hi + lo) 2 ltac:(lia)) as Hm.
  pose proof (Z.mod_pos_bound (hi + lo) 2 ltac:(lia)) as Hb.
  pose proof (Z.div_mod (hi - lo + 1) 2 ltac:(lia)) as Hm'.
  pose proof (Z.mod_pos_bound (hi - lo + 1) 2 ltac:(lia)) as Hb'.
  destruct Hcase as [(-> & -> & _)|(-> & -> & _)]; lia.
Qed.

Lemma search_step_halves_witness :
  let s := mkSearch 0 (8 * MiB) (64 * MiB) (proposal ex_baseline) in
  let o := search_body ex_rate (2 # 100) (mkTopology [2; 3]%nat 2)
             (ex_rate (proposal ex_baseline)) s ex_baseline in
  exists s1 w1,
    o = Ok s1 w1 /\
    min_hbm_per_device s <= min_hbm_per_device s1 /\
    max_hbm_per_device s1 <= max_hbm_per_device s /\
    min_hbm_per_device s1 < max_hbm_per_device s1 /\
    max_hbm_per_device s1 - min_hbm_per_device s1
    <= (max_hbm_per_device s - min_hbm_per_device s + 1) / 2.
Proof.
  cbv zeta. eexists _, _. split; [vm_compute; reflexivity|].
  eapply (search_step_halves ex_rate 10 (2 # 100) (mkTopology [2; 3]%nat 2)
            (ex_rate (proposal ex_baseline))
            (mkSearch 0 (8 * MiB) (64 * MiB) (proposal ex_baseline)) ex_baseline).
  - vm_compute. reflexivity.
  - vm_compute. reflexivity.
Defined.
